(** * SimToolbox: constraint collection and mobility assembly of SylinderSystem

    A shallow embedding of the parts of [Sylinder/SylinderSystem.cpp] and
    [Constraint/ConstraintSolver.hpp] that build constraint blocks, the
    block-diagonal mobility matrix, the per-step solver call sequence and
    the gids and links of newly added sylinders, and of the placement of
    rods against the walls, the non-constraint velocity, the bounding box,
    the order parameters and the result folders; of
    [ParticleSystem/ParticleSystem.hpp], calcVelTotalNonCon.

    Modelling conventions.
    - A C++ [double] is a real number of [R]: arithmetic is exact, there is
      no rounding, NaN or infinity.  The comparisons [<], [>] and [==] of
      the source are the decidable comparisons of [R].
    - A C++ [int] is an integer of [Z]; every [+] of the source on [int]
      values is [int_add], the 32-bit two's complement sum.
    - Loop counters and array positions are [nat].
    - An OpenMP [parallel for] over [0 .. nLocal-1] with one queue per
      thread is the list of iterations each thread receives, in ascending
      order, the thread of an iteration being given by the schedule
      [omp_sched]. *)

From Stdlib Require Import Reals Lra Lia ZArith List Bool Permutation.
From Stdlib Require String DecimalString.
Import ListNotations.

Open Scope R_scope.

(** ** Machine integers *)

Definition INT_MIN : Z := (- 2147483648)%Z.
Definition INT_MAX : Z := 2147483647%Z.

Definition int_wrap (z : Z) : Z :=
  ((z + 2147483648) mod 4294967296 - 2147483648)%Z.

Definition int_add (a b : Z) : Z := int_wrap (a + b).

Definition in_int (z : Z) : Prop := (INT_MIN <= z <= INT_MAX)%Z.

(** ** Comparisons on doubles *)

Definition Rltb (a b : R) : bool := if Rlt_dec a b then true else false.
Definition Rgtb (a b : R) : bool := Rltb b a.
Definition Reqb (a b : R) : bool := if Req_dec_T a b then true else false.

(** ** Eigen vectors, matrices and quaternions *)

Record Evec3 : Type := mkEvec3 { vx : R; vy : R; vz : R }.

Definition vadd (a b : Evec3) : Evec3 :=
  mkEvec3 (vx a + vx b) (vy a + vy b) (vz a + vz b).
Definition vsub (a b : Evec3) : Evec3 :=
  mkEvec3 (vx a - vx b) (vy a - vy b) (vz a - vz b).
Definition vneg (a : Evec3) : Evec3 := mkEvec3 (- vx a) (- vy a) (- vz a).
Definition vscale (a : Evec3) (s : R) : Evec3 :=
  mkEvec3 (vx a * s) (vy a * s) (vz a * s).
Definition sscale (s : R) (a : Evec3) : Evec3 :=
  mkEvec3 (s * vx a) (s * vy a) (s * vz a).
Definition vdivs (a : Evec3) (s : R) : Evec3 :=
  mkEvec3 (vx a / s) (vy a / s) (vz a / s).
Definition vcross (a b : Evec3) : Evec3 :=
  mkEvec3 (vy a * vz b - vz a * vy b)
          (vz a * vx b - vx a * vz b)
          (vx a * vy b - vy a * vx b).
Definition vdot (a b : Evec3) : R := vx a * vx b + vy a * vy b + vz a * vz b.
Definition squaredNorm (a : Evec3) : R := vdot a a.
Definition norm (a : Evec3) : R := sqrt (squaredNorm a).

(** Component [k] of a vector, [v[k]] or [v(k)] in the source. *)
Definition vget (a : Evec3) (k : nat) : R :=
  match k with O => vx a | S O => vy a | _ => vz a end.

Definition vzero : Evec3 := mkEvec3 0 0 0.

(** A 3x3 matrix, stored by rows. *)
Record Emat3 : Type := mkEmat3 { row0 : Evec3; row1 : Evec3; row2 : Evec3 }.

Definition mrow (m : Emat3) (a : nat) : Evec3 :=
  match a with O => row0 m | S O => row1 m | _ => row2 m end.
Definition mget (m : Emat3) (a b : nat) : R := vget (mrow m a) b.

Definition madd (m n : Emat3) : Emat3 :=
  mkEmat3 (vadd (row0 m) (row0 n)) (vadd (row1 m) (row1 n))
          (vadd (row2 m) (row2 n)).
Definition msub (m n : Emat3) : Emat3 :=
  mkEmat3 (vsub (row0 m) (row0 n)) (vsub (row1 m) (row1 n))
          (vsub (row2 m) (row2 n)).
Definition mscale (s : R) (m : Emat3) : Emat3 :=
  mkEmat3 (sscale s (row0 m)) (sscale s (row1 m)) (sscale s (row2 m)).
Definition mIdentity : Emat3 :=
  mkEmat3 (mkEvec3 1 0 0) (mkEvec3 0 1 0) (mkEvec3 0 0 1).
Definition mZero : Emat3 := mkEmat3 vzero vzero vzero.
(** [q * q.transpose()] *)
Definition outer (a b : Evec3) : Emat3 :=
  mkEmat3 (sscale (vx a) b) (sscale (vy a) b) (sscale (vz a) b).

(** Kronecker delta, the entries of [Emat3::Identity()]. *)
Definition kron (a b : nat) : R := if Nat.eqb a b then 1 else 0.

(** A quaternion with Eigen's coefficient order [x, y, z, w]; the source
    stores it as [double orientation[4]] and maps it with [ECmapq]. *)
Record Equatn : Type := mkEquatn { qx : R; qy : R; qz : R; qw : R }.

Definition qvec (q : Equatn) : Evec3 := mkEvec3 (qx q) (qy q) (qz q).

(** [q * v] of Eigen: [uv = q.vec x v; uv += uv;
    v + q.w * uv + q.vec x uv]. *)
Definition qrotate (q : Equatn) (v : Evec3) : Evec3 :=
  let uv := vcross (qvec q) v in
  let uv2 := vadd uv uv in
  vadd (vadd v (sscale (qw q) uv2)) (vcross (qvec q) uv2).

Definition ez : Evec3 := mkEvec3 0 0 1.

(** ** Bodies, configuration and constraint blocks *)

Record Link : Type := mkLink { group : Z; prev : Z; next : Z }.

Record Sylinder : Type := mkSylinder {
  gid : Z;
  globalIndex : Z;
  radius : R;
  radiusCollision : R;
  length : R;
  lengthCollision : R;
  pos : Evec3;
  orientation : Equatn;
  link : Link;
  sepmin : R
}.

Definition set_gid (sy : Sylinder) (g : Z) : Sylinder :=
  mkSylinder g (globalIndex sy) (radius sy) (radiusCollision sy) (length sy)
             (lengthCollision sy) (pos sy) (orientation sy) (link sy)
             (sepmin sy).
Definition set_globalIndex (sy : Sylinder) (g : Z) : Sylinder :=
  mkSylinder (gid sy) g (radius sy) (radiusCollision sy) (length sy)
             (lengthCollision sy) (pos sy) (orientation sy) (link sy)
             (sepmin sy).
Definition set_link (sy : Sylinder) (l : Link) : Sylinder :=
  mkSylinder (gid sy) (globalIndex sy) (radius sy) (radiusCollision sy)
             (length sy) (lengthCollision sy) (pos sy) (orientation sy) l
             (sepmin sy).
Definition set_sepmin (sy : Sylinder) (s : R) : Sylinder :=
  mkSylinder (gid sy) (globalIndex sy) (radius sy) (radiusCollision sy)
             (length sy) (lengthCollision sy) (pos sy) (orientation sy)
             (link sy) s.

(** The fields of [SylinderConfig] that the modelled functions read. *)
Record SylinderConfig : Type := mkConfig {
  wallLowZ : bool;
  wallHighZ : bool;
  simBoxLow : Evec3;
  simBoxHigh : Evec3;
  viscosity : R;
  dt : R;
  linkKappa : R;
  conResTol : R;
  conMaxIte : Z;
  conSolverChoice : Z
}.

Record ConstraintBlock : Type := mkBlock {
  delta0 : R;
  gamma : R;
  gidI : Z;
  gidJ : Z;
  globalIndexI : Z;
  globalIndexJ : Z;
  normI : Evec3;
  normJ : Evec3;
  posI : Evec3;
  posJ : Evec3;
  labI : Evec3;
  labJ : Evec3;
  oneSide : bool;
  kappa : R;
  stress : Emat3
}.

Definition ConstraintBlockQue : Type := list ConstraintBlock.
Definition ConstraintBlockPool : Type := list ConstraintBlockQue.

Definition set_kappa_gamma (b : ConstraintBlock) (k g : R) : ConstraintBlock :=
  mkBlock (delta0 b) g (gidI b) (gidJ b) (globalIndexI b) (globalIndexJ b)
          (normI b) (normJ b) (posI b) (posJ b) (labI b) (labJ b)
          (oneSide b) k (stress b).
Definition setStress (b : ConstraintBlock) (s : Emat3) : ConstraintBlock :=
  mkBlock (delta0 b) (gamma b) (gidI b) (gidJ b) (globalIndexI b)
          (globalIndexJ b) (normI b) (normJ b) (posI b) (posJ b) (labI b)
          (labJ b) (oneSide b) (kappa b) s.

(** ** OpenMP work sharing *)

(** The iterations of [for (i = 0; i < nLocal; i++)] that thread [t] of a
    team of [nThreads] runs, in the order it runs them. *)
Definition thread_iters (omp_sched : nat -> nat -> nat -> nat)
    (nThreads nLocal t : nat) : list nat :=
  filter (fun i => Nat.eqb (omp_sched nThreads nLocal i) t) (seq 0 nLocal).

(** Every thread appends to its own queue what [body i] emits for each of
    its iterations. *)
Definition omp_for_emit (omp_sched : nat -> nat -> nat -> nat)
    (nLocal : nat) (body : nat -> list ConstraintBlock)
    (pool : ConstraintBlockPool) : ConstraintBlockPool :=
  map (fun tq : nat * ConstraintBlockQue =>
         snd tq ++ flat_map body
                     (thread_iters omp_sched (List.length pool) nLocal (fst tq)))
      (combine (seq 0 (List.length pool)) pool).

(** ** getCurrentResultFolder *)

(** [*] and [-] on [int]. *)
Definition int_mul (a b : Z) : Z := int_wrap (a * b).
Definition int_sub (a b : Z) : Z := int_wrap (a - b).

Module ResultFolder.
Import String.

(** [std::to_string] of an [int]. *)
Definition to_string (z : Z) : string :=
  DecimalString.NilZero.string_of_int (Z.to_int z).

(** The name built from [low] and [high]. *)
Definition baseFolder (low high : Z) : string :=
  ("./result/result" ++ to_string low ++ "-" ++ to_string high ++ "/")%string.

End ResultFolder.

(** getCurrentResultFolder on a communicator of [size] ranks at snapshot
    [snapID]; [/] on [int] truncates. *)
Definition getCurrentResultFolder (size snapID : Z) : String.string :=
  let num := Z.max (Z.quot 400 size) 1 in
  let k := Z.quot snapID num in
  let low := int_mul k num in
  let high := int_sub (int_add (int_mul k num) num) 1 in
  ResultFolder.baseFolder low high.

Section Model.

(** ** Parts of the repository whose source is not at hand *)

(** [GEO_INVALID_INDEX] of [Util/GeoCommon.h]. *)
Variable GEO_INVALID_INDEX : Z.

(** The value the constructor of [ConstraintBlock] gives to [kappa] when
    the call site passes no [kappa] argument, and the [stress] of a freshly
    constructed block ([Constraint/ConstraintBlock.hpp]). *)
Variable ctor_kappa : R.
Variable ctor_stress : Emat3.

(** [CalcSylinderNearForce::collideStress]; the arguments are those of the
    two call sites. *)
Variable collideStress :
  Evec3 -> Evec3 -> Evec3 -> Evec3 -> R -> R -> R -> R -> R -> Evec3 -> Evec3 ->
  Emat3.

(** The default schedule of an OpenMP [for]: the thread that runs
    iteration [i], from the team size and the trip count. *)
Variable omp_sched : nat -> nat -> nat -> nat.

(** The constructor of [ConstraintBlock], with the arguments in the order
    of its call sites. *)
Definition ConstraintBlock_ctor (delta0_ gamma_ : R) (gidI_ gidJ_ : Z)
    (globalIndexI_ globalIndexJ_ : Z) (normI_ normJ_ posI_ posJ_ : Evec3)
    (labI_ labJ_ : Evec3) (oneSide_ : bool) (kappa_ : R) : ConstraintBlock :=
  mkBlock delta0_ gamma_ gidI_ gidJ_ globalIndexI_ globalIndexJ_
          normI_ normJ_ posI_ posJ_ labI_ labJ_ oneSide_ kappa_ ctor_stress.

(** ** collectWallCollision *)

(** [Pm] and [Pp], the two ends of the collision segment. *)
Definition endPm (sy : Sylinder) : Evec3 :=
  let direction := qrotate (orientation sy) ez in
  vsub (pos sy) (vscale direction (lengthCollision sy * 0.5)).
Definition endPp (sy : Sylinder) : Evec3 :=
  let direction := qrotate (orientation sy) ez in
  vadd (pos sy) (vscale direction (lengthCollision sy * 0.5)).

(** The three-way choice of the contact location and of [phi0], written
    the same way in the loops of both walls. *)
Definition wallSelect (Pm Pp : Evec3) (distm distp : R) : option (Evec3 * R) :=
  if Rltb distm distp && Rltb distm 0 then Some (Pm, distm)
  else if Rgtb distm distp && Rltb distp 0 then Some (Pp, distp)
  else if Reqb distm distp && Rltb distm 0
       then Some (vscale (vadd Pm Pp) 0.5, distm)
  else None.

Definition wallLow_distm (wallBot : R) (sy : Sylinder) : R :=
  vget (endPm sy) 2 - wallBot - radius sy.
Definition wallLow_distp (wallBot : R) (sy : Sylinder) : R :=
  vget (endPp sy) 2 - wallBot - radius sy.
Definition wallHigh_distm (wallTop : R) (sy : Sylinder) : R :=
  wallTop - vget (endPm sy) 2 - radius sy.
Definition wallHigh_distp (wallTop : R) (sy : Sylinder) : R :=
  wallTop - vget (endPp sy) 2 - radius sy.

(** The contact point in the words of the specification: the end with the
    smaller signed distance, the middle of the segment when the two
    distances are equal. *)
Definition spec_contactPoint (Pm Pp : Evec3) (distm distp : R) : Evec3 :=
  if Rlt_dec distm distp then Pm
  else if Rlt_dec distp distm then Pp
  else vscale (vadd Pm Pp) 0.5.

(** One iteration of the loop of the bottom wall. *)
Definition wallLowBlock (wallBot : R) (sy : Sylinder) : list ConstraintBlock :=
  match wallSelect (endPm sy) (endPp sy)
                   (wallLow_distm wallBot sy) (wallLow_distp wallBot sy) with
  | None => []
  | Some (colLoc, phi0) =>
      [ConstraintBlock_ctor phi0 (- phi0) (gid sy) (int_add (gid sy) 1)
         (globalIndex sy) (int_add (globalIndex sy) 1)
         (mkEvec3 0 0 1) (mkEvec3 0 0 0)
         (vsub colLoc (pos sy)) (mkEvec3 0 0 0)
         colLoc (mkEvec3 (vget colLoc 0) (vget colLoc 1) wallBot)
         true ctor_kappa]
  end.

(** One iteration of the loop of the top wall. *)
Definition wallHighBlock (wallTop : R) (sy : Sylinder) : list ConstraintBlock :=
  match wallSelect (endPm sy) (endPp sy)
                   (wallHigh_distm wallTop sy) (wallHigh_distp wallTop sy) with
  | None => []
  | Some (colLoc, phi0) =>
      [ConstraintBlock_ctor phi0 (- phi0) (gid sy) (int_add (gid sy) 1)
         (globalIndex sy) (int_add (globalIndex sy) 1)
         (mkEvec3 0 0 (-1)) (mkEvec3 0 0 0)
         (vsub colLoc (pos sy)) (mkEvec3 0 0 0)
         colLoc (mkEvec3 (vget colLoc 0) (vget colLoc 1) wallTop)
         true ctor_kappa]
  end.

(** The body of a loop over the local container: [sylinderContainer[i]]. *)
Definition at_body (container : list Sylinder)
    (f : Sylinder -> list ConstraintBlock) (i : nat) : list ConstraintBlock :=
  match nth_error container i with
  | Some sy => f sy
  | None => []
  end.

Definition collectWallCollision (runConfig : SylinderConfig)
    (sylinderContainer : list Sylinder) (collisionPool : ConstraintBlockPool)
    : ConstraintBlockPool :=
  let nLocal := List.length sylinderContainer in
  let pool1 :=
    if wallLowZ runConfig then
      let wallBot := vget (simBoxLow runConfig) 2 in
      omp_for_emit omp_sched nLocal
        (at_body sylinderContainer (wallLowBlock wallBot)) collisionPool
    else collisionPool in
  if wallHighZ runConfig then
    let wallTop := vget (simBoxHigh runConfig) 2 in
    omp_for_emit omp_sched nLocal
      (at_body sylinderContainer (wallHighBlock wallTop)) pool1
  else pool1.

(** What one call appends to the queue of thread [t] of [nThreads]. *)
Definition wallAppended (runConfig : SylinderConfig)
    (sylinderContainer : list Sylinder) (nThreads t : nat)
    : list ConstraintBlock :=
  let nLocal := List.length sylinderContainer in
  (if wallLowZ runConfig then
     flat_map (at_body sylinderContainer
                 (wallLowBlock (vget (simBoxLow runConfig) 2)))
              (thread_iters omp_sched nThreads nLocal t)
   else []) ++
  (if wallHighZ runConfig then
     flat_map (at_body sylinderContainer
                 (wallHighBlock (vget (simBoxHigh runConfig) 2)))
              (thread_iters omp_sched nThreads nLocal t)
   else []).

(** ** calcMobMatrix *)

Definition Pi : R := 3.14159265358979323846.

(** The drag coefficients of one sylinder; [log] of the source is the
    natural logarithm. *)
Definition drag_b (sy : Sylinder) : R :=
  let diameter := radius sy * 2 in
  - (1 + 2 * ln (diameter * 0.5 / length sy)).
Definition dragPara (mu : R) (sy : Sylinder) : R :=
  8 * Pi * length sy * mu / (2 * drag_b sy).
Definition dragPerp (mu : R) (sy : Sylinder) : R :=
  8 * Pi * length sy * mu / (drag_b sy + 2).
Definition dragRot (mu : R) (sy : Sylinder) : R :=
  2 * Pi * mu * length sy * length sy * length sy / (3 * (drag_b sy + 2)).

Definition MobTrans (mu : R) (sy : Sylinder) : Emat3 :=
  let q := qrotate (orientation sy) ez in
  let qq := outer q q in
  let Imqq := msub mIdentity qq in
  let dragParaInv := 1 / dragPara mu sy in
  let dragPerpInv := 1 / dragPerp mu sy in
  madd (mscale dragParaInv qq) (mscale dragPerpInv Imqq).

Definition MobRot (mu : R) (sy : Sylinder) : Emat3 :=
  let q := qrotate (orientation sy) ez in
  let qq := outer q q in
  let Imqq := msub mIdentity qq in
  let dragRotInv := 1 / dragRot mu sy in
  madd (mscale dragRotInv qq) (mscale dragRotInv Imqq).

(** [M * x] and the quadratic form [x^T M x]. *)
Definition mvec (m : Emat3) (x : Evec3) : Evec3 :=
  mkEvec3 (vdot (row0 m) x) (vdot (row1 m) x) (vdot (row2 m) x).
Definition quadForm (m : Emat3) (x : Evec3) : R := vdot x (mvec m x).

(** [a[k] = v] on an array; a position outside the array is never written
    by the modelled code and leaves the list as it is. *)
Fixpoint write {A : Type} (l : list A) (k : nat) (v : A) : list A :=
  match l, k with
  | [], _ => []
  | _ :: l', O => v :: l'
  | x :: l', S k' => x :: write l' k' v
  end.

(** [a[base] = v0; a[base + 1] = v1; ...] *)
Fixpoint write_at {A : Type} (l : list A) (base : nat) (vs : list A) : list A :=
  match vs with
  | [] => l
  | v :: vs' => write_at (write l base v) (S base) vs'
  end.

(** [for (i = 1; i <= localSize; i++) rowPointers[i] = rowPointers[i-1] + 3],
    [k] iterations from index [i] on. *)
Fixpoint fill_rowPointers (k i : nat) (rp : list nat) : list nat :=
  match k with
  | O => rp
  | S k' => fill_rowPointers k' (S i) (write rp i (nth (i - 1) rp 0 + 3)%nat)
  end.

Definition mob_rowPointers (localSize : nat) : list nat :=
  fill_rowPointers localSize 1 (write (repeat 0%nat (localSize + 1)) 0 0%nat).

(** The 18 column indices and the 18 values written for sylinder [i], in
    the order of the slots [18 * i], [18 * i + 1], ... *)
Definition mobColumns (i : nat) : list nat :=
  [ 6 * i; 6 * i + 1; 6 * i + 2;
    6 * i; 6 * i + 1; 6 * i + 2;
    6 * i; 6 * i + 1; 6 * i + 2;
    6 * i + 3; 6 * i + 4; 6 * i + 5;
    6 * i + 3; 6 * i + 4; 6 * i + 5;
    6 * i + 3; 6 * i + 4; 6 * i + 5 ]%nat.

Definition mobValues (mu : R) (sy : Sylinder) : list R :=
  let MobTrans := MobTrans mu sy in
  let MobRot := MobRot mu sy in
  [ mget MobTrans 0 0; mget MobTrans 0 1; mget MobTrans 0 2;
    mget MobTrans 1 0; mget MobTrans 1 1; mget MobTrans 1 2;
    mget MobTrans 2 0; mget MobTrans 2 1; mget MobTrans 2 2;
    mget MobRot 0 0; mget MobRot 0 1; mget MobRot 0 2;
    mget MobRot 1 0; mget MobRot 1 1; mget MobRot 1 2;
    mget MobRot 2 0; mget MobRot 2 1; mget MobRot 2 2 ].

(** The three arrays handed to the constructor of the sparse matrix. *)
Record TCMAT : Type := mkTCMAT {
  rowPointers : list nat;
  columnIndices : list nat;
  values : list R
}.

(** One iteration of the loop over the local sylinders; the iterations
    write disjoint slots, so the parallel loop is the loop in index
    order. *)
Definition mob_body (mu : R) (container : list Sylinder)
    (cv : list nat * list R) (i : nat) : list nat * list R :=
  match nth_error container i with
  | Some sy =>
      (write_at (fst cv) (18 * i) (mobColumns i),
       write_at (snd cv) (18 * i) (mobValues mu sy))
  | None => cv
  end.

Definition calcMobMatrix (runConfig : SylinderConfig)
    (sylinderContainer : list Sylinder) : TCMAT :=
  let mu := viscosity runConfig in
  let nLocal := List.length sylinderContainer in
  let localSize := (nLocal * 6)%nat in
  let rowPointers := mob_rowPointers localSize in
  let nnz := nth localSize rowPointers 0%nat in
  let cv := fold_left (mob_body mu sylinderContainer) (seq 0 nLocal)
                      (repeat 0%nat nnz, repeat 0 nnz) in
  mkTCMAT rowPointers (fst cv) (snd cv).

(** The stored entries of row [r], as (column, value), and the matrix
    entry at [(r, c)]: the sum of the stored values of row [r] whose column
    is [c]. *)
Definition crs_row_entries (m : TCMAT) (r : nat) : list (nat * R) :=
  let lo := nth r (rowPointers m) 0%nat in
  let hi := nth (S r) (rowPointers m) 0%nat in
  map (fun k => (nth k (columnIndices m) 0%nat, nth k (values m) 0))
      (seq lo (hi - lo)).

Definition crs_entry (m : TCMAT) (r c : nat) : R :=
  fold_right (fun kv acc => if Nat.eqb (fst kv) c then snd kv + acc else acc)
             0 (crs_row_entries m r).

(** ** ConstraintSolver and the calls of one step *)

(** The members of [ConstraintSolver] that [setControlParams] writes. *)
Record ConstraintSolver : Type := mkSolver { res : R; maxIte : Z }.

Definition setControlParams (s : ConstraintSolver) (res_ : R) (maxIte_ : Z)
    : ConstraintSolver :=
  mkSolver res_ maxIte_.

(** The calls that [resolveConstraints] can make, with the arguments that
    the properties below look at: [setup] is recorded with the contents of
    the two collectors it receives. *)
Inductive Call : Type :=
| call_collectPairCollision
| call_collectWallCollision
| call_collectLinkBilateral
| call_setup (uniConstraints_ biConstraints_ : ConstraintBlockPool) (dt_ : R)
| call_setControlParams (res_ : R) (maxIte_ : Z) (solverChoice_ : Z)
| call_solveConstraints
| call_writebackGamma
| call_saveVelocityConstraints.

Inductive CallKind : Type :=
| K_collectPairCollision | K_collectWallCollision | K_collectLinkBilateral
| K_setup | K_setControlParams | K_solveConstraints | K_writebackGamma
| K_saveVelocityConstraints.

Definition call_kind (c : Call) : CallKind :=
  match c with
  | call_collectPairCollision => K_collectPairCollision
  | call_collectWallCollision => K_collectWallCollision
  | call_collectLinkBilateral => K_collectLinkBilateral
  | call_setup _ _ _ => K_setup
  | call_setControlParams _ _ _ => K_setControlParams
  | call_solveConstraints => K_solveConstraints
  | call_writebackGamma => K_writebackGamma
  | call_saveVelocityConstraints => K_saveVelocityConstraints
  end.

Definition CallKind_eqb (a b : CallKind) : bool :=
  match a, b with
  | K_collectPairCollision, K_collectPairCollision
  | K_collectWallCollision, K_collectWallCollision
  | K_collectLinkBilateral, K_collectLinkBilateral
  | K_setup, K_setup
  | K_setControlParams, K_setControlParams
  | K_solveConstraints, K_solveConstraints
  | K_writebackGamma, K_writebackGamma
  | K_saveVelocityConstraints, K_saveVelocityConstraints => true
  | _, _ => false
  end.

(** [a] is called, and later [b] is called. *)
Definition called_before (a b : CallKind) (log : list Call) : Prop :=
  exists l1 c1 l2 c2 l3,
    log = l1 ++ c1 :: l2 ++ c2 :: l3 /\ call_kind c1 = a /\ call_kind c2 = b.

(** The calls made before the first call of kind [k]. *)
Fixpoint calls_before (k : CallKind) (log : list Call) : list Call :=
  match log with
  | [] => []
  | c :: log' =>
      if CallKind_eqb (call_kind c) k then [] else c :: calls_before k log'
  end.

(** The state of [SylinderSystem] that the modelled member functions read
    or write, and the log of the calls made so far (oldest first). *)
Record SylinderSystem : Type := mkSystem {
  runConfig : SylinderConfig;
  sylinderContainer : list Sylinder;
  uniConstraint : ConstraintBlockPool;
  biConstraint : ConstraintBlockPool;
  sylinderGidIndex : list (Z * nat);
  constraintSolver : ConstraintSolver;
  calls : list Call
}.

Definition with_container (sys : SylinderSystem) (c : list Sylinder) :=
  mkSystem (runConfig sys) c (uniConstraint sys) (biConstraint sys)
           (sylinderGidIndex sys) (constraintSolver sys) (calls sys).
Definition with_uni (sys : SylinderSystem) (p : ConstraintBlockPool) :=
  mkSystem (runConfig sys) (sylinderContainer sys) p (biConstraint sys)
           (sylinderGidIndex sys) (constraintSolver sys) (calls sys).
Definition with_bi (sys : SylinderSystem) (p : ConstraintBlockPool) :=
  mkSystem (runConfig sys) (sylinderContainer sys) (uniConstraint sys) p
           (sylinderGidIndex sys) (constraintSolver sys) (calls sys).
Definition with_solver (sys : SylinderSystem) (s : ConstraintSolver) :=
  mkSystem (runConfig sys) (sylinderContainer sys) (uniConstraint sys)
           (biConstraint sys) (sylinderGidIndex sys) s (calls sys).
Definition log_call (sys : SylinderSystem) (c : Call) :=
  mkSystem (runConfig sys) (sylinderContainer sys) (uniConstraint sys)
           (biConstraint sys) (sylinderGidIndex sys) (constraintSolver sys)
           (calls sys ++ [c]).

(** ** collectPairCollision *)

(** [treeSylinderNearPtr->calcForceAll(calcColFtr, sylinderContainer, dinfo)]:
    the near-neighbour functor [CalcSylinderNearForce] holds both pools and
    appends to them; the tree keeps a [sepmin] for each local sylinder.
    From the container and the two pools it gives the two pools and the
    [sepmin] of [getForce(i)]. *)
Variable calcForceAll :
  list Sylinder -> ConstraintBlockPool -> ConstraintBlockPool ->
  ConstraintBlockPool * ConstraintBlockPool * list R.

(** The body of the loop over the blocks of a bilateral queue. *)
Definition fill_kappa (linkKappa_ : R) (block : ConstraintBlock)
    : ConstraintBlock :=
  if Rltb (kappa block) 0 then
    let kappa' := linkKappa_ in
    set_kappa_gamma block kappa' (kappa' * delta0 block)
  else block.

Definition collectPairCollision (sys : SylinderSystem) : SylinderSystem :=
  let sys := log_call sys call_collectPairCollision in
  let '(uni, bi, sepmins) :=
    calcForceAll (sylinderContainer sys) (uniConstraint sys)
                 (biConstraint sys) in
  let container :=
    map (fun isy : nat * Sylinder =>
           set_sepmin (snd isy) (nth (fst isy) sepmins 0))
        (combine (seq 0 (List.length (sylinderContainer sys)))
                 (sylinderContainer sys)) in
  let bi' := map (map (fill_kappa (linkKappa (runConfig sys)))) bi in
  with_bi (with_uni (with_container sys container) uni) bi'.

(** [collectWallCollision] as a member function: it appends to the pool of
    the unilateral collector. *)
Definition collectWallCollision_member (sys : SylinderSystem)
    : SylinderSystem :=
  let sys := log_call sys call_collectWallCollision in
  with_uni sys (collectWallCollision (runConfig sys) (sylinderContainer sys)
                                     (uniConstraint sys)).

(** ** resolveConstraints *)

(** [ConstraintSolver::writebackGamma], whose body is in
    [Constraint/ConstraintSolver.cpp]: it stores the solution in the
    [gamma] of the blocks of the two collectors, which share their pools
    with the system.  The unilateral and the bilateral pool that it
    leaves, given the system at the call. *)
Variable writebackGamma :
  SylinderSystem -> ConstraintBlockPool * ConstraintBlockPool.

(** The bodies of [setup] and [solveConstraints] work on solver members
    and velocity vectors that the model does not carry; their calls are
    recorded in the log.  [setControlParams] is called with three
    arguments, of which the solver keeps [res] and [maxIte].
    [writebackGamma] rewrites the two pools.  [saveVelocityConstraints]
    copies the velocities of the solver to [velCol], [omegaCol], [velBi]
    and [omegaBi] of every rod, which are not among the fields that
    [Sylinder] carries here, so no field of the record changes. *)
Definition resolveConstraints (sys : SylinderSystem) : SylinderSystem :=
  let sys := collectPairCollision sys in
  let sys := collectWallCollision_member sys in
  let sys :=
    log_call sys (call_setup (uniConstraint sys) (biConstraint sys)
                             (dt (runConfig sys))) in
  let sys :=
    with_solver
      (log_call sys (call_setControlParams (conResTol (runConfig sys))
                                           (conMaxIte (runConfig sys))
                                           (conSolverChoice (runConfig sys))))
      (setControlParams (constraintSolver sys) (conResTol (runConfig sys))
                        (conMaxIte (runConfig sys))) in
  let sys := log_call sys call_solveConstraints in
  let sys :=
    let pools := writebackGamma sys in
    with_bi (with_uni (log_call sys call_writebackGamma) (fst pools))
            (snd pools) in
  log_call sys call_saveVelocityConstraints.

(** The calls of one run of [resolveConstraints]. *)
Definition step_calls (sys : SylinderSystem) : list Call :=
  skipn (List.length (calls sys)) (calls (resolveConstraints sys)).

(** Modelled from the spec: the state machine of ConstraintSolver, of
    which the source has no state variable.  [fresh -> configured] after
    setControlParams, [configured -> setup_done] after setup,
    [setup_done -> solved] after solveConstraints, [solved -> written]
    after writebackGamma; solveConstraints and writebackGamma may be
    repeated. *)
Inductive SolverPhase : Type :=
| fresh | configured | setup_done | solved | written.

Definition phase_step (p : SolverPhase) (k : CallKind) : option SolverPhase :=
  match k, p with
  | K_setControlParams, fresh => Some configured
  | K_setup, configured => Some setup_done
  | K_solveConstraints, setup_done => Some solved
  | K_solveConstraints, solved => Some solved
  | K_writebackGamma, solved => Some written
  | K_writebackGamma, written => Some written
  | K_setControlParams, _ | K_setup, _ | K_solveConstraints, _
  | K_writebackGamma, _ => None
  | _, _ => Some p
  end.

Fixpoint phase_run (p : SolverPhase) (log : list Call) : option SolverPhase :=
  match log with
  | [] => Some p
  | c :: log' =>
      match phase_step p (call_kind c) with
      | Some p' => phase_run p' log'
      | None => None
      end
  end.

(** ** collectLinkBilateral *)

(** [sylinderGidIndex.find(g)]: the local index stored for gid [g]. *)
Fixpoint gid_find (index : list (Z * nat)) (g : Z) : option nat :=
  match index with
  | [] => None
  | (g', i) :: index' => if Z.eqb g' g then Some i else gid_find index' g
  end.

(** The data of a sylinder of another rank, as the directory returns it. *)
Record SylinderNearEP : Type := mkNearEP {
  ep_gid : Z;
  ep_globalIndex : Z;
  ep_radius : R;
  ep_length : R;
  ep_pos : Evec3;
  ep_direction : Evec3
}.

(** [sylinderNearDataDirectoryPtr->find()]: from [gidToFind] to
    [dataToFind]. *)
Variable zdd_find : list Z -> list SylinderNearEP.

(** The block of a link whose two ends are known: the head of I is linked
    to the tail of J. *)
Definition linkBlock (kappa_ : R) (gidI_ gidJ_ globalIndexI_ globalIndexJ_ : Z)
    (centerI directionI : Evec3) (lengthI radiusI : R)
    (centerJ directionJ : Evec3) (lengthJ radiusJ : R) : ConstraintBlock :=
  let Pp := vadd centerI (vscale directionI (0.5 * lengthI)) in
  let Qm := vsub centerJ (vscale directionJ (0.5 * lengthJ)) in
  let Ploc := Pp in
  let Qloc := Qm in
  let vecIJ := vsub Ploc Qloc in
  let dist := norm vecIJ in
  let normI_ := vdivs vecIJ dist in
  let normJ_ := vneg normI_ in
  let posI_ := vsub Ploc centerI in
  let posJ_ := vsub Qloc centerJ in
  let sep := dist - (radiusI + radiusJ) * 1.05 in
  let gamma_ := - sep * kappa_ in
  let stressIJ :=
    collideStress directionI directionJ centerI centerJ lengthI lengthJ
                  radiusI radiusJ 1.0 Ploc Qloc in
  setStress
    (ConstraintBlock_ctor sep gamma_ gidI_ gidJ_ globalIndexI_ globalIndexJ_
       normI_ normJ_ posI_ posJ_ Ploc Qloc false kappa_)
    stressIJ.

(** Step 1, one iteration: the link of [syI] to its next sylinder. *)
Definition linkStep1 (kappa_ : R) (container : list Sylinder)
    (index : list (Z * nat)) (syI : Sylinder) : list ConstraintBlock :=
  if Z.eqb (next (link syI)) GEO_INVALID_INDEX then []
  else
    match gid_find index (next (link syI)) with
    | Some j =>
        match nth_error container j with
        | Some syJ =>
            [linkBlock kappa_ (gid syI) (gid syJ)
               (globalIndex syI) (globalIndex syJ)
               (pos syI) (qrotate (orientation syI) ez) (length syI) (radius syI)
               (pos syJ) (qrotate (orientation syJ) ez) (length syJ)
               (radius syJ)]
        | None => []
        end
    | None =>
        [ConstraintBlock_ctor 0 0 (gid syI) (next (link syI))
           (globalIndex syI) GEO_INVALID_INDEX
           (mkEvec3 0 0 1) (mkEvec3 0 0 1) (mkEvec3 0 0 1) (mkEvec3 0 0 1)
           (mkEvec3 0 0 1) (mkEvec3 0 0 1) false ctor_kappa]
    end.

(** Step 1: every thread clears its queue, then runs its iterations. *)
Definition collectLinkBilateral_step1 (runConfig : SylinderConfig)
    (container : list Sylinder) (index : list (Z * nat))
    (cPool : ConstraintBlockPool) : ConstraintBlockPool :=
  omp_for_emit omp_sched (List.length container)
    (at_body container (linkStep1 (linkKappa runConfig) container index))
    (map (fun _ => []) cPool).

Definition gidToFind (cPool : ConstraintBlockPool) : list Z :=
  flat_map
    (fun cQue =>
       flat_map (fun block =>
                   if Z.eqb (globalIndexJ block) GEO_INVALID_INDEX
                   then [gidJ block] else [])
                cQue)
    cPool.

(** Step 2 on one block; [None] is [std::exit(1)], or a read past the end
    of [dataToFind] or of the container. *)
Definition linkStep2_block (kappa_ : R) (container : list Sylinder)
    (index : list (Z * nat)) (dataToFind : list SylinderNearEP)
    (block : ConstraintBlock) (findIndex : nat)
    : option (ConstraintBlock * nat) :=
  if Z.eqb (globalIndexJ block) GEO_INVALID_INDEX then
    match gid_find index (gidI block) with
    | None => None
    | Some iI =>
        match nth_error container iI, nth_error dataToFind findIndex with
        | Some syI, Some syNearJ =>
            if negb (Z.eqb (ep_gid syNearJ) (gidJ block)) then None
            else
              Some (linkBlock kappa_ (gid syI) (ep_gid syNearJ)
                      (globalIndex syI) (ep_globalIndex syNearJ)
                      (pos syI) (qrotate (orientation syI) ez) (length syI)
                      (radius syI)
                      (ep_pos syNearJ) (ep_direction syNearJ)
                      (ep_length syNearJ) (ep_radius syNearJ),
                    S findIndex)
        | _, _ => None
        end
    end
  else Some (block, findIndex).

Fixpoint linkStep2_que (kappa_ : R) (container : list Sylinder)
    (index : list (Z * nat)) (dataToFind : list SylinderNearEP)
    (cQue : ConstraintBlockQue) (findIndex : nat)
    : option (ConstraintBlockQue * nat) :=
  match cQue with
  | [] => Some ([], findIndex)
  | block :: cQue' =>
      match linkStep2_block kappa_ container index dataToFind block
                            findIndex with
      | None => None
      | Some (block', findIndex') =>
          match linkStep2_que kappa_ container index dataToFind cQue'
                              findIndex' with
          | None => None
          | Some (rest, findIndex'') => Some (block' :: rest, findIndex'')
          end
      end
  end.

Fixpoint linkStep2_pool (kappa_ : R) (container : list Sylinder)
    (index : list (Z * nat)) (dataToFind : list SylinderNearEP)
    (cPool : ConstraintBlockPool) (findIndex : nat)
    : option (ConstraintBlockPool * nat) :=
  match cPool with
  | [] => Some ([], findIndex)
  | cQue :: cPool' =>
      match linkStep2_que kappa_ container index dataToFind cQue
                          findIndex with
      | None => None
      | Some (cQue', findIndex') =>
          match linkStep2_pool kappa_ container index dataToFind cPool'
                               findIndex' with
          | None => None
          | Some (rest, findIndex'') => Some (cQue' :: rest, findIndex'')
          end
      end
  end.

Definition collectLinkBilateral (runConfig : SylinderConfig)
    (container : list Sylinder) (index : list (Z * nat))
    (cPool : ConstraintBlockPool) : option ConstraintBlockPool :=
  let kappa_ := linkKappa runConfig in
  let cPool1 := collectLinkBilateral_step1 runConfig container index cPool in
  let dataToFind := zdd_find (gidToFind cPool1) in
  match linkStep2_pool kappa_ container index dataToFind cPool1 0 with
  | Some (cPool2, _) => Some cPool2
  | None => None
  end.

(** The head of I and the tail of J of a link. *)
Definition linkHead (syI : Sylinder) : Evec3 :=
  vadd (pos syI) (vscale (qrotate (orientation syI) ez) (0.5 * length syI)).
Definition linkTail (syJ : Sylinder) : Evec3 :=
  vsub (pos syJ) (vscale (qrotate (orientation syJ) ez) (0.5 * length syJ)).

(** ** updateSylinderMap *)

(** [for (i = 0; i < nLocal; i++)
       sylinderContainer[i].globalIndex = i + globalIndexBase] *)
Definition updateSylinderMap (globalIndexBase : Z) (container : list Sylinder)
    : list Sylinder :=
  map (fun isy : nat * Sylinder =>
         set_globalIndex (snd isy) (int_add (Z.of_nat (fst isy)) globalIndexBase))
      (combine (seq 0 (List.length container)) container).

(** Modelled from the spec: [getTMAPFromLocalSize] of
    [Trilinos/TpetraUtil.hpp] and the map's [getMinGlobalIndex] are
    missing; "bodies carry a globally contiguous globalIndex": the least
    global index of a rank is the number of bodies on the ranks before
    it. *)
Definition getMinGlobalIndex (containers : list (list Sylinder)) (rank : nat)
    : Z :=
  Z.of_nat (list_sum (map (@List.length Sylinder) (firstn rank containers))).

(** [updateSylinderMap] on every rank of the communicator. *)
Definition updateSylinderMap_all (containers : list (list Sylinder))
    : list (list Sylinder) :=
  map (fun rc : nat * list Sylinder =>
         updateSylinderMap (getMinGlobalIndex containers (fst rc)) (snd rc))
      (combine (seq 0 (List.length containers)) containers).

Definition nGlobal (containers : list (list Sylinder)) : nat :=
  list_sum (map (@List.length Sylinder) containers).

(** ** getMaxGid and addNewSylinder *)

Definition maxGidLocal (container : list Sylinder) : Z :=
  fold_left (fun m sy => Z.max m (gid sy)) container 0%Z.

(** [Teuchos::reduceAll] with [MaxValueReductionOp] over the ranks. *)
Definition maxGidGlobal (containers : list (list Sylinder)) : Z :=
  fold_left Z.max (map maxGidLocal containers) 0%Z.

Definition getMaxGid (containers : list (list Sylinder)) (rank : nat)
    : Z * Z :=
  (maxGidLocal (nth rank containers []), maxGidGlobal containers).

(** [std::partial_sum(newNumber.cbegin(), newNumber.cend() - 1,
    displ.begin() + 1)] on a zero-filled [displ]: [acc] is the sum of the
    counts of the ranks already passed. *)
Fixpoint displ_from (acc : nat) (newNumber : list nat) : list nat :=
  match newNumber with
  | [] => []
  | n :: rest => acc :: displ_from (acc + n) rest
  end.
Definition displ (newNumber : list nat) : list nat := displ_from 0 newNumber.

(** [MPI_Scatterv]: rank [r] receives [newNumber[r]] entries of [newID]
    from position [displ[r]] on. *)
Definition scatterv (newID : list Z) (newNumber : list nat) (r : nat)
    : list Z :=
  firstn (nth r newNumber 0%nat) (skipn (nth r (displ newNumber) 0%nat) newID).

(** [newSylinder[i].gid = newIDRecv[i] + 1 + maxGidGlobal] *)
Definition assign_gid (maxGidGlobal_ : Z) (newIDRecv : list Z)
    (newSylinder : list Sylinder) : list Sylinder :=
  map (fun ns : Z * Sylinder =>
         set_gid (snd ns) (int_add (int_add (fst ns) 1) maxGidGlobal_))
      (combine newIDRecv newSylinder).

(** The gid of [newSylinder[k]] for a link end [k]; [None] is an index
    outside [newSylinder]. *)
Definition link_gid (newSylinder : list Sylinder) (k : Z) : option Z :=
  if Z.eqb k GEO_INVALID_INDEX then Some GEO_INVALID_INDEX
  else if Z.ltb k 0 then None
  else match nth_error newSylinder (Z.to_nat k) with
       | Some sy => Some (gid sy)
       | None => None
       end.

Fixpoint set_links (newSylinder : list Sylinder) (todo : list Sylinder)
    (linkage : list Link) : option (list Sylinder) :=
  match todo, linkage with
  | sy :: todo', l :: linkage' =>
      match link_gid newSylinder (prev l), link_gid newSylinder (next l),
            set_links newSylinder todo' linkage' with
      | Some p, Some n, Some rest =>
          Some (set_link sy (mkLink (group l) p n) :: rest)
      | _, _, _ => None
      end
  | _, _ => Some todo
  end.

(** [addNewSylinder] on one rank, after the collective part: [None] is
    [std::exit(1)] or an index outside [newSylinder]. *)
Definition addNewSylinder_rank (maxGidGlobal_ : Z) (newIDRecv : list Z)
    (container newSylinder : list Sylinder) (linkage : list Link)
    : option (list Sylinder) :=
  let newNumberOnLocal := List.length newSylinder in
  let withGid := assign_gid maxGidGlobal_ newIDRecv newSylinder in
  let linked :=
    if Nat.eqb (List.length linkage) newNumberOnLocal then
      set_links withGid withGid linkage
    else if Nat.eqb (List.length linkage) 0 then Some withGid
    else None in
  match linked with
  | Some newSylinder' => Some (container ++ newSylinder')
  | None => None
  end.

(** What one rank passes to [addNewSylinder]. *)
Record AddInput : Type := mkAddInput {
  add_container : list Sylinder;
  add_newSylinder : list Sylinder;
  add_linkage : list Link
}.

(** [addNewSylinder] on all ranks; [newID] is the array of rank 0 after
    [std::iota] and [std::random_shuffle]. *)
Definition addNewSylinder (newID : list Z) (ranks : list AddInput)
    : list (option (list Sylinder)) :=
  let maxGidGlobal_ := maxGidGlobal (map add_container ranks) in
  let newNumber :=
    map (fun inp => List.length (add_newSylinder inp)) ranks in
  map (fun rinp : nat * AddInput =>
         addNewSylinder_rank maxGidGlobal_
           (scatterv newID newNumber (fst rinp))
           (add_container (snd rinp)) (add_newSylinder (snd rinp))
           (add_linkage (snd rinp)))
      (combine (seq 0 (List.length ranks)) ranks).

(** The gids that [addNewSylinder] gives on rank [r]. *)
Definition new_gids (newID : list Z) (ranks : list AddInput) (r : nat)
    : list Z :=
  let maxGidGlobal_ := maxGidGlobal (map add_container ranks) in
  let newNumber :=
    map (fun inp => List.length (add_newSylinder inp)) ranks in
  map gid (assign_gid maxGidGlobal_ (scatterv newID newNumber r)
                      (add_newSylinder (nth r ranks (mkAddInput [] [] [])))).

(** [std::iota(newID.begin(), newID.end(), 0)] *)
Definition iota (n : nat) : list Z := map Z.of_nat (seq 0 n).

(** The calls of the solver among the calls of a step. *)
Definition is_solver_call (c : Call) : bool :=
  match call_kind c with
  | K_setup | K_setControlParams | K_solveConstraints | K_writebackGamma =>
      true
  | _ => false
  end.

(** [called_before] on the kinds of a log, as a function. *)
Fixpoint kinds_before (a b : CallKind) (ks : list CallKind) : bool :=
  match ks with
  | [] => false
  | k :: ks' =>
      (CallKind_eqb k a && existsb (CallKind_eqb b) ks')
      || kinds_before a b ks'
  end.

(** ** Concrete bodies and systems used in the examples *)

Definition q_identity : Equatn := mkEquatn 0 0 0 1.

(** An upright rod of length 2 and radius 1 centred at height 2: above a
    bottom wall at height 0 its lower cap touches the wall. *)
Definition sy_touch : Sylinder :=
  mkSylinder 0 0 1 1 2 2 (mkEvec3 0 0 2) q_identity (mkLink 0 (-1) (-1)) 0.

(** An upright rod of length 2 and radius 1 centred at height 1.5: its
    lower cap is 0.5 below a bottom wall at height 0. *)
Definition sy_sunk : Sylinder :=
  mkSylinder 7 0 1 1 2 2 (mkEvec3 0 0 1.5) q_identity (mkLink 0 (-1) (-1)) 0.

(** A rod as wide as it is long. *)
Definition sy_fat : Sylinder :=
  mkSylinder 0 0 1 1 1 1 (mkEvec3 0 0 5) q_identity (mkLink 0 (-1) (-1)) 0.

(** A slender rod: length 10, radius 1. *)
Definition sy_slender : Sylinder :=
  mkSylinder 0 0 1 1 10 10 (mkEvec3 0 0 5) q_identity (mkLink 0 (-1) (-1)) 0.

(** Two upright rods of length 1 and radius 0.25 on one axis, the head of
    the first at height 5.5 linked to the tail of the second at height
    6.5. *)
Definition sy_linkI : Sylinder :=
  mkSylinder 0 0 0.25 0.25 1 1 (mkEvec3 0 0 5) q_identity (mkLink 0 (-1) 1) 0.
Definition sy_linkJ : Sylinder :=
  mkSylinder 1 1 0.25 0.25 1 1 (mkEvec3 0 0 7) q_identity (mkLink 0 0 (-1)) 0.

Definition cfg_example : SylinderConfig :=
  mkConfig true false (mkEvec3 0 0 0) (mkEvec3 10 10 10) 1 0.01 100
           0.000001 500 0.

Definition sys_linked : SylinderSystem :=
  mkSystem cfg_example [sy_linkI; sy_linkJ] [[]] [[]] [(0%Z, 0%nat); (1%Z, 1%nat)]
           (mkSolver 0 0) [].

(** A near-neighbour pass that finds no pair. *)
Definition calcForceAll_none (container : list Sylinder)
    (uni bi : ConstraintBlockPool)
    : ConstraintBlockPool * ConstraintBlockPool * list R :=
  (uni, bi, map (fun _ => 0) container).

(** A bilateral block as the functor emits it for a link with gap 1, with
    [kappa] unset, and a near-neighbour pass that emits it. *)
Definition block_unset : ConstraintBlock :=
  mkBlock 1 0 0 1 0 1 (mkEvec3 0 0 (-1)) (mkEvec3 0 0 1)
          (mkEvec3 0 0 0.5) (mkEvec3 0 0 (-0.5))
          (mkEvec3 0 0 5.5) (mkEvec3 0 0 6.5) false (-1) mZero.

Definition calcForceAll_link (container : list Sylinder)
    (uni bi : ConstraintBlockPool)
    : ConstraintBlockPool * ConstraintBlockPool * list R :=
  (uni, [[block_unset]], map (fun _ => 0) container).

(** One thread runs every iteration. *)
Definition sched_single (nThreads nLocal i : nat) : nat := O.

(** Two ranks with one sylinder each. *)
Definition containers_two : list (list Sylinder) := [[sy_sunk]; [sy_touch]].

(** Two ranks that add two and one sylinders to containers whose largest
    gid is 7, and a shuffle of the three new ids. *)
Definition ranks_example : list AddInput :=
  [ mkAddInput [sy_sunk] [sy_fat; sy_slender] [];
    mkAddInput [sy_touch] [sy_linkI] [] ].
Definition newID_example : list Z := [2; 0; 1]%Z.

Definition collideStress_zero
    (directionI directionJ centerI centerJ : Evec3)
    (lengthI lengthJ radiusI radiusJ rho : R) (Ploc Qloc : Evec3) : Emat3 :=
  mZero.

Definition zdd_find_none (gids : list Z) : list SylinderNearEP := [].

(** ** setPosWithWall *)

Definition Rleb (a b : R) : bool := if Rle_dec a b then true else false.

Definition set_pos (sy : Sylinder) (p : Evec3) : Sylinder :=
  mkSylinder (gid sy) (globalIndex sy) (radius sy) (radiusCollision sy)
             (length sy) (lengthCollision sy) p (orientation sy) (link sy)
             (sepmin sy).

(** [const double buffer = 1e-4] *)
Definition wall_buffer : R := 0.0001.

(** One iteration of the loop of the bottom wall:
    [Emap3(sy.pos) += Evec3(0, 0, -dist + buffer)]. *)
Definition setPosLow (wallBot : R) (sy : Sylinder) : Sylinder :=
  let Pm := endPm sy in
  let Pp := endPp sy in
  let distm := vget Pm 2 - radius sy - wallBot in
  let distp := vget Pp 2 - radius sy - wallBot in
  if Rltb distm distp && Rltb distm 0 then
    set_pos sy (vadd (pos sy) (mkEvec3 0 0 (- distm + wall_buffer)))
  else if Rleb distp distm && Rltb distp 0 then
    set_pos sy (vadd (pos sy) (mkEvec3 0 0 (- distp + wall_buffer)))
  else sy.

(** One iteration of the loop of the top wall:
    [Emap3(sy.pos) -= Evec3(0, 0, -dist + buffer)]. *)
Definition setPosHigh (wallTop : R) (sy : Sylinder) : Sylinder :=
  let Pm := endPm sy in
  let Pp := endPp sy in
  let distm := wallTop - (vget Pm 2 + radius sy) in
  let distp := wallTop - (vget Pp 2 + radius sy) in
  if Rltb distm distp && Rltb distm 0 then
    set_pos sy (vsub (pos sy) (mkEvec3 0 0 (- distm + wall_buffer)))
  else if Rleb distp distm && Rltb distp 0 then
    set_pos sy (vsub (pos sy) (mkEvec3 0 0 (- distp + wall_buffer)))
  else sy.

Definition setPosWithWall (runConfig : SylinderConfig)
    (sylinderContainer : list Sylinder) : list Sylinder :=
  let container1 :=
    if wallLowZ runConfig then
      map (setPosLow (vget (simBoxLow runConfig) 2)) sylinderContainer
    else sylinderContainer in
  if wallHighZ runConfig then
    map (setPosHigh (vget (simBoxHigh runConfig) 2)) container1
  else container1.

(** The smaller end distance of a rod to each wall, as collectWallCollision
    measures it. *)
Definition lowGap (wallBot : R) (sy : Sylinder) : R :=
  Rmin (wallLow_distm wallBot sy) (wallLow_distp wallBot sy).
Definition highGap (wallTop : R) (sy : Sylinder) : R :=
  Rmin (wallHigh_distm wallTop sy) (wallHigh_distp wallTop sy).

(** The arm of a wall contact: from the centre of the rod to the end that
    is nearer to the wall, zero when both ends are equally near. *)
Definition wallArm (distm distp : R) (sy : Sylinder) : Evec3 :=
  let direction := qrotate (orientation sy) ez in
  if Rlt_dec distm distp then
    vneg (vscale direction (lengthCollision sy * 0.5))
  else if Rlt_dec distp distm then
    vscale direction (lengthCollision sy * 0.5)
  else vzero.

(** What the two loops of setPosWithWall do to one rod. *)
Definition setPosBody (runConfig : SylinderConfig) (sy : Sylinder) : Sylinder :=
  let sy1 :=
    if wallLowZ runConfig then setPosLow (vget (simBoxLow runConfig) 2) sy
    else sy in
  if wallHighZ runConfig then setPosHigh (vget (simBoxHigh runConfig) 2) sy1
  else sy1.

(** ** The mobility operator and calcVelocityNonCon *)

(** Entry [(a, b)] of the 6x6 block diag(MobTrans, MobRot) of one
    sylinder. *)
Definition mobBlock (mu : R) (sy : Sylinder) (a b : nat) : R :=
  if Nat.ltb a 3 && Nat.ltb b 3 then mget (MobTrans mu sy) a b
  else if Nat.leb 3 a && Nat.leb 3 b then mget (MobRot mu sy) (a - 3) (b - 3)
  else 0.

(** [mobilityOperatorRcp->apply(X, Y)]: [Y = A * X] for the sparse matrix
    built by calcMobMatrix, whose rows and columns are both numbered by
    the six degrees of freedom of the local sylinders. *)
Definition crs_apply (m : TCMAT) (x : list R) : list R :=
  map (fun r =>
         fold_right (fun kv acc => snd kv * nth (fst kv) x 0 + acc) 0
                    (crs_row_entries m r))
      (seq 0 (List.length (rowPointers m) - 1)).

(** [this->update(alpha, A, beta)]: [this = alpha * A + beta * this]. *)
Definition vec_update (alpha : R) (A : list R) (beta : R) (this : list R)
    : list R :=
  map (fun p => alpha * fst p + beta * snd p) (combine A this).

(** The vectors that calcVelocityNonCon reads; [None] is a null pointer.
    [setVelocityNonBrown] stores into [velocityPartNonBrown]. *)
Record VelocityInputs : Type := mkVelocityInputs {
  mobilityOperator : option TCMAT;
  forcePartNonBrown : option (list R);
  velocityPartNonBrown : option (list R);
  velocityNonBrown : option (list R);
  velocityBrown : option (list R)
}.

(** [None] is a failed [TEUCHOS_ASSERT] on the size of the argument. *)
Definition setForceNonBrown (nLocal : nat) (vi : VelocityInputs)
    (forceNonBrown : list R) : option VelocityInputs :=
  if Nat.eqb (List.length forceNonBrown) (6 * nLocal) then
    Some (mkVelocityInputs (mobilityOperator vi) (Some forceNonBrown)
            (velocityPartNonBrown vi) (velocityNonBrown vi)
            (velocityBrown vi))
  else None.

Definition setVelocityNonBrown (nLocal : nat) (vi : VelocityInputs)
    (velNonBrown : list R) : option VelocityInputs :=
  if Nat.eqb (List.length velNonBrown) (6 * nLocal) then
    Some (mkVelocityInputs (mobilityOperator vi) (forcePartNonBrown vi)
            (Some velNonBrown) (velocityNonBrown vi) (velocityBrown vi))
  else None.

(** The three entries of a vector from position [k] on. *)
Definition vec3_at (v : list R) (k : nat) : Evec3 :=
  mkEvec3 (nth k v 0) (nth (k + 1) v 0) (nth (k + 2) v 0).

(** calcVelocityNonCon: the vector [velocityNonCon] and, for every local
    sylinder, the [velNonB] and [omegaNonB] written back to it.  [None]
    is the failed assertion that the mobility operator is not null. *)
Definition calcVelocityNonCon (nLocal : nat) (vi : VelocityInputs)
    : option (list R * list (Evec3 * Evec3)) :=
  let zero := repeat 0 (6 * nLocal) in
  let afterForce :=
    match forcePartNonBrown vi with
    | Some force =>
        match mobilityOperator vi with
        | Some mob => Some (crs_apply mob force)
        | None => None
        end
    | None => Some zero
    end in
  match afterForce with
  | None => None
  | Some v1 =>
      let v2 :=
        match velocityNonBrown vi with
        | Some vnb => vec_update 1 vnb 1 v1
        | None => v1
        end in
      let written :=
        map (fun i => (vec3_at v2 (6 * i), vec3_at v2 (6 * i + 3)))
            (seq 0 nLocal) in
      let v3 :=
        match velocityBrown vi with
        | Some vb => vec_update 1 vb 1 v2
        | None => v2
        end in
      Some (v3, written)
  end.

(** The entries of an optional vector, zero for a null pointer. *)
Definition opt_at (v : option (list R)) (k : nat) : R :=
  match v with
  | Some l => nth k l 0
  | None => 0
  end.

Definition ovec3_at (v : option (list R)) (k : nat) : Evec3 :=
  mkEvec3 (opt_at v k) (opt_at v (k + 1)) (opt_at v (k + 2)).

(** ** calcBoundingBox *)

(** [std::numeric_limits<double>::max()], the largest finite double, and
    [std::numeric_limits<double>::min()], the smallest positive normal
    double. *)
Definition DBL_MAX : R := (2 - / 2 ^ 52) * 2 ^ 1023.
Definition DBL_MIN : R := / 2 ^ 1022.

(** The two ends of the rod as calcBoundingBox computes them, from
    [sy.length]. *)
Definition boxPm (sy : Sylinder) : Evec3 :=
  let direction := qrotate (orientation sy) ez in
  vsub (pos sy) (sscale (length sy * 0.5) direction).
Definition boxPp (sy : Sylinder) : Evec3 :=
  let direction := qrotate (orientation sy) ez in
  vadd (pos sy) (sscale (length sy * 0.5) direction).

(** One iteration of the loop over the local rods, on [(lx, ly, lz)] and
    [(hx, hy, hz)]. *)
Definition boxStep (lh : Evec3 * Evec3) (sy : Sylinder) : Evec3 * Evec3 :=
  let pm := boxPm sy in
  let pp := boxPp sy in
  let l := fst lh in
  let h := snd lh in
  (mkEvec3 (Rmin (Rmin (vx l) (vx pm)) (vx pp))
           (Rmin (Rmin (vy l) (vy pm)) (vy pp))
           (Rmin (Rmin (vz l) (vz pm)) (vz pp)),
   mkEvec3 (Rmax (Rmax (vx h) (vx pm)) (vx pp))
           (Rmax (Rmax (vy h) (vy pm)) (vy pp))
           (Rmax (Rmax (vz h) (vz pm)) (vz pp))).

Definition boxLocal (container : list Sylinder) : Evec3 * Evec3 :=
  fold_left boxStep container
    (mkEvec3 DBL_MAX DBL_MAX DBL_MAX, mkEvec3 DBL_MIN DBL_MIN DBL_MIN).

Definition vmin (a b : Evec3) : Evec3 :=
  mkEvec3 (Rmin (vx a) (vx b)) (Rmin (vy a) (vy b)) (Rmin (vz a) (vz b)).
Definition vmax (a b : Evec3) : Evec3 :=
  mkEvec3 (Rmax (vx a) (vx b)) (Rmax (vy a) (vy b)) (Rmax (vz a) (vz b)).

(** The four output arrays of calcBoundingBox. *)
Record BoundingBox : Type := mkBoundingBox {
  localLow : Evec3;
  localHigh : Evec3;
  globalLow : Evec3;
  globalHigh : Evec3
}.

(** calcBoundingBox on rank [rank]: the global arrays start as the local
    ones and are then reduced with min and max over the local arrays of
    all ranks. *)
Definition calcBoundingBox (containers : list (list Sylinder)) (rank : nat)
    : BoundingBox :=
  let locals := map boxLocal containers in
  let mine := boxLocal (nth rank containers []) in
  mkBoundingBox (fst mine) (snd mine)
                (fold_right vmin (fst mine) (map fst locals))
                (fold_right vmax (snd mine) (map snd locals)).

(** ** calcOrderParameter *)

(** [direction * direction.transpose() - Emat3::Identity() * (1 / 3.0)] *)
Definition orderQ (direction : Evec3) : Emat3 :=
  msub (outer direction direction) (mscale (1 / 3) mIdentity).

(** The twelve sums [px .. Qzz] as a vector and a matrix stored by rows,
    which is their order in [pQ]. *)
Definition order_add (a b : Evec3 * Emat3) : Evec3 * Emat3 :=
  (vadd (fst a) (fst b), madd (snd a) (snd b)).

Definition order_term (sy : Sylinder) : Evec3 * Emat3 :=
  let direction := qrotate (orientation sy) ez in
  (direction, orderQ direction).

(** The reduction over the local rods. *)
Definition order_local (container : list Sylinder) : Evec3 * Emat3 :=
  fold_left (fun acc sy => order_add acc (order_term sy)) container
            (vzero, mZero).

(** calcOrderParameter: the local sums, [MPI_Allreduce] with [MPI_SUM]
    over the ranks, and [pQ[i] *= (1.0 / nGlobal)]; the result is what
    rank 0 prints. *)
Definition calcOrderParameter (containers : list (list Sylinder))
    : Evec3 * Emat3 :=
  let nGlobal := nGlobal containers in
  let pQ := fold_left order_add (map order_local containers) (vzero, mZero) in
  (sscale (1 / INR nGlobal) (fst pQ), mscale (1 / INR nGlobal) (snd pQ)).

(** What the sums of [m] rods satisfy: the tensor is symmetric and
    traceless and the vector is no longer than [m]. *)
Definition order_inv (m : nat) (a : Evec3 * Emat3) : Prop :=
  (forall i j, mget (snd a) i j = mget (snd a) j i) /\
  mget (snd a) 0 0 + mget (snd a) 1 1 + mget (snd a) 2 2 = 0 /\
  squaredNorm (fst a) <= INR m * INR m.

(** The sums of [m] rods that all point along [d]. *)
Definition order_aligned (d : Evec3) (m : nat) (a : Evec3 * Emat3) : Prop :=
  fst a = sscale (INR m) d /\ snd a = mscale (INR m) (orderQ d).

(** ** Blocks of a link *)

(** What the solver needs of a bilateral block of a link with spring
    constant [kappa_]. *)
Definition link_fields (kappa_ : R) (b : ConstraintBlock) : Prop :=
  kappa b = kappa_ /\ gamma b = - (kappa_ * delta0 b) /\
  normJ b = vneg (normI b) /\ oneSide b = false.

(** The rods of the rank that have a next link. *)
Definition linkedRods (container : list Sylinder) : list Sylinder :=
  filter (fun sy => negb (Z.eqb (next (link sy)) GEO_INVALID_INDEX)) container.

(** The gids that one queue contributes to [gidToFind]. *)
Definition queToFind (cQue : ConstraintBlockQue) : list Z :=
  flat_map (fun block =>
              if Z.eqb (globalIndexJ block) GEO_INVALID_INDEX
              then [gidJ block] else [])
           cQue.

(** ** Links of new sylinders *)

(** The gid [g] stored for a link end given as the position [k] in
    [newSylinder]: no link stays no link, a position becomes the gid of
    the new sylinder at that position. *)
Definition link_resolved (new : list Sylinder) (k g : Z) : Prop :=
  (k = GEO_INVALID_INDEX /\ g = GEO_INVALID_INDEX) \/
  (k <> GEO_INVALID_INDEX /\ (0 <= k)%Z /\
   exists sj, nth_error new (Z.to_nat k) = Some sj /\ g = gid sj).

(** ** ParticleSystem::calcVelTotalNonCon *)

(** What calcVelTotalNonCon of [ParticleSystem/ParticleSystem.hpp] reads:
    the monolayer flag of the configuration, the number of local elements
    of the mobility map, the mobility operator and the vectors; [None] is
    a null pointer. *)
Record NonConInputs : Type := mkNonConInputs {
  monolayer : bool;
  ptclMobMapSize : nat;
  ptclMobOp : option (list R -> list R);
  forcePartNonCon : option (list R);
  velPartNonCon : option (list R);
  velBrown : option (list R);
  velTotalNonCon : option (list R)
}.

(** What it leaves: the vector, and for every particle its [forceNonCon]
    (when the force part is run) and its [velNonCon]. *)
Record NonConResult : Type := mkNonConResult {
  res_velTotalNonCon : list R;
  res_forceNonCon : option (list (list R));
  res_velNonCon : list (list R)
}.

(** The six entries of particle [i] in a vector. *)
Definition six_at (v : list R) (i : nat) : list R :=
  map (fun j => nth (6 * i + j) v 0) (seq 0 6).

(** One iteration of the monolayer loop. *)
Definition monolayer_step (v : list R) (i : nat) : list R :=
  write (write (write v (6 * i + 2) 0) (6 * i + 3) 0) (6 * i + 4) 0.

(** [this->update(1.0, A, 1.0)] behind the assertion on the length of
    [A]. *)
Definition add_part (nLocal : nat) (A : option (list R)) (this : list R)
    : option (list R) :=
  match A with
  | None => Some this
  | Some a =>
      if Nat.eqb (List.length a) (6 * nLocal)
      then Some (vec_update 1 a 1 this) else None
  end.

(** calcVelTotalNonCon; [None] is a failed [TEUCHOS_ASSERT]. *)
Definition calcVelTotalNonCon (nLocal : nat) (inp : NonConInputs)
    : option NonConResult :=
  if negb (Nat.eqb (ptclMobMapSize inp) (6 * nLocal)) then None
  else
    match velTotalNonCon inp with
    | None => None
    | Some vt =>
        if negb (Nat.eqb (List.length vt) (6 * nLocal)) then None
        else
          let v0 := map (fun _ => 0) vt in
          let step1 :=
            match forcePartNonCon inp with
            | None => Some (v0, None)
            | Some force =>
                match ptclMobOp inp with
                | None => None
                | Some op =>
                    if Nat.eqb (List.length force) (6 * nLocal)
                    then Some (op force,
                               Some (map (six_at force) (seq 0 nLocal)))
                    else None
                end
            end in
          match step1 with
          | None => None
          | Some (v1, forces) =>
              match add_part nLocal (velPartNonCon inp) v1 with
              | None => None
              | Some v2 =>
                  let written := map (six_at v2) (seq 0 nLocal) in
                  match add_part nLocal (velBrown inp) v2 with
                  | None => None
                  | Some v4 =>
                      let v5 :=
                        if monolayer inp
                        then fold_left monolayer_step (seq 0 nLocal) v4
                        else v4 in
                      Some (mkNonConResult v5 forces written)
                  end
              end
          end
    end.

(** Entry [k] of [M_UF F], zero without a force vector. *)
Definition nonConDrive (inp : NonConInputs) (k : nat) : R :=
  match forcePartNonCon inp, ptclMobOp inp with
  | Some force, Some op => nth k (op force) 0
  | _, _ => 0
  end.

(** The directions that a monolayer suppresses: [vz], [wx] and [wy]. *)
Definition out_of_plane (a : nat) : bool :=
  Nat.eqb a 2 || Nat.eqb a 3 || Nat.eqb a 4.

(** The configuration of the examples with both Z walls enabled, at
    heights 0 and 10. *)
Definition cfg_walls : SylinderConfig :=
  mkConfig true true (mkEvec3 0 0 0) (mkEvec3 10 10 10) 1 0.01 100
           0.000001 500 0.

(** A mobility operator, a force of 1 along x and a torque of 1 about z on
    the one slender rod, and no other velocity. *)
Definition vi_example : VelocityInputs :=
  mkVelocityInputs (Some (calcMobMatrix cfg_example [sy_slender]))
                   (Some [1; 0; 0; 0; 0; 1]) None None None.

(** A directory that knows every gid it is asked for, and answers in the
    order of the request. *)
Definition zdd_find_echo (gids : list Z) : list SylinderNearEP :=
  map (fun g => mkNearEP g 5 0.25 1 (mkEvec3 0 0 7) ez) gids.

(** Three new rods given as a chain 0 -> 1 -> 2 by their positions. *)
Definition chain_new : list Sylinder := [sy_fat; sy_slender; sy_touch].
Definition chain_linkage : list Link :=
  [mkLink 4 (-1) 1; mkLink 4 0 2; mkLink 4 1 (-1)].

(** One particle in a monolayer, pushed along x and z by a mobility
    operator that doubles the force, with a Brownian velocity. *)
Definition nonCon_example : NonConInputs :=
  mkNonConInputs true 6 (Some (map (fun x => 2 * x)))
                 (Some [1; 0; 3; 0; 0; 0]) None (Some [0; 0; 5; 0; 0; 7])
                 (Some [9; 9; 9; 9; 9; 9]).

(** A solver whose solution is the initial guess: writebackGamma leaves
    the blocks as they are. *)
Definition writebackGamma_kept (sys : SylinderSystem)
    : ConstraintBlockPool * ConstraintBlockPool :=
  (uniConstraint sys, biConstraint sys).

(** [sylinderGidIndex] as SylinderSystem.cpp leaves it: the map is never
    written, the loop of prepareStep that would insert the local gids
    being commented out. *)
Definition sylinderGidIndex_unfilled : list (Z * nat) := [].

(** ** Basic facts *)

Lemma Rltb_true (a b : R) : Rltb a b = true <-> a < b.
Proof.
  unfold Rltb. destruct (Rlt_dec a b); split; intros; auto; discriminate.
Qed.

Lemma Rltb_false (a b : R) : Rltb a b = false <-> b <= a.
Proof.
  unfold Rltb. destruct (Rlt_dec a b); split; intros; auto; try discriminate; lra.
Qed.

Lemma Reqb_true (a b : R) : Reqb a b = true <-> a = b.
Proof.
  unfold Reqb. destruct (Req_dec_T a b); split; intros; auto; discriminate.
Qed.

Lemma int_wrap_id (z : Z) : in_int z -> int_wrap z = z.
Proof.
  unfold in_int, INT_MIN, INT_MAX, int_wrap. intros H.
  rewrite Z.mod_small; lia.
Qed.

Lemma int_add_exact (a b : Z) : in_int (a + b) -> int_add a b = (a + b)%Z.
Proof. apply int_wrap_id. Qed.

Lemma squaredNorm_nonneg (v : Evec3) : 0 <= squaredNorm v.
Proof. unfold squaredNorm, vdot. nra. Qed.

Lemma nth_error_Some_lt {A : Type} (l : list A) (n : nat) (x : A) :
  nth_error l n = Some x -> (n < List.length l)%nat.
Proof. intros H. apply nth_error_Some. congruence. Qed.

Example int_add_wraps : int_add INT_MAX 1 = INT_MIN.
Proof. reflexivity. Qed.

Example thread_iters_round_robin :
  thread_iters (fun nThreads _ i => Nat.modulo i nThreads) 3 8 1 =
  [1; 4; 7]%nat.
Proof. reflexivity. Qed.

Example displ_four_ranks : displ [2; 0; 3; 1]%nat = [0; 2; 2; 5]%nat.
Proof. reflexivity. Qed.

Example scatterv_third_rank :
  scatterv [10; 11; 12; 13; 14; 15]%Z [2; 0; 3; 1]%nat 2 = [12; 13; 14]%Z.
Proof. reflexivity. Qed.

Example mob_rowPointers_one_body :
  mob_rowPointers 6 = [0; 3; 6; 9; 12; 15; 18]%nat.
Proof. reflexivity. Qed.

(** ** The queues after a work-shared loop *)

Lemma omp_for_emit_length (nLocal : nat) (body : nat -> list ConstraintBlock)
    (pool : ConstraintBlockPool) :
  List.length (omp_for_emit omp_sched nLocal body pool) = List.length pool.
Proof.
  unfold omp_for_emit.
  rewrite length_map, length_combine, length_seq. apply Nat.min_id.
Qed.

Lemma omp_for_emit_nth (nLocal : nat) (body : nat -> list ConstraintBlock)
    (pool : ConstraintBlockPool) (t : nat) :
  (t < List.length pool)%nat ->
  nth t (omp_for_emit omp_sched nLocal body pool) [] =
  nth t pool [] ++
  flat_map body (thread_iters omp_sched (List.length pool) nLocal t).
Proof.
  intros Ht. unfold omp_for_emit.
  set (f := fun tq : nat * ConstraintBlockQue => _).
  rewrite (nth_indep _ [] (f (O, []))).
  2:{ rewrite length_map, length_combine, length_seq. lia. }
  rewrite map_nth, combine_nth by (now rewrite length_seq).
  rewrite seq_nth by exact Ht. subst f. reflexivity.
Qed.

Lemma collectWallCollision_length (cfg : SylinderConfig)
    (container : list Sylinder) (pool : ConstraintBlockPool) :
  List.length (collectWallCollision cfg container pool) = List.length pool.
Proof.
  unfold collectWallCollision.
  destruct (wallLowZ cfg), (wallHighZ cfg);
    repeat rewrite omp_for_emit_length; reflexivity.
Qed.

Lemma collectWallCollision_nth (cfg : SylinderConfig)
    (container : list Sylinder) (pool : ConstraintBlockPool) (t : nat) :
  (t < List.length pool)%nat ->
  nth t (collectWallCollision cfg container pool) [] =
  nth t pool [] ++ wallAppended cfg container (List.length pool) t.
Proof.
  intros Ht. unfold collectWallCollision, wallAppended.
  destruct (wallLowZ cfg), (wallHighZ cfg); cbv zeta.
  - rewrite omp_for_emit_nth by (rewrite omp_for_emit_length; exact Ht).
    rewrite omp_for_emit_nth by exact Ht.
    rewrite omp_for_emit_length, <- app_assoc. reflexivity.
  - rewrite omp_for_emit_nth by exact Ht. now rewrite app_nil_r.
  - rewrite omp_for_emit_nth by exact Ht. reflexivity.
  - now rewrite !app_nil_r.
Qed.

(** ** The choice of the wall contact *)

Lemma wallSelect_hit (Pm Pp : Evec3) (distm distp : R) :
  Rmin distm distp < 0 ->
  wallSelect Pm Pp distm distp =
  Some (spec_contactPoint Pm Pp distm distp, Rmin distm distp).
Proof.
  intros H. unfold wallSelect, spec_contactPoint, Rgtb.
  unfold Rmin in *.
  destruct (Rle_dec distm distp) as [Hle | Hgt].
  - destruct (Rlt_dec distm distp) as [Hlt | Hnlt].
    + rewrite (proj2 (Rltb_true distm distp) Hlt).
      rewrite (proj2 (Rltb_true distm 0) H). reflexivity.
    + assert (distm = distp) by lra. subst distp.
      rewrite (proj2 (Rltb_false distm distm)) by lra. simpl.
      rewrite (proj2 (Reqb_true distm distm) eq_refl).
      rewrite (proj2 (Rltb_true distm 0) H). simpl.
      destruct (Rlt_dec distm distm); [lra | reflexivity].
  - assert (Hlt : distp < distm) by lra.
    rewrite (proj2 (Rltb_false distm distp)) by lra. simpl.
    rewrite (proj2 (Rltb_true distp distm) Hlt).
    rewrite (proj2 (Rltb_true distp 0) H). simpl.
    destruct (Rlt_dec distm distp); [lra |].
    destruct (Rlt_dec distp distm); [reflexivity | lra].
Qed.

Lemma wallSelect_miss (Pm Pp : Evec3) (distm distp : R) :
  0 <= Rmin distm distp -> wallSelect Pm Pp distm distp = None.
Proof.
  intros H. unfold wallSelect, Rgtb.
  assert (Hm : 0 <= distm) by (pose proof (Rmin_l distm distp); lra).
  assert (Hp : 0 <= distp) by (pose proof (Rmin_r distm distp); lra).
  rewrite (proj2 (Rltb_false distm 0) Hm), (proj2 (Rltb_false distp 0) Hp).
  now rewrite !andb_false_r.
Qed.

Lemma wallLowBlock_hit (wallBot : R) (sy : Sylinder) :
  Rmin (wallLow_distm wallBot sy) (wallLow_distp wallBot sy) < 0 ->
  exists b,
    wallLowBlock wallBot sy = [b] /\
    oneSide b = true /\
    delta0 b = Rmin (wallLow_distm wallBot sy) (wallLow_distp wallBot sy) /\
    gamma b = - delta0 b /\
    labI b = spec_contactPoint (endPm sy) (endPp sy)
               (wallLow_distm wallBot sy) (wallLow_distp wallBot sy) /\
    posI b = vsub (labI b) (pos sy) /\
    normI b = mkEvec3 0 0 1 /\ normJ b = mkEvec3 0 0 0 /\
    gidI b = gid sy /\ gidJ b = int_add (gid sy) 1 /\
    globalIndexI b = globalIndex sy /\
    globalIndexJ b = int_add (globalIndex sy) 1.
Proof.
  intros H. unfold wallLowBlock. rewrite (wallSelect_hit _ _ _ _ H).
  eexists. split; [reflexivity |]. cbn. repeat split; reflexivity.
Qed.

Lemma wallLowBlock_miss (wallBot : R) (sy : Sylinder) :
  0 <= Rmin (wallLow_distm wallBot sy) (wallLow_distp wallBot sy) ->
  wallLowBlock wallBot sy = [].
Proof.
  intros H. unfold wallLowBlock. now rewrite (wallSelect_miss _ _ _ _ H).
Qed.

Lemma wallHighBlock_hit (wallTop : R) (sy : Sylinder) :
  Rmin (wallHigh_distm wallTop sy) (wallHigh_distp wallTop sy) < 0 ->
  exists b,
    wallHighBlock wallTop sy = [b] /\
    oneSide b = true /\
    delta0 b = Rmin (wallHigh_distm wallTop sy) (wallHigh_distp wallTop sy) /\
    gamma b = - delta0 b /\
    labI b = spec_contactPoint (endPm sy) (endPp sy)
               (wallHigh_distm wallTop sy) (wallHigh_distp wallTop sy) /\
    posI b = vsub (labI b) (pos sy) /\
    normI b = mkEvec3 0 0 (-1) /\ normJ b = mkEvec3 0 0 0 /\
    gidI b = gid sy /\ gidJ b = int_add (gid sy) 1 /\
    globalIndexI b = globalIndex sy /\
    globalIndexJ b = int_add (globalIndex sy) 1.
Proof.
  intros H. unfold wallHighBlock. rewrite (wallSelect_hit _ _ _ _ H).
  eexists. split; [reflexivity |]. cbn. repeat split; reflexivity.
Qed.

Lemma wallHighBlock_miss (wallTop : R) (sy : Sylinder) :
  0 <= Rmin (wallHigh_distm wallTop sy) (wallHigh_distp wallTop sy) ->
  wallHighBlock wallTop sy = [].
Proof.
  intros H. unfold wallHighBlock. now rewrite (wallSelect_miss _ _ _ _ H).
Qed.

(** Every block that a call appends comes from one local sylinder and one
    enabled wall. *)
Lemma wallAppended_In (cfg : SylinderConfig) (container : list Sylinder)
    (nThreads t : nat) (b : ConstraintBlock) :
  In b (wallAppended cfg container nThreads t) ->
  exists i sy,
    nth_error container i = Some sy /\
    omp_sched nThreads (List.length container) i = t /\
    ((wallLowZ cfg = true /\
      In b (wallLowBlock (vget (simBoxLow cfg) 2) sy)) \/
     (wallHighZ cfg = true /\
      In b (wallHighBlock (vget (simBoxHigh cfg) 2) sy))).
Proof.
  unfold wallAppended. intros H. apply in_app_or in H.
  destruct H as [H | H].
  - destruct (wallLowZ cfg); [| contradiction].
    apply in_flat_map in H. destruct H as [i [Hi Hb]].
    unfold thread_iters in Hi. apply filter_In in Hi. destruct Hi as [_ Hs].
    apply Nat.eqb_eq in Hs. unfold at_body in Hb.
    destruct (nth_error container i) as [sy |] eqn:E; [| contradiction].
    exists i, sy. auto.
  - destruct (wallHighZ cfg); [| contradiction].
    apply in_flat_map in H. destruct H as [i [Hi Hb]].
    unfold thread_iters in Hi. apply filter_In in Hi. destruct Hi as [_ Hs].
    apply Nat.eqb_eq in Hs. unfold at_body in Hb.
    destruct (nth_error container i) as [sy |] eqn:E; [| contradiction].
    exists i, sy. auto.
Qed.

(** C4 (amended).  For each enabled Z wall and every rod,
    collectWallCollision appends to the queue of the rod's thread what the
    wall loop emits for the rod: one block when the smaller of the two end
    distances is strictly negative, nothing otherwise.  The block is
    oneSide, its contact point is the end with the smaller distance (the
    middle of the segment when both are equal), delta0 is that distance,
    normJ is zero and normI is +z for the bottom wall and -z for the top
    wall. *)
Theorem collectWallCollision_blocks (cfg : SylinderConfig)
    (container : list Sylinder) (pool : ConstraintBlockPool) (t : nat) :
  (t < List.length pool)%nat ->
  nth t (collectWallCollision cfg container pool) [] =
    nth t pool [] ++
    (if wallLowZ cfg then
       flat_map (at_body container (wallLowBlock (vget (simBoxLow cfg) 2)))
                (thread_iters omp_sched (List.length pool)
                              (List.length container) t)
     else []) ++
    (if wallHighZ cfg then
       flat_map (at_body container (wallHighBlock (vget (simBoxHigh cfg) 2)))
                (thread_iters omp_sched (List.length pool)
                              (List.length container) t)
     else []) /\
  forall (wall : R) (sy : Sylinder),
    let Pm := endPm sy in
    let Pp := endPp sy in
    (let distm := vget Pm 2 - wall - radius sy in
     let distp := vget Pp 2 - wall - radius sy in
     (Rmin distm distp < 0 ->
      exists b, wallLowBlock wall sy = [b] /\
        oneSide b = true /\ delta0 b = Rmin distm distp /\
        labI b = spec_contactPoint Pm Pp distm distp /\
        normI b = mkEvec3 0 0 1 /\ normJ b = mkEvec3 0 0 0) /\
     (0 <= Rmin distm distp -> wallLowBlock wall sy = [])) /\
    (let distm := wall - vget Pm 2 - radius sy in
     let distp := wall - vget Pp 2 - radius sy in
     (Rmin distm distp < 0 ->
      exists b, wallHighBlock wall sy = [b] /\
        oneSide b = true /\ delta0 b = Rmin distm distp /\
        labI b = spec_contactPoint Pm Pp distm distp /\
        normI b = mkEvec3 0 0 (-1) /\ normJ b = mkEvec3 0 0 0) /\
     (0 <= Rmin distm distp -> wallHighBlock wall sy = [])).
Proof.
  intros Ht. split.
  - rewrite (collectWallCollision_nth cfg container pool t Ht). reflexivity.
  - intros wall sy Pm Pp. split; cbv zeta; split.
    + intros H. destruct (wallLowBlock_hit wall sy H)
        as [b [E [H1 [H2 [_ [H4 [_ [H6 [H7 _]]]]]]]]].
      exists b. repeat split; assumption.
    + apply wallLowBlock_miss.
    + intros H. destruct (wallHighBlock_hit wall sy H)
        as [b [E [H1 [H2 [_ [H4 [_ [H6 [H7 _]]]]]]]]].
      exists b. repeat split; assumption.
    + apply wallHighBlock_miss.
Qed.

(** C8.  A second call of collectWallCollision on the same bodies and wall
    settings appends to every queue the sequence of blocks that the first
    call appended: the appended sequence depends on the configuration, the
    bodies and the team size only, not on what the queues hold. *)
Theorem collectWallCollision_repeatable (cfg : SylinderConfig)
    (container : list Sylinder) (pool : ConstraintBlockPool) (t : nat) :
  (t < List.length pool)%nat ->
  let pool1 := collectWallCollision cfg container pool in
  let pool2 := collectWallCollision cfg container pool1 in
  let appended := wallAppended cfg container (List.length pool) t in
  nth t pool1 [] = nth t pool [] ++ appended /\
  nth t pool2 [] = nth t pool1 [] ++ appended /\
  List.length pool1 = List.length pool /\
  List.length pool2 = List.length pool.
Proof.
  intros Ht pool1 pool2 appended. subst pool1 pool2 appended.
  repeat split.
  - apply collectWallCollision_nth; exact Ht.
  - rewrite collectWallCollision_nth
      by (rewrite collectWallCollision_length; exact Ht).
    now rewrite collectWallCollision_length.
  - apply collectWallCollision_length.
  - now rewrite !collectWallCollision_length.
Qed.

(** ** Global indices after updateSylinderMap *)

Lemma updateSylinderMap_In (base : Z) (container : list Sylinder)
    (sy : Sylinder) :
  In sy (updateSylinderMap base container) ->
  exists i sy0,
    nth_error container i = Some sy0 /\
    sy = set_globalIndex sy0 (int_add (Z.of_nat i) base).
Proof.
  unfold updateSylinderMap. intros H. apply in_map_iff in H.
  destruct H as [[i sy0] [E H]]. cbn in E.
  apply (In_nth_error) in H. destruct H as [k Hk].
  assert (Hlen : (k < List.length container)%nat).
  { apply nth_error_Some_lt in Hk.
    rewrite length_combine, length_seq, Nat.min_id in Hk. exact Hk. }
  pose proof (nth_error_nth _ _ (O, sy0) Hk) as Hn.
  rewrite combine_nth in Hn by (now rewrite length_seq).
  rewrite seq_nth in Hn by exact Hlen. cbn in Hn.
  injection Hn as Hi Hs. subst i.
  exists k, sy0. split; [| now symmetry].
  rewrite <- Hs. apply nth_error_nth'. exact Hlen.
Qed.

Lemma updateSylinderMap_at (base : Z) (container : list Sylinder) (i : nat)
    (sy0 : Sylinder) :
  nth_error container i = Some sy0 ->
  In (set_globalIndex sy0 (int_add (Z.of_nat i) base))
     (updateSylinderMap base container).
Proof.
  intros H. unfold updateSylinderMap. apply in_map_iff.
  exists (i, sy0). split; [reflexivity |].
  assert (Hlen : (i < List.length container)%nat)
    by (apply nth_error_Some_lt in H; exact H).
  assert (E : (i, sy0) =
              nth i (combine (seq 0 (List.length container)) container)
                  (O, sy0)).
  { rewrite combine_nth by (now rewrite length_seq).
    rewrite seq_nth by exact Hlen. cbn.
    now rewrite (nth_error_nth _ _ sy0 H). }
  rewrite E. apply nth_In.
  rewrite length_combine, length_seq, Nat.min_id. exact Hlen.
Qed.

Lemma updateSylinderMap_all_In (containers : list (list Sylinder))
    (c : list Sylinder) :
  In c (updateSylinderMap_all containers) <->
  exists r c0,
    nth_error containers r = Some c0 /\
    c = updateSylinderMap (getMinGlobalIndex containers r) c0.
Proof.
  unfold updateSylinderMap_all. rewrite in_map_iff. split.
  - intros [[r c0] [E H]]. cbn in E.
    apply In_nth_error in H. destruct H as [k Hk].
    assert (Hlen : (k < List.length containers)%nat).
    { apply nth_error_Some_lt in Hk.
      rewrite length_combine, length_seq, Nat.min_id in Hk. exact Hk. }
    pose proof (nth_error_nth _ _ (O, c0) Hk) as Hn.
    rewrite combine_nth in Hn by (now rewrite length_seq).
    rewrite seq_nth in Hn by exact Hlen. cbn in Hn.
    injection Hn as Hi Hs. subst r.
    exists k, c0. split; [| now symmetry].
    rewrite <- Hs. apply nth_error_nth'. exact Hlen.
  - intros [r [c0 [H E]]]. exists (r, c0). split; [now symmetry |].
    assert (Hlen : (r < List.length containers)%nat)
      by (apply nth_error_Some_lt in H; exact H).
    assert (E' : (r, c0) =
                nth r (combine (seq 0 (List.length containers)) containers)
                    (O, c0)).
    { rewrite combine_nth by (now rewrite length_seq).
      rewrite seq_nth by exact Hlen. cbn.
      now rewrite (nth_error_nth _ _ c0 H). }
    rewrite E'. apply nth_In.
    rewrite length_combine, length_seq, Nat.min_id. exact Hlen.
Qed.

Lemma updateSylinderMap_all_nth (containers : list (list Sylinder)) (r : nat) :
  nth r (updateSylinderMap_all containers) [] =
  updateSylinderMap (getMinGlobalIndex containers r) (nth r containers []).
Proof.
  destruct (Nat.lt_ge_cases r (List.length containers)) as [Hlt | Hge].
  - unfold updateSylinderMap_all.
    set (f := fun rc : nat * list Sylinder => _).
    rewrite (nth_indep _ [] (f (O, []))).
    2:{ rewrite length_map, length_combine, length_seq. lia. }
    rewrite map_nth, combine_nth by (now rewrite length_seq).
    rewrite seq_nth by exact Hlt. subst f. reflexivity.
  - rewrite !nth_overflow; [reflexivity | exact Hge |].
    unfold updateSylinderMap_all.
    rewrite length_map, length_combine, length_seq. lia.
Qed.

(** The ranks own consecutive ranges of global indices. *)
Lemma rank_range_le (containers : list (list Sylinder)) (r : nat)
    (c0 : list Sylinder) :
  nth_error containers r = Some c0 ->
  (list_sum (map (@List.length Sylinder) (firstn r containers)) +
   List.length c0 <= nGlobal containers)%nat.
Proof.
  unfold nGlobal, list_sum. revert r.
  induction containers as [| c cs IH]; intros r H.
  - destruct r; discriminate.
  - destruct r as [| r]; cbn [nth_error firstn map list_sum fold_right] in *.
    + injection H as ->. cbn. lia.
    + specialize (IH r H). cbn [List.length]. lia.
Qed.

Lemma rank_range_cover (containers : list (list Sylinder)) (g : nat) :
  (g < nGlobal containers)%nat ->
  exists r c0 i,
    nth_error containers r = Some c0 /\ (i < List.length c0)%nat /\
    g = (list_sum (map (@List.length Sylinder) (firstn r containers)) + i)%nat.
Proof.
  unfold nGlobal, list_sum. revert g.
  induction containers as [| c cs IH]; intros g H.
  - cbn in H. lia.
  - cbn [map list_sum fold_right] in H.
    destruct (Nat.lt_ge_cases g (List.length c)) as [Hlt | Hge].
    + exists O, c, g. cbn. auto.
    + destruct (IH (g - List.length c)%nat) as [r [c0 [i [H1 [H2 H3]]]]];
        [lia |].
      exists (S r), c0, i.
      cbn [nth_error firstn map list_sum fold_right].
      repeat split; auto. lia.
Qed.

(** After updateSylinderMap on all ranks, with at most INT_MAX bodies, the
    global indices are the numbers below the global body count. *)
Lemma globalIndex_range (containers0 : list (list Sylinder))
    (c : list Sylinder) (sy : Sylinder) :
  (Z.of_nat (nGlobal containers0) <= INT_MAX)%Z ->
  In c (updateSylinderMap_all containers0) -> In sy c ->
  (0 <= globalIndex sy < Z.of_nat (nGlobal containers0))%Z.
Proof.
  intros HN Hc Hsy. apply updateSylinderMap_all_In in Hc.
  destruct Hc as [r [c0 [Hr ->]]].
  apply updateSylinderMap_In in Hsy. destruct Hsy as [i [sy0 [Hi ->]]].
  cbn. pose proof (rank_range_le _ _ _ Hr) as Hle.
  apply nth_error_Some_lt in Hi.
  unfold getMinGlobalIndex. rewrite int_add_exact.
  - lia.
  - unfold in_int, INT_MIN, INT_MAX in *. lia.
Qed.

Lemma globalIndex_cover (containers0 : list (list Sylinder)) (g : Z) :
  (Z.of_nat (nGlobal containers0) <= INT_MAX)%Z ->
  (0 <= g < Z.of_nat (nGlobal containers0))%Z ->
  exists c sy,
    In c (updateSylinderMap_all containers0) /\ In sy c /\ globalIndex sy = g.
Proof.
  intros HN Hg.
  destruct (rank_range_cover containers0 (Z.to_nat g)) as
    [r [c0 [i [Hr [Hi E]]]]]; [lia |].
  destruct (nth_error c0 i) as [sy0 |] eqn:Hsy0.
  2:{ apply nth_error_None in Hsy0. lia. }
  exists (updateSylinderMap (getMinGlobalIndex containers0 r) c0).
  exists (set_globalIndex sy0
            (int_add (Z.of_nat i) (getMinGlobalIndex containers0 r))).
  split; [| split].
  - apply updateSylinderMap_all_In. exists r, c0. auto.
  - apply updateSylinderMap_at. exact Hsy0.
  - cbn. unfold getMinGlobalIndex. rewrite int_add_exact.
    + lia.
    + unfold in_int, INT_MIN, INT_MAX in *. lia.
Qed.

(** The fields that both wall loops give to a block. *)
Lemma wallBlock_fields (wall : R) (sy : Sylinder) (b : ConstraintBlock) :
  In b (wallLowBlock wall sy) \/ In b (wallHighBlock wall sy) ->
  oneSide b = true /\ gamma b = - delta0 b /\
  gidI b = gid sy /\ gidJ b = int_add (gid sy) 1 /\
  globalIndexI b = globalIndex sy /\
  globalIndexJ b = int_add (globalIndex sy) 1 /\
  normJ b = mkEvec3 0 0 0 /\ kappa b = ctor_kappa.
Proof.
  intros [H | H].
  - unfold wallLowBlock in H.
    destruct (wallSelect _ _ _ _) as [[colLoc phi0] |]; [| contradiction].
    destruct H as [<- | []]. cbn. repeat split; reflexivity.
  - unfold wallHighBlock in H.
    destruct (wallSelect _ _ _ _) as [[colLoc phi0] |]; [| contradiction].
    destruct H as [<- | []]. cbn. repeat split; reflexivity.
Qed.

(** C9.  Every block that collectWallCollision appends records the fake
    body J as gidJ = gidI + 1 and globalIndexJ = globalIndexI + 1 with
    oneSide = true.  With the global indices given by updateSylinderMap on
    all ranks, the recorded globalIndexJ is the index of no body when I
    holds the largest global index, and the index of another body
    otherwise. *)
Theorem wall_block_fake_body (cfg : SylinderConfig)
    (containers0 : list (list Sylinder)) (r nThreads t : nat)
    (b : ConstraintBlock) :
  let containers := updateSylinderMap_all containers0 in
  let N := Z.of_nat (nGlobal containers0) in
  (N <= INT_MAX)%Z ->
  (forall c sy, In c containers -> In sy c ->
                (INT_MIN <= gid sy < INT_MAX)%Z) ->
  In b (wallAppended cfg (nth r containers []) nThreads t) ->
  exists sy,
    In sy (nth r containers []) /\
    gidI b = gid sy /\ globalIndexI b = globalIndex sy /\
    gidJ b = (gidI b + 1)%Z /\
    globalIndexJ b = (globalIndexI b + 1)%Z /\
    oneSide b = true /\
    (forall c sy', In c containers -> In sy' c ->
                   (0 <= globalIndex sy' <= N - 1)%Z) /\
    (globalIndexI b = (N - 1)%Z ->
     forall c sy', In c containers -> In sy' c ->
                   globalIndex sy' <> globalIndexJ b) /\
    (globalIndexI b <> (N - 1)%Z ->
     exists c sy', In c containers /\ In sy' c /\
                   globalIndex sy' = globalIndexJ b /\
                   globalIndex sy' <> globalIndex sy).
Proof.
  intros containers N HN Hgid Hb.
  apply wallAppended_In in Hb. destruct Hb as [i [sy [Hi [_ Hb]]]].
  assert (Hfields :
    oneSide b = true /\ gamma b = - delta0 b /\
    gidI b = gid sy /\ gidJ b = int_add (gid sy) 1 /\
    globalIndexI b = globalIndex sy /\
    globalIndexJ b = int_add (globalIndex sy) 1 /\
    normJ b = mkEvec3 0 0 0 /\ kappa b = ctor_kappa).
  { destruct Hb as [[_ Hb] | [_ Hb]].
    - apply (wallBlock_fields (vget (simBoxLow cfg) 2)). now left.
    - apply (wallBlock_fields (vget (simBoxHigh cfg) 2)). now right. }
  destruct Hfields as [F1 [_ [F3 [F4 [F5 [F6 _]]]]]].
  assert (Hsy : In sy (nth r containers [])) by (eapply nth_error_In; eauto).
  assert (Hc : In (nth r containers []) containers).
  { destruct (Nat.lt_ge_cases r (List.length containers)) as [Hlt | Hge].
    - now apply nth_In.
    - rewrite nth_overflow in Hsy by exact Hge. contradiction. }
  pose proof (globalIndex_range containers0 _ _ HN Hc Hsy) as Hrange.
  pose proof (Hgid _ _ Hc Hsy) as Hg.
  assert (EJ : globalIndexJ b = (globalIndex sy + 1)%Z).
  { rewrite F6. apply int_add_exact.
    unfold in_int, INT_MIN, INT_MAX in *. fold N in Hrange. lia. }
  assert (EG : gidJ b = (gid sy + 1)%Z).
  { rewrite F4. apply int_add_exact.
    unfold in_int, INT_MIN, INT_MAX in *. lia. }
  exists sy. rewrite F3, F5. repeat split; try assumption.
  - pose proof (globalIndex_range containers0 _ _ HN H H0). lia.
  - pose proof (globalIndex_range containers0 _ _ HN H H0). fold N in H1. lia.
  - intros Hlast c sy' Hc' Hsy'.
    pose proof (globalIndex_range containers0 _ _ HN Hc' Hsy') as Hr'.
    fold N in Hr'. lia.
  - intros Hnot.
    destruct (globalIndex_cover containers0 (globalIndex sy + 1) HN)
      as [c [sy' [Hc' [Hsy' E]]]].
    { fold N. fold N in Hrange. lia. }
    exists c, sy'. repeat split; try assumption; lia.
Qed.

(** ** Array writes *)

Lemma write_length {A : Type} (l : list A) (k : nat) (v : A) :
  List.length (write l k v) = List.length l.
Proof.
  revert k. induction l as [| x l IH]; intros [| k]; cbn; auto.
Qed.

Lemma write_nth_same {A : Type} (l : list A) (k : nat) (v d : A) :
  (k < List.length l)%nat -> nth k (write l k v) d = v.
Proof.
  revert k. induction l as [| x l IH]; intros [| k] H; cbn in *;
    try lia; auto. apply IH. lia.
Qed.

Lemma write_nth_other {A : Type} (l : list A) (k p : nat) (v d : A) :
  p <> k -> nth p (write l k v) d = nth p l d.
Proof.
  revert k p. induction l as [| x l IH]; intros [| k] [| p] H; cbn;
    try reflexivity; try lia. apply IH. lia.
Qed.

Lemma write_at_length {A : Type} (vs l : list A) (base : nat) :
  List.length (write_at l base vs) = List.length l.
Proof.
  revert l base. induction vs as [| v vs IH]; intros l base; cbn; auto.
  rewrite IH. apply write_length.
Qed.

Lemma write_at_nth_out {A : Type} (vs l : list A) (base p : nat) (d : A) :
  (p < base \/ base + List.length vs <= p)%nat ->
  nth p (write_at l base vs) d = nth p l d.
Proof.
  revert l base. induction vs as [| v vs IH]; intros l base H; cbn in *; auto.
  rewrite IH by lia. apply write_nth_other. lia.
Qed.

Lemma write_at_nth_in {A : Type} (vs l : list A) (base k : nat) (d : A) :
  (base + List.length vs <= List.length l)%nat ->
  (k < List.length vs)%nat ->
  nth (base + k) (write_at l base vs) d = nth k vs d.
Proof.
  revert l base k. induction vs as [| v vs IH]; intros l base k Hl Hk;
    cbn in *; [lia |].
  destruct k as [| k].
  - rewrite write_at_nth_out by lia. rewrite Nat.add_0_r.
    apply write_nth_same. lia.
  - replace (base + S k)%nat with (S base + k)%nat by lia.
    apply IH; [rewrite write_length |]; lia.
Qed.

(** ** The arrays of calcMobMatrix *)

Lemma fill_rowPointers_spec (k i : nat) (rp : list nat) :
  (1 <= i)%nat -> (i + k <= List.length rp)%nat ->
  (forall j, (j < i)%nat -> nth j rp 0%nat = (3 * j)%nat) ->
  forall j, (j < i + k)%nat ->
            nth j (fill_rowPointers k i rp) 0%nat = (3 * j)%nat.
Proof.
  revert i rp. induction k as [| k IH]; intros i rp Hi Hlen Hinv j Hj; cbn.
  - apply Hinv. lia.
  - apply IH; try lia.
    + rewrite write_length. lia.
    + intros j' Hj'. destruct (Nat.eq_dec j' i) as [-> | Hne].
      * rewrite write_nth_same by lia. rewrite Hinv by lia. lia.
      * rewrite write_nth_other by exact Hne. apply Hinv. lia.
Qed.

Lemma mob_rowPointers_nth (localSize j : nat) :
  (j <= localSize)%nat -> nth j (mob_rowPointers localSize) 0%nat = (3 * j)%nat.
Proof.
  intros H. unfold mob_rowPointers.
  apply fill_rowPointers_spec; try lia.
  - rewrite write_length, repeat_length. lia.
  - intros j' Hj'. assert (j' = O) by lia. subst j'.
    rewrite write_nth_same; [reflexivity | rewrite repeat_length; lia].
Qed.

Lemma mobColumns_length (i : nat) : List.length (mobColumns i) = 18%nat.
Proof. reflexivity. Qed.

Lemma mobValues_length (mu : R) (sy : Sylinder) :
  List.length (mobValues mu sy) = 18%nat.
Proof. reflexivity. Qed.

Lemma mob_fold_spec (mu : R) (container : list Sylinder) (n : nat)
    (c0 : list nat) (v0 : list R) :
  (n <= List.length container)%nat ->
  (18 * List.length container <= List.length c0)%nat ->
  (18 * List.length container <= List.length v0)%nat ->
  let cv := fold_left (mob_body mu container) (seq 0 n) (c0, v0) in
  List.length (fst cv) = List.length c0 /\
  List.length (snd cv) = List.length v0 /\
  forall i k sy,
    (i < n)%nat -> (k < 18)%nat -> nth_error container i = Some sy ->
    nth (18 * i + k) (fst cv) 0%nat = nth k (mobColumns i) 0%nat /\
    nth (18 * i + k) (snd cv) 0 = nth k (mobValues mu sy) 0.
Proof.
  intros Hn Hc Hv. induction n as [| n IH]; cbv zeta.
  - cbn. repeat split; intros; lia.
  - rewrite seq_S, fold_left_app. cbn [fold_left Nat.add].
    destruct IH as [L1 [L2 IH]]; [lia |].
    set (cv := fold_left (mob_body mu container) (seq 0 n) (c0, v0)) in *.
    destruct (nth_error container n) as [syn |] eqn:En.
    2:{ apply nth_error_None in En. lia. }
    unfold mob_body. rewrite En. cbn [fst snd]. rewrite !write_at_length.
    split; [exact L1 | split; [exact L2 |]].
    intros i k sy Hi Hk Hsy.
    destruct (Nat.eq_dec i n) as [-> | Hne].
    + rewrite En in Hsy. injection Hsy as ->.
      split; apply write_at_nth_in;
        rewrite ?mobColumns_length, ?mobValues_length; lia.
    + rewrite !write_at_nth_out
        by (rewrite ?mobColumns_length, ?mobValues_length; lia).
      apply IH; [lia | exact Hk | exact Hsy].
Qed.

Lemma calcMobMatrix_rowPointers (cfg : SylinderConfig)
    (container : list Sylinder) (r : nat) :
  (r <= 6 * List.length container)%nat ->
  nth r (rowPointers (calcMobMatrix cfg container)) 0%nat = (3 * r)%nat.
Proof.
  intros H. unfold calcMobMatrix. cbn [rowPointers].
  apply mob_rowPointers_nth. lia.
Qed.

Lemma calcMobMatrix_slots (cfg : SylinderConfig) (container : list Sylinder)
    (i k : nat) (sy : Sylinder) :
  nth_error container i = Some sy -> (k < 18)%nat ->
  nth (18 * i + k) (columnIndices (calcMobMatrix cfg container)) 0%nat =
    nth k (mobColumns i) 0%nat /\
  nth (18 * i + k) (values (calcMobMatrix cfg container)) 0 =
    nth k (mobValues (viscosity cfg) sy) 0.
Proof.
  intros Hsy Hk. unfold calcMobMatrix. cbn [columnIndices values].
  rewrite mob_rowPointers_nth by lia.
  pose proof (nth_error_Some_lt _ _ _ Hsy) as Hi.
  apply (mob_fold_spec (viscosity cfg) container (List.length container));
    rewrite ?repeat_length; try lia; assumption.
Qed.

(** The three stored entries of row [6 * i + a] of the matrix. *)
Lemma calcMobMatrix_row (cfg : SylinderConfig) (container : list Sylinder)
    (i a : nat) (sy : Sylinder) :
  nth_error container i = Some sy -> (a < 6)%nat ->
  crs_row_entries (calcMobMatrix cfg container) (6 * i + a) =
  map (fun j => (nth (3 * a + j) (mobColumns i) 0%nat,
                 nth (3 * a + j) (mobValues (viscosity cfg) sy) 0))
      [0; 1; 2]%nat.
Proof.
  intros Hsy Ha. pose proof (nth_error_Some_lt _ _ _ Hsy) as Hi.
  unfold crs_row_entries.
  rewrite !calcMobMatrix_rowPointers by lia.
  replace (3 * S (6 * i + a) - 3 * (6 * i + a))%nat with 3%nat by lia.
  replace (3 * (6 * i + a))%nat with (18 * i + 3 * a)%nat by lia.
  cbn [seq map].
  replace (18 * i + 3 * a)%nat with (18 * i + (3 * a + 0))%nat at 1 2 by lia.
  replace (S (18 * i + 3 * a))%nat
    with (18 * i + (3 * a + 1))%nat by lia.
  replace (S (18 * i + (3 * a + 1)))%nat
    with (18 * i + (3 * a + 2))%nat by lia.
  destruct (calcMobMatrix_slots cfg container i (3 * a + 0) sy Hsy)
    as [C0 V0]; [lia |].
  destruct (calcMobMatrix_slots cfg container i (3 * a + 1) sy Hsy)
    as [C1 V1]; [lia |].
  destruct (calcMobMatrix_slots cfg container i (3 * a + 2) sy Hsy)
    as [C2 V2]; [lia |].
  rewrite C0, C1, C2, V0, V1, V2. reflexivity.
Qed.

Ltac eqb_cases :=
  repeat match goal with
         | |- context [Nat.eqb ?x ?y] =>
             destruct (Nat.eqb_spec x y); try lia
         end.

Ltac mob_entry :=
  unfold crs_entry; cbn [map fold_right fst snd nth mobColumns mobValues
                         Nat.add Nat.mul];
  eqb_cases;
  unfold MobTrans, MobRot, mget, madd, mscale, msub, mIdentity, outer, kron;
  cbn [mrow vget row0 row1 row2 vadd vsub sscale vx vy vz Nat.eqb];
  try ring.

(** C6.  The rows of the assembled mobility matrix that belong to one rod
    hold the block diag(M_trans, M_rot) with
    M_trans = (1/dragPara) q q^T + (1/dragPerp) (I - q q^T) and
    M_rot = (1/dragRot) I; each of the six rows stores three entries, 18
    for the rod, all in the rod's own six columns, so the matrix entry at
    any column of another rod is zero. *)
Theorem calcMobMatrix_block (cfg : SylinderConfig) (container : list Sylinder)
    (i : nat) (sy : Sylinder) :
  nth_error container i = Some sy ->
  let M := calcMobMatrix cfg container in
  let mu := viscosity cfg in
  let q := qrotate (orientation sy) ez in
  (forall a b, (a < 3)%nat -> (b < 3)%nat ->
     crs_entry M (6 * i + a) (6 * i + b) =
       (1 / dragPara mu sy) * (vget q a * vget q b) +
       (1 / dragPerp mu sy) * (kron a b - vget q a * vget q b) /\
     crs_entry M (6 * i + (3 + a)) (6 * i + (3 + b)) =
       (1 / dragRot mu sy) * kron a b /\
     crs_entry M (6 * i + a) (6 * i + (3 + b)) = 0 /\
     crs_entry M (6 * i + (3 + a)) (6 * i + b) = 0) /\
  (forall a, (a < 6)%nat ->
     List.length (crs_row_entries M (6 * i + a)) = 3%nat) /\
  (nth (6 * i + 6) (rowPointers M) 0 - nth (6 * i) (rowPointers M) 0 = 18)%nat /\
  (forall a c v, (a < 6)%nat -> In (c, v) (crs_row_entries M (6 * i + a)) ->
     (6 * i <= c < 6 * i + 6)%nat) /\
  (forall a c, (a < 6)%nat -> (c < 6 * i \/ 6 * i + 6 <= c)%nat ->
     crs_entry M (6 * i + a) c = 0).
Proof.
  intros Hsy M mu q. subst M mu q.
  pose proof (nth_error_Some_lt _ _ _ Hsy) as Hi.
  split; [| split; [| split; [| split]]].
  - intros a b Ha Hb.
    assert (Ha3 : (3 + a < 6)%nat) by lia.
    assert (Ha6 : (a < 6)%nat) by lia.
    unfold crs_entry.
    rewrite (calcMobMatrix_row cfg container i a sy Hsy Ha6).
    rewrite (calcMobMatrix_row cfg container i (3 + a) sy Hsy Ha3).
    destruct a as [| [| [| a]]]; try lia;
      destruct b as [| [| [| b]]]; try lia;
      (repeat split; mob_entry).
  - intros a Ha. rewrite (calcMobMatrix_row cfg container i a sy Hsy Ha).
    reflexivity.
  - rewrite !calcMobMatrix_rowPointers by lia. lia.
  - intros a c v Ha Hin.
    rewrite (calcMobMatrix_row cfg container i a sy Hsy Ha) in Hin.
    destruct a as [| [| [| [| [| [| a]]]]]]; try lia;
      cbn [map nth mobColumns Nat.add Nat.mul In] in Hin;
      repeat (destruct Hin as [Hin | Hin];
              [injection Hin as <- _; lia |]); contradiction.
  - intros a c Ha Hc. unfold crs_entry.
    rewrite (calcMobMatrix_row cfg container i a sy Hsy Ha).
    destruct a as [| [| [| [| [| [| a]]]]]]; try lia;
      cbn [map fold_right fst snd nth mobColumns Nat.add Nat.mul];
      eqb_cases; reflexivity.
Qed.

(** ** Signs of the drag coefficients *)

Lemma Pi_pos : 0 < Pi.
Proof. unfold Pi. lra. Qed.

Lemma drag_b_arg (sy : Sylinder) :
  radius sy * 2 * 0.5 / length sy = radius sy / length sy.
Proof. unfold Rdiv. lra. Qed.

Lemma drag_b_pos (sy : Sylinder) :
  0 < length sy -> 0 < radius sy ->
  radius sy / length sy < exp (- (1 / 2)) -> 0 < drag_b sy.
Proof.
  intros Hl Hr H. unfold drag_b. cbv zeta. rewrite drag_b_arg.
  assert (Hq : 0 < radius sy / length sy) by (now apply Rdiv_lt_0_compat).
  pose proof (ln_increasing _ _ Hq H) as Hln. rewrite ln_exp in Hln. lra.
Qed.

Lemma drag_b_neg (sy : Sylinder) :
  0 < length sy -> 0 < radius sy ->
  exp (- (1 / 2)) < radius sy / length sy -> drag_b sy < 0.
Proof.
  intros Hl Hr H. unfold drag_b. cbv zeta. rewrite drag_b_arg.
  pose proof (ln_increasing _ _ (exp_pos _) H) as Hln.
  rewrite ln_exp in Hln. lra.
Qed.

Lemma drag_numerators_pos (mu : R) (sy : Sylinder) :
  0 < length sy -> 0 < mu ->
  0 < 8 * Pi * length sy * mu /\
  0 < 2 * Pi * mu * length sy * length sy * length sy.
Proof.
  intros Hl Hmu. pose proof Pi_pos as HPi.
  assert (H8 : 0 < 8 * Pi) by lra.
  assert (H2 : 0 < 2 * Pi) by lra.
  split.
  - apply Rmult_lt_0_compat; [apply Rmult_lt_0_compat |]; assumption.
  - do 4 (apply Rmult_lt_0_compat; [| assumption]). exact H2.
Qed.

(** The axis of a rod with a unit orientation quaternion is a unit
    vector. *)
Lemma axis_unit (o : Equatn) :
  qx o * qx o + qy o * qy o + qz o * qz o + qw o * qw o = 1 ->
  squaredNorm (qrotate o ez) = 1.
Proof.
  intros Hn. unfold squaredNorm, vdot, qrotate, vcross, vadd, sscale, qvec, ez.
  cbn [vx vy vz].
  set (p := qx o * qx o + qy o * qy o).
  set (n := qx o * qx o + qy o * qy o + qz o * qz o + qw o * qw o) in Hn.
  match goal with
  | |- ?lhs = 1 => replace lhs with (1 + 4 * p * (n - 1))
                     by (unfold p, n; ring)
  end.
  rewrite Hn. ring.
Qed.

Lemma quadForm_MobTrans (mu : R) (sy : Sylinder) (x : Evec3) :
  let q := qrotate (orientation sy) ez in
  quadForm (MobTrans mu sy) x =
  1 / dragPara mu sy * (vdot q x * vdot q x) +
  1 / dragPerp mu sy * (squaredNorm x - vdot q x * vdot q x).
Proof.
  cbv zeta. unfold quadForm, mvec, MobTrans, madd, mscale, msub, mIdentity,
    outer, squaredNorm, vdot, vadd, vsub, sscale.
  cbn [row0 row1 row2 vx vy vz]. ring.
Qed.

Lemma quadForm_MobRot (mu : R) (sy : Sylinder) (x : Evec3) :
  quadForm (MobRot mu sy) x = 1 / dragRot mu sy * squaredNorm x.
Proof.
  unfold quadForm, mvec, MobRot, madd, mscale, msub, mIdentity,
    outer, squaredNorm, vdot, vadd, vsub, sscale.
  cbn [row0 row1 row2 vx vy vz]. ring.
Qed.

(** Lagrange's identity for a unit vector [q]. *)
Lemma unit_projection_le (q x : Evec3) :
  squaredNorm q = 1 -> 0 <= squaredNorm x - vdot q x * vdot q x.
Proof.
  intros Hq.
  assert (E : squaredNorm x - vdot q x * vdot q x =
              squaredNorm (vcross q x) + (1 - squaredNorm q) * squaredNorm x).
  { unfold squaredNorm, vdot, vcross. cbn [vx vy vz]. ring. }
  rewrite E, Hq. pose proof (squaredNorm_nonneg (vcross q x)). lra.
Qed.

(** C7 (amended).  For a rod with positive length, radius and viscosity
    whose aspect ratio satisfies radius / length < exp(-1/2), that is
    b > 0, the three drag coefficients are positive, and with a unit
    orientation quaternion the translational and the rotational block of
    the rod's mobility are positive-definite; when
    radius / length > exp(-1/2) the parallel drag coefficient is
    negative. *)
Theorem drag_coefficients_positive (mu : R) (sy : Sylinder) :
  0 < length sy -> 0 < radius sy -> 0 < mu ->
  (radius sy / length sy < exp (- (1 / 2)) ->
   (0 < dragPara mu sy /\ 0 < dragPerp mu sy /\ 0 < dragRot mu sy) /\
   (qx (orientation sy) * qx (orientation sy) +
    qy (orientation sy) * qy (orientation sy) +
    qz (orientation sy) * qz (orientation sy) +
    qw (orientation sy) * qw (orientation sy) = 1 ->
    forall x, 0 < squaredNorm x ->
              0 < quadForm (MobTrans mu sy) x /\
              0 < quadForm (MobRot mu sy) x)) /\
  (exp (- (1 / 2)) < radius sy / length sy -> dragPara mu sy < 0).
Proof.
  intros Hl Hr Hmu. pose proof Pi_pos as HPi. split; intros H.
  - pose proof (drag_b_pos sy Hl Hr H) as Hb.
    pose proof (drag_numerators_pos mu sy Hl Hmu) as [H1 H2].
    assert (Hpos : 0 < dragPara mu sy /\ 0 < dragPerp mu sy /\
                   0 < dragRot mu sy).
    { unfold dragPara, dragPerp, dragRot.
      repeat split; apply Rdiv_lt_0_compat; lra. }
    split; [exact Hpos |].
    destruct Hpos as [Ppara [Pperp Prot]].
    intros Hunit x Hx.
    assert (Ia : 0 < 1 / dragPara mu sy)
      by (apply Rdiv_lt_0_compat; lra).
    assert (Ic : 0 < 1 / dragPerp mu sy)
      by (apply Rdiv_lt_0_compat; lra).
    assert (Ir : 0 < 1 / dragRot mu sy)
      by (apply Rdiv_lt_0_compat; lra).
    split.
    + rewrite quadForm_MobTrans. cbv zeta.
      pose proof (unit_projection_le _ x (axis_unit _ Hunit)) as HL.
      set (d := vdot (qrotate (orientation sy) ez) x) in *.
      set (s := squaredNorm x) in *.
      set (a := 1 / dragPara mu sy) in *.
      set (c := 1 / dragPerp mu sy) in *.
      assert (Hd : 0 <= d * d) by nra.
      destruct (Rle_lt_dec (d * d) 0) as [Hz | Hp].
      * assert (Ez : d * d = 0) by lra. rewrite Ez.
        assert (0 < c * s) by (apply Rmult_lt_0_compat; assumption). lra.
      * assert (0 < a * (d * d)) by (apply Rmult_lt_0_compat; assumption).
        assert (0 <= c * (s - d * d))
          by (apply Rmult_le_pos; lra).
        lra.
    + rewrite quadForm_MobRot. apply Rmult_lt_0_compat; assumption.
  - pose proof (drag_b_neg sy Hl Hr H) as Hb.
    pose proof (drag_numerators_pos mu sy Hl Hmu) as [H1 _].
    unfold dragPara.
    assert (E : 8 * Pi * length sy * mu / (2 * drag_b sy) =
                - (8 * Pi * length sy * mu / (2 * (- drag_b sy)))).
    { field. lra. }
    rewrite E.
    assert (0 < 8 * Pi * length sy * mu / (2 * (- drag_b sy)))
      by (apply Rdiv_lt_0_compat; lra).
    lra.
Qed.

(** ** The calls of resolveConstraints *)

Lemma CallKind_eqb_eq (a b : CallKind) : CallKind_eqb a b = true <-> a = b.
Proof. destruct a, b; cbn; split; intros H; congruence. Qed.

Lemma existsb_kind (b : CallKind) (log : list Call) :
  existsb (CallKind_eqb b) (map call_kind log) = true <->
  exists l2 c2 l3, log = l2 ++ c2 :: l3 /\ call_kind c2 = b.
Proof.
  rewrite existsb_exists. split.
  - intros [k [Hin Hk]]. apply CallKind_eqb_eq in Hk. subst k.
    apply in_map_iff in Hin. destruct Hin as [c [Hc Hin]].
    apply in_split in Hin. destruct Hin as [l2 [l3 ->]].
    exists l2, c, l3. auto.
  - intros [l2 [c2 [l3 [-> Hk]]]]. exists b. split.
    + apply in_map_iff. exists c2. split; [exact Hk |].
      apply in_or_app. right. now left.
    + now apply CallKind_eqb_eq.
Qed.

Lemma called_before_iff (a b : CallKind) (log : list Call) :
  called_before a b log <-> kinds_before a b (map call_kind log) = true.
Proof.
  unfold called_before. split.
  - intros [l1 [c1 [l2 [c2 [l3 [-> [Ha Hb]]]]]]].
    induction l1 as [| c l1 IH]; cbn.
    + apply orb_true_iff. left. apply andb_true_iff. split.
      * now apply CallKind_eqb_eq.
      * apply existsb_kind. exists l2, c2, l3. auto.
    + apply orb_true_iff. right. exact IH.
  - induction log as [| c log IH]; cbn; [discriminate |].
    intros H. apply orb_true_iff in H. destruct H as [H | H].
    + apply andb_true_iff in H. destruct H as [Ha Hb].
      apply CallKind_eqb_eq in Ha. apply existsb_kind in Hb.
      destruct Hb as [l2 [c2 [l3 [-> Hb]]]].
      exists [], c, l2, c2, l3. auto.
    + destruct (IH H) as [l1 [c1 [l2 [c2 [l3 [-> [Ha Hb]]]]]]].
      exists (c :: l1), c1, l2, c2, l3. auto.
Qed.

Lemma collectPairCollision_fields (sys : SylinderSystem) :
  let r := calcForceAll (sylinderContainer sys) (uniConstraint sys)
                        (biConstraint sys) in
  let sys1 := collectPairCollision sys in
  calls sys1 = calls sys ++ [call_collectPairCollision] /\
  runConfig sys1 = runConfig sys /\
  constraintSolver sys1 = constraintSolver sys /\
  uniConstraint sys1 = fst (fst r) /\
  biConstraint sys1 =
    map (map (fill_kappa (linkKappa (runConfig sys)))) (snd (fst r)).
Proof.
  unfold collectPairCollision. cbn.
  destruct (calcForceAll _ _ _) as [[uni bi] sepmins]. cbn. auto.
Qed.

Lemma resolveConstraints_calls (sys : SylinderSystem) :
  let sys1 := collectPairCollision sys in
  let sys2 := collectWallCollision_member sys1 in
  calls (resolveConstraints sys) =
  calls sys ++
  [ call_collectPairCollision;
    call_collectWallCollision;
    call_setup (uniConstraint sys2) (biConstraint sys1) (dt (runConfig sys));
    call_setControlParams (conResTol (runConfig sys))
                          (conMaxIte (runConfig sys))
                          (conSolverChoice (runConfig sys));
    call_solveConstraints;
    call_writebackGamma;
    call_saveVelocityConstraints ].
Proof.
  destruct (collectPairCollision_fields sys) as [Hc [Hr _]].
  cbv zeta. unfold resolveConstraints, collectWallCollision_member.
  cbn. rewrite Hc, Hr. rewrite <- !app_assoc. reflexivity.
Qed.

Lemma step_calls_eq (sys : SylinderSystem) :
  let sys1 := collectPairCollision sys in
  let sys2 := collectWallCollision_member sys1 in
  step_calls sys =
  [ call_collectPairCollision;
    call_collectWallCollision;
    call_setup (uniConstraint sys2) (biConstraint sys1) (dt (runConfig sys));
    call_setControlParams (conResTol (runConfig sys))
                          (conMaxIte (runConfig sys))
                          (conSolverChoice (runConfig sys));
    call_solveConstraints;
    call_writebackGamma;
    call_saveVelocityConstraints ].
Proof.
  cbv zeta. unfold step_calls. rewrite resolveConstraints_calls.
  rewrite skipn_app, Nat.sub_diag, skipn_all. reflexivity.
Qed.

(** C2 (amended).  Before setup, resolveConstraints runs
    collectPairCollision and then collectWallCollision, and nothing else:
    collectLinkBilateral is not called.  The unilateral collector that
    setup receives is the unilateral pool left by the pair pass with the
    wall blocks appended, and the bilateral collector is the bilateral pool
    left by the pair pass with every unset kappa filled in. *)
Theorem resolveConstraints_collects (sys : SylinderSystem) :
  let r := calcForceAll (sylinderContainer sys) (uniConstraint sys)
                        (biConstraint sys) in
  let sys1 := collectPairCollision sys in
  exists uni_ bi_ rest,
    step_calls sys =
      call_collectPairCollision :: call_collectWallCollision ::
      call_setup uni_ bi_ (dt (runConfig sys)) :: rest /\
    calls_before K_setup (step_calls sys) =
      [call_collectPairCollision; call_collectWallCollision] /\
    Forall (fun c => call_kind c <> K_collectLinkBilateral) (step_calls sys) /\
    uni_ = collectWallCollision (runConfig sys) (sylinderContainer sys1)
                                (fst (fst r)) /\
    bi_ = map (map (fill_kappa (linkKappa (runConfig sys)))) (snd (fst r)).
Proof.
  cbv zeta. rewrite step_calls_eq.
  destruct (collectPairCollision_fields sys) as [_ [Hr [_ [Hu Hb]]]].
  do 3 eexists. split; [reflexivity |]. split; [reflexivity |].
  split; [| split].
  - repeat constructor; cbn; discriminate.
  - unfold collectWallCollision_member. cbn. now rewrite Hr, Hu.
  - exact Hb.
Qed.

(** C3 (amended).  Each run of resolveConstraints calls the solver four
    times, in this order: setup, setControlParams, solveConstraints,
    writebackGamma.  setup is called before setControlParams, and
    setControlParams is not called before setup. *)
Theorem resolveConstraints_solver_order (sys : SylinderSystem) :
  map call_kind (filter is_solver_call (step_calls sys)) =
    [K_setup; K_setControlParams; K_solveConstraints; K_writebackGamma] /\
  called_before K_setup K_setControlParams (step_calls sys) /\
  called_before K_setControlParams K_solveConstraints (step_calls sys) /\
  called_before K_solveConstraints K_writebackGamma (step_calls sys) /\
  ~ called_before K_setControlParams K_setup (step_calls sys).
Proof.
  split; [| split; [| split; [| split]]].
  - rewrite step_calls_eq. reflexivity.
  - apply called_before_iff. rewrite step_calls_eq. reflexivity.
  - apply called_before_iff. rewrite step_calls_eq. reflexivity.
  - apply called_before_iff. rewrite step_calls_eq. reflexivity.
  - intros H. apply called_before_iff in H. rewrite step_calls_eq in H.
    discriminate H.
Qed.

(** ** The initial gamma of a block *)

Lemma fill_kappa_unset (linkKappa_ : R) (block : ConstraintBlock) :
  kappa block < 0 ->
  kappa (fill_kappa linkKappa_ block) = linkKappa_ /\
  gamma (fill_kappa linkKappa_ block) = linkKappa_ * delta0 block /\
  delta0 (fill_kappa linkKappa_ block) = delta0 block.
Proof.
  intros H. unfold fill_kappa.
  rewrite (proj2 (Rltb_true _ _) H). cbn. auto.
Qed.

Lemma fill_kappa_set (linkKappa_ : R) (block : ConstraintBlock) :
  0 <= kappa block -> fill_kappa linkKappa_ block = block.
Proof.
  intros H. unfold fill_kappa. now rewrite (proj2 (Rltb_false _ _) H).
Qed.

(** ** Unit vectors *)

Lemma squaredNorm_pos (a b : Evec3) : a <> b -> 0 < squaredNorm (vsub a b).
Proof.
  intros Hne. destruct (Rle_lt_dec (squaredNorm (vsub a b)) 0) as [Hle | Hlt];
    [| exact Hlt].
  exfalso. apply Hne. destruct a as [ax ay az], b as [bx b_y bz].
  unfold squaredNorm, vdot, vsub in Hle. cbn in Hle.
  pose proof (Rle_0_sqr (ax - bx)) as Hx.
  pose proof (Rle_0_sqr (ay - b_y)) as Hy.
  pose proof (Rle_0_sqr (az - bz)) as Hz.
  unfold Rsqr in Hx, Hy, Hz.
  assert (Ex : (ax - bx) * (ax - bx) = 0) by lra.
  assert (Ey : (ay - b_y) * (ay - b_y) = 0) by lra.
  assert (Ez : (az - bz) * (az - bz) = 0) by lra.
  apply Rsqr_0_uniq in Ex, Ey, Ez.
  f_equal; lra.
Qed.

Lemma norm_normalized (v : Evec3) :
  0 < squaredNorm v -> norm (vdivs v (norm v)) = 1.
Proof.
  intros Hpos. unfold norm at 1.
  assert (Hn : 0 < norm v) by (unfold norm; now apply sqrt_lt_R0).
  assert (Hsq : norm v * norm v = squaredNorm v)
    by (unfold norm; apply sqrt_sqrt; lra).
  replace (squaredNorm (vdivs v (norm v))) with 1; [apply sqrt_1 |].
  unfold squaredNorm, vdot, vdivs in *. cbn [vx vy vz] in *.
  set (n := norm v) in *.
  replace (vx v / n * (vx v / n) + vy v / n * (vy v / n) +
           vz v / n * (vz v / n))
    with ((vx v * vx v + vy v * vy v + vz v * vz v) / (n * n))
    by (field; lra).
  rewrite Hsq. field. lra.
Qed.

(** ** collectLinkBilateral *)

Lemma linkBlock_fields (kappa_ : R) (gI gJ giI giJ : Z)
    (centerI directionI : Evec3) (lengthI radiusI : R)
    (centerJ directionJ : Evec3) (lengthJ radiusJ : R) :
  let P := vadd centerI (vscale directionI (0.5 * lengthI)) in
  let Q := vsub centerJ (vscale directionJ (0.5 * lengthJ)) in
  let b := linkBlock kappa_ gI gJ giI giJ centerI directionI lengthI radiusI
                     centerJ directionJ lengthJ radiusJ in
  delta0 b = norm (vsub P Q) - (radiusI + radiusJ) * (1 + 0.05) /\
  gamma b = - (kappa_ * delta0 b) /\
  kappa b = kappa_ /\
  normI b = vdivs (vsub P Q) (norm (vsub P Q)) /\
  normJ b = vneg (normI b) /\
  oneSide b = false /\
  gidI b = gI /\ gidJ b = gJ /\
  globalIndexI b = giI /\ globalIndexJ b = giJ /\
  labI b = P /\ labJ b = Q.
Proof.
  cbv zeta. unfold linkBlock. cbn.
  repeat split; try reflexivity; lra.
Qed.

Lemma linkStep1_oneSide (kappa_ : R) (container : list Sylinder)
    (index : list (Z * nat)) (syI : Sylinder) (b : ConstraintBlock) :
  In b (linkStep1 kappa_ container index syI) -> oneSide b = false.
Proof.
  unfold linkStep1. intros H.
  destruct (Z.eqb _ _); [contradiction |].
  destruct (gid_find _ _) as [j |].
  - destruct (nth_error container j); [| contradiction].
    destruct H as [<- | []]. reflexivity.
  - destruct H as [<- | []]. reflexivity.
Qed.

Lemma nth_map_nil {A B : Type} (l : list A) (t : nat) :
  nth t (map (fun _ : A => @nil B) l) [] = [].
Proof.
  revert t. induction l as [| x l IH]; intros [| t]; cbn; auto.
Qed.

Lemma collectLinkBilateral_step1_nth (cfg : SylinderConfig)
    (container : list Sylinder) (index : list (Z * nat))
    (cPool : ConstraintBlockPool) (t : nat) :
  (t < List.length cPool)%nat ->
  nth t (collectLinkBilateral_step1 cfg container index cPool) [] =
  flat_map (at_body container (linkStep1 (linkKappa cfg) container index))
           (thread_iters omp_sched (List.length cPool)
                         (List.length container) t).
Proof.
  intros Ht. unfold collectLinkBilateral_step1.
  rewrite omp_for_emit_nth by (now rewrite length_map).
  rewrite length_map.
  exact (f_equal (fun q => q ++ _)
                 (@nth_map_nil ConstraintBlockQue ConstraintBlock cPool t)).
Qed.

Lemma collectLinkBilateral_step1_oneSide (cfg : SylinderConfig)
    (container : list Sylinder) (index : list (Z * nat))
    (cPool : ConstraintBlockPool) (que : ConstraintBlockQue)
    (b : ConstraintBlock) :
  In que (collectLinkBilateral_step1 cfg container index cPool) ->
  In b que -> oneSide b = false.
Proof.
  intros Hq Hb. apply In_nth with (d := []) in Hq.
  destruct Hq as [t [Ht <-]].
  unfold collectLinkBilateral_step1 in Ht.
  rewrite omp_for_emit_length, length_map in Ht.
  rewrite collectLinkBilateral_step1_nth in Hb by exact Ht.
  apply in_flat_map in Hb. destruct Hb as [i [_ Hb]].
  unfold at_body in Hb. destruct (nth_error container i); [| contradiction].
  eapply linkStep1_oneSide; eauto.
Qed.

Lemma linkStep2_block_spec (kappa_ : R) (container : list Sylinder)
    (index : list (Z * nat)) (data : list SylinderNearEP)
    (block block' : ConstraintBlock) (f f' : nat) :
  linkStep2_block kappa_ container index data block f = Some (block', f') ->
  (globalIndexJ block <> GEO_INVALID_INDEX -> block' = block) /\
  (oneSide block = false -> oneSide block' = false).
Proof.
  unfold linkStep2_block. destruct (Z.eqb_spec (globalIndexJ block)
                                              GEO_INVALID_INDEX) as [E | E].
  - destruct (gid_find index (gidI block)) as [iI |]; [| discriminate].
    destruct (nth_error container iI) as [syI |]; [| discriminate].
    destruct (nth_error data f) as [syNearJ |]; [| discriminate].
    destruct (negb _); [discriminate |].
    intros H. injection H as <- _. split; [contradiction | reflexivity].
  - intros H. injection H as <- _. auto.
Qed.

Lemma linkStep2_que_spec (kappa_ : R) (container : list Sylinder)
    (index : list (Z * nat)) (data : list SylinderNearEP)
    (cQue cQue' : ConstraintBlockQue) (f f' : nat) :
  linkStep2_que kappa_ container index data cQue f = Some (cQue', f') ->
  (forall b, In b cQue -> globalIndexJ b <> GEO_INVALID_INDEX -> In b cQue') /\
  ((forall b, In b cQue -> oneSide b = false) ->
   forall b, In b cQue' -> oneSide b = false).
Proof.
  revert cQue' f f'. induction cQue as [| block cQue IH];
    intros cQue' f f' H; cbn in H.
  - injection H as <- _. split; auto.
  - destruct (linkStep2_block _ _ _ _ block f) as [[block1 f1] |] eqn:E1;
      [| discriminate].
    destruct (linkStep2_que _ _ _ _ cQue f1) as [[rest f2] |] eqn:E2;
      [| discriminate].
    injection H as <- _.
    destruct (linkStep2_block_spec _ _ _ _ _ _ _ _ E1) as [Hkeep Hone].
    destruct (IH _ _ _ E2) as [IHkeep IHone].
    split.
    + intros b [-> | Hin] Hne.
      * left. now apply Hkeep.
      * right. now apply IHkeep.
    + intros Hall b [<- | Hin].
      * apply Hone, Hall. now left.
      * apply IHone; [| exact Hin]. intros b' Hb'. apply Hall. now right.
Qed.

Lemma linkStep2_pool_spec (kappa_ : R) (container : list Sylinder)
    (index : list (Z * nat)) (data : list SylinderNearEP)
    (cPool cPool' : ConstraintBlockPool) (f f' : nat) :
  linkStep2_pool kappa_ container index data cPool f = Some (cPool', f') ->
  (forall t b, In b (nth t cPool []) ->
               globalIndexJ b <> GEO_INVALID_INDEX -> In b (nth t cPool' [])) /\
  ((forall que b, In que cPool -> In b que -> oneSide b = false) ->
   forall que b, In que cPool' -> In b que -> oneSide b = false).
Proof.
  revert cPool' f f'. induction cPool as [| cQue cPool IH];
    intros cPool' f f' H; cbn in H.
  - injection H as <- _. split; auto.
  - destruct (linkStep2_que _ _ _ _ cQue f) as [[cQue1 f1] |] eqn:E1;
      [| discriminate].
    destruct (linkStep2_pool _ _ _ _ cPool f1) as [[rest f2] |] eqn:E2;
      [| discriminate].
    injection H as <- _.
    destruct (linkStep2_que_spec _ _ _ _ _ _ _ _ E1) as [Hkeep Hone].
    destruct (IH _ _ _ E2) as [IHkeep IHone].
    split.
    + intros [| t] b Hin Hne; cbn in *.
      * now apply Hkeep.
      * now apply IHkeep.
    + intros Hall que b [<- | Hq] Hb.
      * apply Hone with (b := b); [| exact Hb].
        intros b' Hb'. apply (Hall cQue); [now left | exact Hb'].
      * apply (IHone) with (que := que); [| exact Hq | exact Hb].
        intros que' b' Hq' Hb'. apply (Hall que'); [now right | exact Hb'].
Qed.

(** ** Scattering the new ids *)

Lemma firstn_plus {A : Type} (n m : nat) (l : list A) :
  firstn (n + m) l = firstn n l ++ firstn m (skipn n l).
Proof.
  revert l. induction n as [| n IH]; intros l; cbn; [reflexivity |].
  destruct l as [| x l]; cbn.
  - now rewrite firstn_nil.
  - now rewrite IH.
Qed.

Lemma prefix_sum_le (ns : list nat) (r n : nat) :
  nth_error ns r = Some n ->
  (fold_right Nat.add 0 (firstn r ns) + n <= fold_right Nat.add 0 ns)%nat.
Proof.
  revert r. induction ns as [| m ns IH]; intros [| r] H; cbn in *;
    try discriminate.
  - injection H as ->. lia.
  - specialize (IH r H). lia.
Qed.

Lemma displ_from_nth (ns : list nat) (acc r : nat) :
  (r < List.length ns)%nat ->
  nth r (displ_from acc ns) 0%nat =
  (acc + fold_right Nat.add 0 (firstn r ns))%nat.
Proof.
  revert acc r. induction ns as [| n ns IH]; intros acc [| r] H; cbn in *;
    try lia.
  rewrite IH by lia. lia.
Qed.

(** The chunks that the ranks receive, put one after the other, are the
    scattered array. *)
Lemma scatter_chunks (ns : list nat) (acc : nat) (l : list Z) :
  concat (map (fun r => firstn (nth r ns 0%nat)
                               (skipn (nth r (displ_from acc ns) 0%nat) l))
              (seq 0 (List.length ns))) =
  firstn (fold_right Nat.add 0%nat ns) (skipn acc l).
Proof.
  revert acc. induction ns as [| n ns IH]; intros acc; [reflexivity |].
  cbn [List.length seq map concat nth displ_from fold_right].
  rewrite <- seq_shift, map_map. cbn [nth displ_from].
  rewrite IH, firstn_plus, skipn_skipn.
  now rewrite (Nat.add_comm n acc).
Qed.

Lemma scatterv_concat (newID : list Z) (newNumber : list nat) :
  List.length newID = list_sum newNumber ->
  concat (map (scatterv newID newNumber) (seq 0 (List.length newNumber))) =
  newID.
Proof.
  intros H. unfold scatterv, displ. rewrite scatter_chunks. cbn [skipn].
  unfold list_sum in H. rewrite <- H. apply firstn_all.
Qed.

Lemma scatterv_length (newID : list Z) (newNumber : list nat) (r n : nat) :
  List.length newID = list_sum newNumber ->
  nth_error newNumber r = Some n ->
  List.length (scatterv newID newNumber r) = n.
Proof.
  intros H Hr. pose proof (nth_error_Some_lt _ _ _ Hr) as Hlt.
  unfold scatterv, displ.
  rewrite (nth_error_nth _ _ 0%nat Hr), displ_from_nth by exact Hlt.
  rewrite length_firstn, length_skipn.
  pose proof (prefix_sum_le _ _ _ Hr). unfold list_sum in H. lia.
Qed.

(** ** The gids of addNewSylinder *)

Lemma maxGidLocal_from (container : list Sylinder) (m : Z) :
  (m <= fold_left (fun m sy => Z.max m (gid sy)) container m)%Z /\
  forall sy, In sy container ->
    (gid sy <= fold_left (fun m sy => Z.max m (gid sy)) container m)%Z.
Proof.
  revert m. induction container as [| sy0 container IH]; intros m; cbn.
  - split; [lia | contradiction].
  - destruct (IH (Z.max m (gid sy0))) as [H1 H2]. split; [lia |].
    intros sy [<- | Hin]; [lia | now apply H2].
Qed.

Lemma fold_max_from (zs : list Z) (m : Z) :
  (m <= fold_left Z.max zs m)%Z /\
  forall z, In z zs -> (z <= fold_left Z.max zs m)%Z.
Proof.
  revert m. induction zs as [| z0 zs IH]; intros m; cbn.
  - split; [lia | contradiction].
  - destruct (IH (Z.max m z0)) as [H1 H2]. split; [lia |].
    intros z [<- | Hin]; [lia | now apply H2].
Qed.

Lemma maxGidGlobal_bound (containers : list (list Sylinder)) :
  (0 <= maxGidGlobal containers)%Z /\
  forall c sy, In c containers -> In sy c ->
               (gid sy <= maxGidGlobal containers)%Z.
Proof.
  unfold maxGidGlobal. destruct (fold_max_from (map maxGidLocal containers) 0)
    as [H1 H2].
  split; [exact H1 |]. intros c sy Hc Hsy.
  assert (Hl : (gid sy <= maxGidLocal c)%Z)
    by (apply (proj2 (maxGidLocal_from c 0)); exact Hsy).
  assert (Hg : (maxGidLocal c <= fold_left Z.max (map maxGidLocal containers) 0)%Z)
    by (apply H2, in_map, Hc).
  lia.
Qed.

Lemma assign_gid_gids (maxG : Z) (ids : list Z) (newSylinder : list Sylinder) :
  List.length ids = List.length newSylinder ->
  map gid (assign_gid maxG ids newSylinder) =
  map (fun id => int_add (int_add id 1) maxG) ids.
Proof.
  unfold assign_gid. revert newSylinder.
  induction ids as [| id ids IH]; intros [| sy news] H; cbn in *;
    try discriminate; [reflexivity |].
  f_equal. apply IH. lia.
Qed.

Lemma set_links_gids (lookup todo : list Sylinder) (linkage : list Link)
    (res : list Sylinder) :
  set_links lookup todo linkage = Some res ->
  map gid res = map gid todo /\ List.length res = List.length todo.
Proof.
  revert linkage res. induction todo as [| sy todo IH];
    intros linkage res H; cbn in H.
  - injection H as <-. auto.
  - destruct linkage as [| l linkage].
    + injection H as <-. auto.
    + destruct (link_gid lookup (prev l)); [| discriminate].
      destruct (link_gid lookup (next l)); [| discriminate].
      destruct (set_links lookup todo linkage) as [rest |] eqn:E;
        [| discriminate].
      injection H as <-. destruct (IH _ _ E) as [H1 H2].
      cbn. now rewrite H1, H2.
Qed.

Lemma nth_error_map_indexed {A B : Type} (f : nat * A -> B) (l : list A)
    (r : nat) (x : A) :
  nth_error l r = Some x ->
  nth_error (map f (combine (seq 0 (List.length l)) l)) r = Some (f (r, x)).
Proof.
  intros H. pose proof (nth_error_Some_lt _ _ _ H) as Hlt.
  rewrite nth_error_map.
  rewrite (nth_error_nth' _ (O, x))
    by (rewrite length_combine, length_seq; lia).
  rewrite combine_nth by (now rewrite length_seq).
  rewrite seq_nth by exact Hlt. cbn.
  now rewrite (nth_error_nth _ _ x H).
Qed.

Lemma iota_range (n : nat) (id : Z) :
  In id (iota n) -> (0 <= id < Z.of_nat n)%Z.
Proof.
  unfold iota. intros H. apply in_map_iff in H.
  destruct H as [k [<- Hk]]. apply in_seq in Hk. lia.
Qed.

Lemma new_gid_exact (maxG : Z) (n : nat) (id : Z) :
  (0 <= maxG)%Z -> (maxG + Z.of_nat n <= INT_MAX)%Z ->
  (0 <= id < Z.of_nat n)%Z ->
  int_add (int_add id 1) maxG = (maxG + 1 + id)%Z.
Proof.
  intros H0 Hmax Hid. unfold INT_MAX in Hmax.
  rewrite (int_add_exact id 1) by (unfold in_int, INT_MIN, INT_MAX; lia).
  rewrite int_add_exact by (unfold in_int, INT_MIN, INT_MAX; lia). lia.
Qed.

Lemma new_gids_in_range (newID : list Z) (ranks : list AddInput) (r : nat)
    (inp : AddInput) :
  List.length newID =
    list_sum (map (fun inp => List.length (add_newSylinder inp)) ranks) ->
  nth_error ranks r = Some inp ->
  new_gids newID ranks r =
  map (fun id => int_add (int_add id 1)
                         (maxGidGlobal (map add_container ranks)))
      (scatterv newID
                (map (fun inp => List.length (add_newSylinder inp)) ranks) r).
Proof.
  intros Hlen Hr. unfold new_gids.
  rewrite (nth_error_nth _ _ (mkAddInput [] [] []) Hr).
  apply assign_gid_gids.
  apply scatterv_length; [exact Hlen |].
  rewrite nth_error_map, Hr. reflexivity.
Qed.

Lemma new_gids_out_of_range (newID : list Z) (ranks : list AddInput)
    (r : nat) :
  (List.length ranks <= r)%nat -> new_gids newID ranks r = [].
Proof.
  intros H. unfold new_gids. rewrite nth_overflow by exact H.
  cbn [add_newSylinder]. unfold assign_gid.
  destruct (scatterv _ _ _); reflexivity.
Qed.

Lemma all_new_gids (newID : list Z) (ranks : list AddInput) :
  List.length newID =
    list_sum (map (fun inp => List.length (add_newSylinder inp)) ranks) ->
  concat (map (new_gids newID ranks) (seq 0 (List.length ranks))) =
  map (fun id => int_add (int_add id 1)
                         (maxGidGlobal (map add_container ranks)))
      newID.
Proof.
  intros Hlen.
  set (newNumber := map (fun inp => List.length (add_newSylinder inp)) ranks)
    in *.
  set (f := fun id => int_add (int_add id 1)
                              (maxGidGlobal (map add_container ranks))).
  rewrite <- (scatterv_concat newID newNumber Hlen) at 2.
  rewrite concat_map, map_map.
  unfold newNumber at 2. rewrite length_map.
  f_equal. apply map_ext_in. intros r Hr. apply in_seq in Hr.
  destruct (nth_error ranks r) as [inp |] eqn:E.
  - apply (new_gids_in_range newID ranks r inp Hlen E).
  - apply nth_error_None in E. lia.
Qed.

Lemma gid_range_NoDup (maxG : Z) (n : nat) :
  NoDup (map (fun k => (maxG + 1 + Z.of_nat k)%Z) (seq 0 n)).
Proof.
  apply Finite.Injective_map_NoDup; [| apply seq_NoDup].
  intros x y H. lia.
Qed.

(** C10.  addNewSylinder gives every new sylinder a gid above the global
    maximum of the gids present before the call, hence above every old gid;
    the new gids of all ranks together are pairwise distinct: they are a
    permutation of maxGidGlobal + 1 .. maxGidGlobal + nNewGlobal, each rank
    taking a contiguous chunk of the shuffled ids.  If the old gids are
    pairwise distinct, so are the old and new gids together.  A rank
    called without linkage returns, and a rank that returns has appended
    its new sylinders with these gids to its container. *)
Theorem addNewSylinder_gids (newID : list Z) (ranks : list AddInput) :
  let containers := map add_container ranks in
  let newNumber :=
    map (fun inp => List.length (add_newSylinder inp)) ranks in
  let nNewGlobal := list_sum newNumber in
  let maxG := maxGidGlobal containers in
  let all_new :=
    concat (map (new_gids newID ranks) (seq 0 (List.length ranks))) in
  Permutation (iota nNewGlobal) newID ->
  (maxG + Z.of_nat nNewGlobal <= INT_MAX)%Z ->
  (forall r g, In g (new_gids newID ranks r) ->
     (maxG < g)%Z /\
     forall c sy, In c containers -> In sy c -> (gid sy < g)%Z) /\
  NoDup all_new /\
  Permutation all_new
    (map (fun k => (maxG + 1 + Z.of_nat k)%Z) (seq 0 nNewGlobal)) /\
  all_new = map (fun id => (maxG + 1 + id)%Z) newID /\
  (NoDup (concat (map (map gid) containers)) ->
   NoDup (concat (map (map gid) containers) ++ all_new)) /\
  (forall r inp, nth_error ranks r = Some inp ->
     new_gids newID ranks r =
       map (fun id => (maxG + 1 + id)%Z) (scatterv newID newNumber r) /\
     (add_linkage inp = [] ->
      exists c', nth_error (addNewSylinder newID ranks) r = Some (Some c')) /\
     forall c',
       nth_error (addNewSylinder newID ranks) r = Some (Some c') ->
       exists new,
         c' = add_container inp ++ new /\
         map gid new = new_gids newID ranks r /\
         List.length new = List.length (add_newSylinder inp)).
Proof.
  intros containers newNumber nNewGlobal maxG all_new Hperm Hmax.
  assert (Hlen : List.length newID = list_sum newNumber).
  { rewrite <- (Permutation_length Hperm). unfold iota.
    now rewrite length_map, length_seq. }
  destruct (maxGidGlobal_bound containers) as [HmaxG0 Hold].
  fold maxG in HmaxG0, Hold.
  assert (Hexact : forall id, In id newID ->
            int_add (int_add id 1) maxG = (maxG + 1 + id)%Z).
  { intros id Hid. apply (new_gid_exact maxG nNewGlobal); try assumption.
    apply iota_range. apply (Permutation_in id (Permutation_sym Hperm) Hid). }
  assert (Hall : all_new = map (fun id => (maxG + 1 + id)%Z) newID).
  { unfold all_new. rewrite (all_new_gids newID ranks Hlen).
    apply map_ext_in. exact Hexact. }
  assert (HP : Permutation all_new
            (map (fun k => (maxG + 1 + Z.of_nat k)%Z) (seq 0 nNewGlobal))).
  { rewrite Hall. apply Permutation_sym.
    replace (map (fun k => (maxG + 1 + Z.of_nat k)%Z) (seq 0 nNewGlobal))
      with (map (fun id => (maxG + 1 + id)%Z) (iota nNewGlobal))
      by (unfold iota; now rewrite map_map).
    apply Permutation_map. exact Hperm. }
  assert (Hin_all : forall r g, In g (new_gids newID ranks r) -> In g all_new).
  { intros r g Hg.
    destruct (Nat.lt_ge_cases r (List.length ranks)) as [Hlt | Hge].
    - unfold all_new. apply in_concat. exists (new_gids newID ranks r).
      split; [| exact Hg]. apply in_map. apply in_seq. lia.
    - rewrite new_gids_out_of_range in Hg by exact Hge. contradiction. }
  assert (Hnd : NoDup all_new).
  { apply (Permutation_NoDup (Permutation_sym HP)). apply gid_range_NoDup. }
  split; [| split; [| split; [| split; [| split]]]].
  - intros r g Hg. apply Hin_all in Hg.
    apply (Permutation_in g HP) in Hg. apply in_map_iff in Hg.
    destruct Hg as [k [<- _]]. split; [lia |].
    intros c sy Hc Hsy. specialize (Hold c sy Hc Hsy). lia.
  - exact Hnd.
  - exact HP.
  - exact Hall.
  - intros Hnd_old. apply NoDup_app; [exact Hnd_old | exact Hnd |].
    intros g Hg_old Hg_new.
    apply in_concat in Hg_old. destruct Hg_old as [gs [Hgs Hg]].
    apply in_map_iff in Hgs. destruct Hgs as [c [<- Hc]].
    apply in_map_iff in Hg. destruct Hg as [sy [<- Hsy]].
    specialize (Hold c sy Hc Hsy).
    apply (Permutation_in _ HP) in Hg_new. apply in_map_iff in Hg_new.
    destruct Hg_new as [k [Ek _]]. lia.
  - intros r inp Hr.
    pose proof (new_gids_in_range newID ranks r inp Hlen Hr) as Hng.
    fold newNumber in Hng. fold containers in Hng. fold maxG in Hng.
    assert (Hlenr : List.length (scatterv newID newNumber r) =
                    List.length (add_newSylinder inp)).
    { apply scatterv_length; [exact Hlen |].
      unfold newNumber. rewrite nth_error_map, Hr. reflexivity. }
    split.
    + rewrite Hng. apply map_ext_in. intros id Hid. apply Hexact.
      rewrite <- (scatterv_concat newID newNumber Hlen).
      apply in_concat. exists (scatterv newID newNumber r).
      split; [| exact Hid]. apply in_map. apply in_seq.
      pose proof (nth_error_Some_lt _ _ _ Hr).
      unfold newNumber. rewrite length_map. lia.
    + split.
      { intros Hno. unfold addNewSylinder.
        rewrite (nth_error_map_indexed _ ranks r inp Hr). cbn [fst snd].
        unfold addNewSylinder_rank. rewrite Hno. cbn [List.length].
        destruct (Nat.eqb 0 (List.length (add_newSylinder inp))).
        - destruct (assign_gid _ _ _); cbn; eexists; reflexivity.
        - cbn. eexists; reflexivity. }
      intros c' Hres. unfold addNewSylinder in Hres.
      rewrite (nth_error_map_indexed _ ranks r inp Hr) in Hres.
      cbn [fst snd] in Hres. fold containers in Hres. fold maxG in Hres.
      fold newNumber in Hres. injection Hres as Hres.
      unfold addNewSylinder_rank in Hres.
      set (withGid := assign_gid maxG (scatterv newID newNumber r)
                                 (add_newSylinder inp)) in *.
      assert (Hwg : map gid withGid = new_gids newID ranks r).
      { rewrite Hng. apply assign_gid_gids. exact Hlenr. }
      assert (Hwl : List.length withGid = List.length (add_newSylinder inp)).
      { rewrite <- (length_map gid withGid), Hwg, Hng, length_map.
        exact Hlenr. }
      destruct (Nat.eqb (List.length (add_linkage inp))
                        (List.length (add_newSylinder inp))).
      * destruct (set_links withGid withGid (add_linkage inp))
          as [linked |] eqn:E; [| discriminate].
        injection Hres as <-. destruct (set_links_gids _ _ _ _ E) as [G L].
        exists linked. repeat split; congruence.
      * destruct (Nat.eqb (List.length (add_linkage inp)) 0);
          [| discriminate].
        injection Hres as <-. exists withGid. auto.
Qed.

(** ** Further properties of the wall contacts *)

Lemma Rleb_true (a b : R) : Rleb a b = true <-> a <= b.
Proof.
  unfold Rleb. destruct (Rle_dec a b); split; intros; auto; discriminate.
Qed.

Lemma Rleb_false (a b : R) : Rleb a b = false <-> b < a.
Proof.
  unfold Rleb. destruct (Rle_dec a b); split; intros; auto; try discriminate;
    lra.
Qed.

Lemma wallSelect_Some (Pm Pp : Evec3) (distm distp : R) (colLoc : Evec3)
    (phi0 : R) :
  wallSelect Pm Pp distm distp = Some (colLoc, phi0) ->
  phi0 = Rmin distm distp /\ phi0 < 0 /\
  colLoc = spec_contactPoint Pm Pp distm distp.
Proof.
  intros H. destruct (Rlt_le_dec (Rmin distm distp) 0) as [Hneg | Hpos].
  - rewrite (wallSelect_hit _ _ _ _ Hneg) in H. injection H as <- <-. auto.
  - rewrite (wallSelect_miss _ _ _ _ Hpos) in H. discriminate.
Qed.

Lemma flat_map_all_nil {A B : Type} (f : A -> list B) (l : list A) :
  (forall x, In x l -> f x = []) -> flat_map f l = [].
Proof.
  induction l as [| x l IH]; intros H; cbn; [reflexivity |].
  rewrite (H x) by now left. apply IH. intros y Hy. apply H. now right.
Qed.

Lemma emit_nothing (pool : ConstraintBlockPool) (nLocal : nat)
    (body : nat -> list ConstraintBlock) :
  (forall i, (i < nLocal)%nat -> body i = []) ->
  omp_for_emit omp_sched nLocal body pool = pool.
Proof.
  intros H. apply nth_ext with (d := []) (d' := []).
  - apply omp_for_emit_length.
  - intros t Ht. rewrite omp_for_emit_length in Ht.
    rewrite omp_for_emit_nth by exact Ht.
    replace (flat_map body _) with (@nil ConstraintBlock);
      [apply app_nil_r |].
    symmetry. apply flat_map_all_nil.
    intros i Hi. apply H. unfold thread_iters in Hi.
    apply filter_In in Hi. destruct Hi as [Hi _]. apply in_seq in Hi. lia.
Qed.

(** X1.  Every block that collectWallCollision appends is a penetration:
    delta0 is negative and the initial gamma = -delta0 is positive; the
    point labJ lies on the wall plane straight below or above labI, and
    the block carries the rod's own gid and global index as body I. *)
Theorem wall_block_penetrating (cfg : SylinderConfig)
    (container : list Sylinder) (nThreads t : nat) (b : ConstraintBlock) :
  In b (wallAppended cfg container nThreads t) ->
  delta0 b < 0 /\ gamma b = - delta0 b /\ 0 < gamma b /\
  vx (labJ b) = vx (labI b) /\ vy (labJ b) = vy (labI b) /\
  (vz (labJ b) = vz (simBoxLow cfg) \/ vz (labJ b) = vz (simBoxHigh cfg)) /\
  exists sy, In sy container /\ gidI b = gid sy /\
             globalIndexI b = globalIndex sy /\
             posI b = vsub (labI b) (pos sy).
Proof.
  intros H. apply wallAppended_In in H.
  destruct H as [i [sy [Hi [_ [[_ Hb] | [_ Hb]]]]]].
  - unfold wallLowBlock in Hb.
    destruct (wallSelect _ _ _ _) as [[colLoc phi0] |] eqn:E;
      [| contradiction].
    apply wallSelect_Some in E. destruct E as [_ [Hneg _]].
    destruct Hb as [<- | []]. cbn.
    split; [lra |]. split; [reflexivity |]. split; [lra |].
    split; [reflexivity |]. split; [reflexivity |]. split; [now left |].
    exists sy. split; [eapply nth_error_In; eauto |].
    repeat split; reflexivity.
  - unfold wallHighBlock in Hb.
    destruct (wallSelect _ _ _ _) as [[colLoc phi0] |] eqn:E;
      [| contradiction].
    apply wallSelect_Some in E. destruct E as [_ [Hneg _]].
    destruct Hb as [<- | []]. cbn.
    split; [lra |]. split; [reflexivity |]. split; [lra |].
    split; [reflexivity |]. split; [reflexivity |]. split; [now right |].
    exists sy. split; [eapply nth_error_In; eauto |].
    repeat split; reflexivity.
Qed.

Lemma arm_of_Pm (sy : Sylinder) :
  vsub (endPm sy) (pos sy) =
  vneg (vscale (qrotate (orientation sy) ez) (lengthCollision sy * 0.5)).
Proof.
  unfold endPm, vsub, vneg, vscale. cbn [vx vy vz]. f_equal; ring.
Qed.

Lemma arm_of_Pp (sy : Sylinder) :
  vsub (endPp sy) (pos sy) =
  vscale (qrotate (orientation sy) ez) (lengthCollision sy * 0.5).
Proof.
  unfold endPp, vsub, vadd, vscale. cbn [vx vy vz]. f_equal; ring.
Qed.

Lemma arm_of_middle (sy : Sylinder) :
  vsub (vscale (vadd (endPm sy) (endPp sy)) 0.5) (pos sy) = vzero.
Proof.
  unfold endPm, endPp, vsub, vadd, vscale, vzero. cbn [vx vy vz].
  f_equal; lra.
Qed.

Lemma arm_of_contact (sy : Sylinder) (distm distp : R) :
  vsub (spec_contactPoint (endPm sy) (endPp sy) distm distp) (pos sy) =
  wallArm distm distp sy.
Proof.
  unfold spec_contactPoint, wallArm. cbv zeta.
  destruct (Rlt_dec distm distp); [apply arm_of_Pm |].
  destruct (Rlt_dec distp distm); [apply arm_of_Pp | apply arm_of_middle].
Qed.

(** X2.  The arm posI of a wall contact is half the collision length along
    the rod axis, towards the end that is nearer to the wall; when both
    ends are equally near the contact is at the centre and the arm is
    zero, so such a contact exerts no torque. *)
Theorem wall_contact_arm (wall : R) (sy : Sylinder) (b : ConstraintBlock) :
  (In b (wallLowBlock wall sy) ->
   posI b = wallArm (wallLow_distm wall sy) (wallLow_distp wall sy) sy /\
   (wallLow_distm wall sy = wallLow_distp wall sy -> posI b = vzero)) /\
  (In b (wallHighBlock wall sy) ->
   posI b = wallArm (wallHigh_distm wall sy) (wallHigh_distp wall sy) sy /\
   (wallHigh_distm wall sy = wallHigh_distp wall sy -> posI b = vzero)).
Proof.
  split; intros Hb.
  - unfold wallLowBlock in Hb.
    destruct (wallSelect _ _ _ _) as [[colLoc phi0] |] eqn:E;
      [| contradiction].
    apply wallSelect_Some in E. destruct E as [_ [_ ->]].
    destruct Hb as [<- | []]. cbn [posI ConstraintBlock_ctor].
    rewrite arm_of_contact. split; [reflexivity |].
    intros Heq. unfold wallArm. rewrite Heq.
    destruct (Rlt_dec _ _); [lra | reflexivity].
  - unfold wallHighBlock in Hb.
    destruct (wallSelect _ _ _ _) as [[colLoc phi0] |] eqn:E;
      [| contradiction].
    apply wallSelect_Some in E. destruct E as [_ [_ ->]].
    destruct Hb as [<- | []]. cbn [posI ConstraintBlock_ctor].
    rewrite arm_of_contact. split; [reflexivity |].
    intros Heq. unfold wallArm. rewrite Heq.
    destruct (Rlt_dec _ _); [lra | reflexivity].
Qed.

Lemma no_penetration_unchanged (cfg : SylinderConfig)
    (container : list Sylinder) (pool : ConstraintBlockPool) :
  (forall sy, In sy container ->
     (wallLowZ cfg = true -> 0 <= lowGap (vget (simBoxLow cfg) 2) sy) /\
     (wallHighZ cfg = true -> 0 <= highGap (vget (simBoxHigh cfg) 2) sy)) ->
  collectWallCollision cfg container pool = pool.
Proof.
  intros H. unfold collectWallCollision.
  assert (Hlow : wallLowZ cfg = true ->
            omp_for_emit omp_sched (List.length container)
              (at_body container (wallLowBlock (vget (simBoxLow cfg) 2)))
              pool = pool).
  { intros Hl. apply emit_nothing. intros i _. unfold at_body.
    destruct (nth_error container i) as [sy |] eqn:E; [| reflexivity].
    apply wallLowBlock_miss. apply (H sy); [eapply nth_error_In; eauto | ].
    exact Hl. }
  assert (Hhigh : wallHighZ cfg = true ->
            omp_for_emit omp_sched (List.length container)
              (at_body container (wallHighBlock (vget (simBoxHigh cfg) 2)))
              pool = pool).
  { intros Hh. apply emit_nothing. intros i _. unfold at_body.
    destruct (nth_error container i) as [sy |] eqn:E; [| reflexivity].
    apply wallHighBlock_miss. apply (H sy); [eapply nth_error_In; eauto | ].
    exact Hh. }
  destruct (wallLowZ cfg), (wallHighZ cfg); cbv zeta.
  - rewrite Hlow by reflexivity. now apply Hhigh.
  - now apply Hlow.
  - now apply Hhigh.
  - reflexivity.
Qed.

(** X3.  collectWallCollision leaves the collector as it is when no rod
    penetrates an enabled wall: in particular for an empty container, and
    for rods that exactly touch a wall. *)
Theorem collectWallCollision_clear_rods (cfg : SylinderConfig)
    (container : list Sylinder) (pool : ConstraintBlockPool) :
  ((forall sy, In sy container ->
      (wallLowZ cfg = true -> 0 <= lowGap (vget (simBoxLow cfg) 2) sy) /\
      (wallHighZ cfg = true -> 0 <= highGap (vget (simBoxHigh cfg) 2) sy)) ->
   collectWallCollision cfg container pool = pool) /\
  collectWallCollision cfg [] pool = pool.
Proof.
  split.
  - apply no_penetration_unchanged.
  - apply no_penetration_unchanged. intros sy [].
Qed.

(** ** setPosWithWall *)

Lemma Rmin_shift (a b d : R) : Rmin (a + d) (b + d) = Rmin a b + d.
Proof.
  unfold Rmin. destruct (Rle_dec (a + d) (b + d)), (Rle_dec a b); lra.
Qed.

Lemma ends_shift (sy : Sylinder) (d : R) :
  vget (endPm (set_pos sy (vadd (pos sy) (mkEvec3 0 0 d)))) 2 =
    vget (endPm sy) 2 + d /\
  vget (endPp (set_pos sy (vadd (pos sy) (mkEvec3 0 0 d)))) 2 =
    vget (endPp sy) 2 + d.
Proof.
  unfold endPm, endPp, set_pos, vadd, vsub, vscale.
  cbn [vget vx vy vz pos orientation lengthCollision]. split; ring.
Qed.

Lemma gaps_shift (wallBot wallTop : R) (sy : Sylinder) (d : R) :
  let sy' := set_pos sy (vadd (pos sy) (mkEvec3 0 0 d)) in
  lowGap wallBot sy' = lowGap wallBot sy + d /\
  highGap wallTop sy' = highGap wallTop sy - d.
Proof.
  cbv zeta. destruct (ends_shift sy d) as [Em Ep].
  unfold lowGap, highGap, wallLow_distm, wallLow_distp, wallHigh_distm,
    wallHigh_distp.
  rewrite Em, Ep. cbn [radius set_pos]. split.
  - rewrite <- Rmin_shift. f_equal; ring.
  - replace (Rmin (wallTop - vget (endPm sy) 2 - radius sy)
                  (wallTop - vget (endPp sy) 2 - radius sy) - d)
      with (Rmin (wallTop - vget (endPm sy) 2 - radius sy)
                 (wallTop - vget (endPp sy) 2 - radius sy) + - d) by ring.
    rewrite <- Rmin_shift. f_equal; ring.
Qed.

Lemma vsub_as_vadd (p : Evec3) (d : R) :
  vsub p (mkEvec3 0 0 d) = vadd p (mkEvec3 0 0 (- d)).
Proof. unfold vsub, vadd. cbn [vx vy vz]. f_equal; ring. Qed.

Lemma setPosLow_spec (wallBot : R) (sy : Sylinder) :
  (lowGap wallBot sy < 0 ->
   setPosLow wallBot sy =
   set_pos sy (vadd (pos sy)
                    (mkEvec3 0 0 (- lowGap wallBot sy + wall_buffer)))) /\
  (0 <= lowGap wallBot sy -> setPosLow wallBot sy = sy).
Proof.
  unfold setPosLow, lowGap, wallLow_distm, wallLow_distp. cbv zeta.
  replace (vget (endPm sy) 2 - radius sy - wallBot)
    with (vget (endPm sy) 2 - wallBot - radius sy) by ring.
  replace (vget (endPp sy) 2 - radius sy - wallBot)
    with (vget (endPp sy) 2 - wallBot - radius sy) by ring.
  set (dm := vget (endPm sy) 2 - wallBot - radius sy).
  set (dp := vget (endPp sy) 2 - wallBot - radius sy).
  unfold Rmin. destruct (Rle_dec dm dp) as [Hle | Hgt].
  - split; intros H.
    + destruct (Rlt_dec dm dp) as [Hlt | Hnlt].
      * rewrite (proj2 (Rltb_true dm dp) Hlt), (proj2 (Rltb_true dm 0) H).
        reflexivity.
      * assert (dm = dp) by lra.
        rewrite (proj2 (Rltb_false dm dp)) by lra. cbn [andb].
        rewrite (proj2 (Rleb_true dp dm)) by lra.
        rewrite (proj2 (Rltb_true dp 0)) by lra. cbn [andb].
        now replace dp with dm by lra.
    + rewrite (proj2 (Rltb_false dm 0) H), andb_false_r.
      rewrite (proj2 (Rltb_false dp 0)) by lra. now rewrite andb_false_r.
  - split; intros H.
    + rewrite (proj2 (Rltb_false dm dp)) by lra. cbn [andb].
      rewrite (proj2 (Rleb_true dp dm)) by lra.
      rewrite (proj2 (Rltb_true dp 0) H). reflexivity.
    + rewrite (proj2 (Rltb_false dm dp)) by lra. cbn [andb].
      rewrite (proj2 (Rltb_false dp 0) H). now rewrite andb_false_r.
Qed.

Lemma setPosHigh_spec (wallTop : R) (sy : Sylinder) :
  (highGap wallTop sy < 0 ->
   setPosHigh wallTop sy =
   set_pos sy (vadd (pos sy)
                    (mkEvec3 0 0 (- (- highGap wallTop sy + wall_buffer))))) /\
  (0 <= highGap wallTop sy -> setPosHigh wallTop sy = sy).
Proof.
  unfold setPosHigh, highGap, wallHigh_distm, wallHigh_distp. cbv zeta.
  replace (wallTop - (vget (endPm sy) 2 + radius sy))
    with (wallTop - vget (endPm sy) 2 - radius sy) by ring.
  replace (wallTop - (vget (endPp sy) 2 + radius sy))
    with (wallTop - vget (endPp sy) 2 - radius sy) by ring.
  set (dm := wallTop - vget (endPm sy) 2 - radius sy).
  set (dp := wallTop - vget (endPp sy) 2 - radius sy).
  rewrite !vsub_as_vadd.
  unfold Rmin. destruct (Rle_dec dm dp) as [Hle | Hgt].
  - split; intros H.
    + destruct (Rlt_dec dm dp) as [Hlt | Hnlt].
      * rewrite (proj2 (Rltb_true dm dp) Hlt), (proj2 (Rltb_true dm 0) H).
        reflexivity.
      * assert (dm = dp) by lra.
        rewrite (proj2 (Rltb_false dm dp)) by lra. cbn [andb].
        rewrite (proj2 (Rleb_true dp dm)) by lra.
        rewrite (proj2 (Rltb_true dp 0)) by lra. cbn [andb].
        now replace dp with dm by lra.
    + rewrite (proj2 (Rltb_false dm 0) H), andb_false_r.
      rewrite (proj2 (Rltb_false dp 0)) by lra. now rewrite andb_false_r.
  - split; intros H.
    + rewrite (proj2 (Rltb_false dm dp)) by lra. cbn [andb].
      rewrite (proj2 (Rleb_true dp dm)) by lra.
      rewrite (proj2 (Rltb_true dp 0) H). reflexivity.
    + rewrite (proj2 (Rltb_false dm dp)) by lra. cbn [andb].
      rewrite (proj2 (Rltb_false dp 0) H). now rewrite andb_false_r.
Qed.

Lemma wall_buffer_pos : 0 < wall_buffer.
Proof. unfold wall_buffer. lra. Qed.

(** After the loop of one wall a rod keeps its gid and stands clear of
    that wall; its gap to the other wall shrinks by what it was moved. *)
Lemma setPosLow_gaps (wallBot wallTop : R) (sy : Sylinder) :
  gid (setPosLow wallBot sy) = gid sy /\
  0 <= lowGap wallBot (setPosLow wallBot sy) /\
  lowGap wallBot (setPosLow wallBot sy) +
    highGap wallTop (setPosLow wallBot sy) =
  lowGap wallBot sy + highGap wallTop sy /\
  (lowGap wallBot sy < 0 ->
   lowGap wallBot (setPosLow wallBot sy) = wall_buffer) /\
  (0 <= lowGap wallBot sy -> setPosLow wallBot sy = sy).
Proof.
  pose proof wall_buffer_pos as Hb.
  destruct (setPosLow_spec wallBot sy) as [Hmove Hstay].
  destruct (Rlt_le_dec (lowGap wallBot sy) 0) as [Hneg | Hpos].
  - rewrite (Hmove Hneg).
    destruct (gaps_shift wallBot wallTop sy
                (- lowGap wallBot sy + wall_buffer)) as [-> ->].
    cbn [gid set_pos]. repeat split; try lra.
  - rewrite (Hstay Hpos). repeat split; try lra.
Qed.

Lemma setPosHigh_gaps (wallBot wallTop : R) (sy : Sylinder) :
  gid (setPosHigh wallTop sy) = gid sy /\
  0 <= highGap wallTop (setPosHigh wallTop sy) /\
  lowGap wallBot (setPosHigh wallTop sy) +
    highGap wallTop (setPosHigh wallTop sy) =
  lowGap wallBot sy + highGap wallTop sy /\
  (highGap wallTop sy < 0 ->
   highGap wallTop (setPosHigh wallTop sy) = wall_buffer) /\
  (0 <= highGap wallTop sy -> setPosHigh wallTop sy = sy).
Proof.
  pose proof wall_buffer_pos as Hb.
  destruct (setPosHigh_spec wallTop sy) as [Hmove Hstay].
  destruct (Rlt_le_dec (highGap wallTop sy) 0) as [Hneg | Hpos].
  - rewrite (Hmove Hneg).
    destruct (gaps_shift wallBot wallTop sy
                (- (- highGap wallTop sy + wall_buffer))) as [-> ->].
    cbn [gid set_pos]. repeat split; try lra.
  - rewrite (Hstay Hpos). repeat split; try lra.
Qed.

Lemma setPosWithWall_map (cfg : SylinderConfig) (container : list Sylinder) :
  setPosWithWall cfg container = map (setPosBody cfg) container.
Proof.
  unfold setPosWithWall, setPosBody.
  destruct (wallLowZ cfg), (wallHighZ cfg); cbv zeta;
    rewrite ?map_map, ?map_id; reflexivity.
Qed.





(** ** The bilateral pool after collectPairCollision *)

Lemma fill_kappa_spec (linkKappa_ : R) (b : ConstraintBlock) :
  0 <= linkKappa_ ->
  0 <= kappa (fill_kappa linkKappa_ b) /\
  delta0 (fill_kappa linkKappa_ b) = delta0 b /\
  gidI (fill_kappa linkKappa_ b) = gidI b /\
  gidJ (fill_kappa linkKappa_ b) = gidJ b /\
  (0 <= kappa b -> fill_kappa linkKappa_ b = b) /\
  fill_kappa linkKappa_ (fill_kappa linkKappa_ b) = fill_kappa linkKappa_ b.
Proof.
  intros Hk. destruct (Rlt_le_dec (kappa b) 0) as [Hneg | Hpos].
  - assert (E : fill_kappa linkKappa_ b =
                set_kappa_gamma b linkKappa_ (linkKappa_ * delta0 b)).
    { unfold fill_kappa. now rewrite (proj2 (Rltb_true _ _) Hneg). }
    rewrite E. cbn. repeat split; try lra.
    apply fill_kappa_set. cbn. exact Hk.
  - rewrite (fill_kappa_set _ _ Hpos). repeat split; auto.
    now apply fill_kappa_set.
Qed.

(** X6.  With a non-negative linkKappa, no block of the bilateral pool has
    a negative (unset) kappa after collectPairCollision; a block whose
    kappa was already set is left exactly as the near-neighbour pass
    emitted it, and the pool keeps its shape: as many queues, and in each
    queue as many blocks with the same delta0 and gids. *)
Theorem collectPairCollision_kappa_set (sys : SylinderSystem) :
  0 <= linkKappa (runConfig sys) ->
  let emitted :=
    snd (fst (calcForceAll (sylinderContainer sys) (uniConstraint sys)
                           (biConstraint sys))) in
  Forall2
    (Forall2 (fun b b' =>
                0 <= kappa b' /\ delta0 b' = delta0 b /\
                gidI b' = gidI b /\ gidJ b' = gidJ b /\
                (0 <= kappa b -> b' = b)))
    emitted (biConstraint (collectPairCollision sys)).
Proof.
  intros Hk emitted.
  destruct (collectPairCollision_fields sys) as [_ [_ [_ [_ ->]]]].
  fold emitted. induction emitted as [| que pool IH]; cbn; constructor.
  - induction que as [| b que IHq]; cbn; constructor.
    + destruct (fill_kappa_spec (linkKappa (runConfig sys)) b Hk)
        as [H1 [H2 [H3 [H4 [H5 _]]]]]. auto.
    + exact IHq.
  - exact IH.
Qed.

(** ** Further properties of the mobility matrix *)

Lemma mobColumns_bound (i j : nat) :
  (j < 18)%nat ->
  (6 * i <= nth j (mobColumns i) 0 < 6 * i + 6)%nat.
Proof.
  intros H. unfold mobColumns.
  do 18 (destruct j as [| j]; [cbn [nth]; lia |]). lia.
Qed.

Lemma fill_rowPointers_length (k i : nat) (rp : list nat) :
  List.length (fill_rowPointers k i rp) = List.length rp.
Proof.
  revert i rp. induction k as [| k IH]; intros i rp; cbn; [reflexivity |].
  rewrite IH. apply write_length.
Qed.

Lemma calcMobMatrix_lengths (cfg : SylinderConfig) (container : list Sylinder) :
  let n := List.length container in
  List.length (rowPointers (calcMobMatrix cfg container)) = (6 * n + 1)%nat /\
  List.length (columnIndices (calcMobMatrix cfg container)) = (18 * n)%nat /\
  List.length (values (calcMobMatrix cfg container)) = (18 * n)%nat.
Proof.
  cbv zeta. unfold calcMobMatrix. cbn [rowPointers columnIndices values].
  rewrite mob_rowPointers_nth by lia.
  destruct (mob_fold_spec (viscosity cfg) container (List.length container)
              (repeat 0%nat (3 * (List.length container * 6)))
              (repeat 0 (3 * (List.length container * 6))))
    as [L1 [L2 _]]; rewrite ?repeat_length; try lia.
  cbv zeta in L1, L2. rewrite L1, L2, !repeat_length.
  unfold mob_rowPointers.
  rewrite fill_rowPointers_length, write_length, repeat_length. lia.
Qed.

Lemma mobBlock_sym (mu : R) (sy : Sylinder) (a b : nat) :
  (a < 6)%nat -> (b < 6)%nat -> mobBlock mu sy a b = mobBlock mu sy b a.
Proof.
  intros Ha Hb.
  do 6 (destruct a as [| a]; [
    do 6 (destruct b as [| b]; [
      unfold mobBlock, MobTrans, MobRot, mget, madd, mscale, msub,
        mIdentity, outer;
      cbn [Nat.ltb Nat.leb andb Nat.sub mrow vget row0 row1 row2 vadd vsub
           sscale vx vy vz];
      ring |]); lia |]).
  lia.
Qed.

Lemma calcMobMatrix_entry_in (cfg : SylinderConfig)
    (container : list Sylinder) (i a b : nat) (sy : Sylinder) :
  nth_error container i = Some sy -> (a < 6)%nat -> (b < 6)%nat ->
  crs_entry (calcMobMatrix cfg container) (6 * i + a) (6 * i + b) =
  mobBlock (viscosity cfg) sy a b.
Proof.
  intros Hsy Ha Hb. unfold crs_entry.
  rewrite (calcMobMatrix_row cfg container i a sy Hsy Ha).
  do 6 (destruct a as [| a]; [
    do 6 (destruct b as [| b]; [
      unfold mobBlock; cbn [Nat.ltb Nat.leb andb Nat.sub];
      cbn [map fold_right fst snd nth mobColumns mobValues Nat.add Nat.mul];
      eqb_cases; ring |]); lia |]).
  lia.
Qed.

Lemma calcMobMatrix_entry_out (cfg : SylinderConfig)
    (container : list Sylinder) (i a c : nat) (sy : Sylinder) :
  nth_error container i = Some sy -> (a < 6)%nat ->
  (c < 6 * i \/ 6 * i + 6 <= c)%nat ->
  crs_entry (calcMobMatrix cfg container) (6 * i + a) c = 0.
Proof.
  intros Hsy Ha Hc. unfold crs_entry.
  rewrite (calcMobMatrix_row cfg container i a sy Hsy Ha).
  do 6 (destruct a as [| a]; [
    cbn [map fold_right fst snd nth mobColumns Nat.add Nat.mul];
    eqb_cases; reflexivity |]).
  lia.
Qed.

Lemma dof_split (r n : nat) :
  (r < 6 * n)%nat ->
  exists i a, (r = 6 * i + a /\ i < n /\ a < 6)%nat.
Proof.
  intros H. exists (r / 6)%nat, (r mod 6)%nat.
  pose proof (Nat.div_mod_eq r 6). pose proof (Nat.mod_upper_bound r 6).
  lia.
Qed.

(** X7.  The assembled mobility matrix is symmetric: the entry at
    (r, c) equals the entry at (c, r) for all degrees of freedom of the
    local rods. *)
Theorem calcMobMatrix_symmetric (cfg : SylinderConfig)
    (container : list Sylinder) (r c : nat) :
  (r < 6 * List.length container)%nat ->
  (c < 6 * List.length container)%nat ->
  crs_entry (calcMobMatrix cfg container) r c =
  crs_entry (calcMobMatrix cfg container) c r.
Proof.
  intros Hr Hc.
  destruct (dof_split r _ Hr) as [i [a [-> [Hi Ha]]]].
  destruct (dof_split c _ Hc) as [j [b [-> [Hj Hb]]]].
  destruct (nth_error container i) as [syi |] eqn:Ei.
  2:{ apply nth_error_None in Ei. lia. }
  destruct (nth_error container j) as [syj |] eqn:Ej.
  2:{ apply nth_error_None in Ej. lia. }
  destruct (Nat.eq_dec i j) as [-> | Hne].
  - rewrite Ei in Ej. injection Ej as <-.
    rewrite !(calcMobMatrix_entry_in cfg container j _ _ syi Ei) by lia.
    now apply mobBlock_sym.
  - rewrite (calcMobMatrix_entry_out cfg container i a _ syi Ei Ha) by lia.
    rewrite (calcMobMatrix_entry_out cfg container j b _ syj Ej Hb) by lia.
    reflexivity.
Qed.

(** X8.  The three arrays of the mobility matrix are a well-formed
    compressed-row matrix of 6n rows: 6n + 1 row pointers, row r starting
    at 3r, 18n column indices and 18n values, every column index below 6n,
    and every slot of the two arrays written by the loop. *)
Theorem calcMobMatrix_well_formed (cfg : SylinderConfig)
    (container : list Sylinder) :
  let M := calcMobMatrix cfg container in
  let n := List.length container in
  List.length (rowPointers M) = (6 * n + 1)%nat /\
  (forall r, (r <= 6 * n)%nat -> nth r (rowPointers M) 0%nat = (3 * r)%nat) /\
  List.length (columnIndices M) = nth (6 * n) (rowPointers M) 0%nat /\
  List.length (values M) = nth (6 * n) (rowPointers M) 0%nat /\
  (forall k, (k < 18 * n)%nat ->
     (nth k (columnIndices M) 0 < 6 * n)%nat /\
     exists i sy, nth_error container i = Some sy /\
       (18 * i <= k < 18 * i + 18)%nat /\
       nth k (columnIndices M) 0%nat = nth (k - 18 * i) (mobColumns i) 0%nat /\
       nth k (values M) 0 =
         nth (k - 18 * i) (mobValues (viscosity cfg) sy) 0).
Proof.
  cbv zeta.
  destruct (calcMobMatrix_lengths cfg container) as [L1 [L2 L3]].
  split; [exact L1 |].
  split; [intros r Hr; now apply calcMobMatrix_rowPointers |].
  rewrite calcMobMatrix_rowPointers by lia.
  split; [lia |]. split; [lia |].
  intros k Hk.
  assert (Hi : (k / 18 < List.length container)%nat)
    by (apply Nat.Div0.div_lt_upper_bound; lia).
  pose proof (Nat.div_mod_eq k 18) as Hdm.
  pose proof (Nat.mod_upper_bound k 18) as Hm.
  destruct (nth_error container (k / 18)) as [sy |] eqn:E.
  2:{ apply nth_error_None in E. lia. }
  destruct (calcMobMatrix_slots cfg container (k / 18) (k mod 18) sy E)
    as [C V]; [lia |].
  rewrite <- Hdm in C, V.
  pose proof (mobColumns_bound (k / 18) (k mod 18)) as Hb.
  split.
  - rewrite C. lia.
  - exists (k / 18)%nat, sy.
    replace (k - 18 * (k / 18))%nat with (k mod 18)%nat by lia.
    repeat split; try assumption; lia.
Qed.

(** ** The mobility operator applied to a force vector *)

Lemma crs_apply_length (m : TCMAT) (x : list R) :
  List.length (crs_apply m x) = (List.length (rowPointers m) - 1)%nat.
Proof. unfold crs_apply. now rewrite length_map, length_seq. Qed.

Lemma crs_apply_nth (m : TCMAT) (x : list R) (r : nat) :
  (r < List.length (rowPointers m) - 1)%nat ->
  nth r (crs_apply m x) 0 =
  fold_right (fun kv acc => snd kv * nth (fst kv) x 0 + acc) 0
             (crs_row_entries m r).
Proof.
  intros H. unfold crs_apply.
  set (f := fun r0 : nat => _).
  rewrite (nth_indep _ 0 (f O)) by (now rewrite length_map, length_seq).
  rewrite map_nth, seq_nth by exact H. reflexivity.
Qed.

Lemma mobility_apply_row (cfg : SylinderConfig) (container : list Sylinder)
    (x : list R) (i a : nat) (sy : Sylinder) :
  nth_error container i = Some sy -> (a < 6)%nat ->
  nth (6 * i + a) (crs_apply (calcMobMatrix cfg container) x) 0 =
  mobBlock (viscosity cfg) sy a 0 * nth (6 * i) x 0 +
  mobBlock (viscosity cfg) sy a 1 * nth (6 * i + 1) x 0 +
  mobBlock (viscosity cfg) sy a 2 * nth (6 * i + 2) x 0 +
  mobBlock (viscosity cfg) sy a 3 * nth (6 * i + 3) x 0 +
  mobBlock (viscosity cfg) sy a 4 * nth (6 * i + 4) x 0 +
  mobBlock (viscosity cfg) sy a 5 * nth (6 * i + 5) x 0.
Proof.
  intros Hsy Ha. pose proof (nth_error_Some_lt _ _ _ Hsy) as Hi.
  rewrite crs_apply_nth
    by (rewrite (proj1 (calcMobMatrix_lengths cfg container)); lia).
  rewrite (calcMobMatrix_row cfg container i a sy Hsy Ha).
  unfold mobColumns, mobValues, mobBlock.
  remember (6 * i)%nat as k eqn:Ek.
  do 6 (destruct a as [| a]; [
    cbn [Nat.ltb Nat.leb andb Nat.sub Nat.mul Nat.add map fold_right
         fst snd nth];
    ring |]).
  lia.
Qed.

Lemma mobility_apply_length (cfg : SylinderConfig)
    (container : list Sylinder) (x : list R) :
  List.length (crs_apply (calcMobMatrix cfg container) x) =
  (6 * List.length container)%nat.
Proof.
  rewrite crs_apply_length, (proj1 (calcMobMatrix_lengths cfg container)).
  lia.
Qed.

Lemma mobility_apply_trans (cfg : SylinderConfig)
    (container : list Sylinder) (x : list R) (i : nat) (sy : Sylinder) :
  nth_error container i = Some sy ->
  vec3_at (crs_apply (calcMobMatrix cfg container) x) (6 * i) =
  mvec (MobTrans (viscosity cfg) sy) (vec3_at x (6 * i)).
Proof.
  intros Hsy. unfold vec3_at.
  replace (6 * i)%nat with (6 * i + 0)%nat at 1 by lia.
  rewrite !(mobility_apply_row cfg container x i _ sy Hsy) by lia.
  unfold mvec, vdot, mobBlock, MobTrans, mget, madd, mscale, msub,
    mIdentity, outer.
  cbn [Nat.ltb Nat.leb andb Nat.sub mrow vget row0 row1 row2 vadd vsub
       sscale vx vy vz].
  f_equal; ring.
Qed.

Lemma mobility_apply_rot (cfg : SylinderConfig)
    (container : list Sylinder) (x : list R) (i : nat) (sy : Sylinder) :
  nth_error container i = Some sy ->
  vec3_at (crs_apply (calcMobMatrix cfg container) x) (6 * i + 3) =
  sscale (1 / dragRot (viscosity cfg) sy) (vec3_at x (6 * i + 3)).
Proof.
  intros Hsy. unfold vec3_at.
  replace (6 * i + 3 + 1)%nat with (6 * i + 4)%nat by lia.
  replace (6 * i + 3 + 2)%nat with (6 * i + 5)%nat by lia.
  rewrite !(mobility_apply_row cfg container x i _ sy Hsy) by lia.
  unfold sscale, mobBlock, MobRot, mget, madd, mscale, msub,
    mIdentity, outer.
  cbn [Nat.ltb Nat.leb andb Nat.sub mrow vget row0 row1 row2 vadd vsub
       sscale vx vy vz].
  f_equal; ring.
Qed.

(** X9.  Applying the assembled mobility matrix to a force vector acts on
    every rod by itself: the translational velocity of rod i is
    MobTrans times the force on rod i, and its angular velocity is the
    torque on rod i divided by dragRot; the forces on other rods do not
    enter. *)
Theorem mobility_apply_block (cfg : SylinderConfig)
    (container : list Sylinder) (x : list R) (i : nat) (sy : Sylinder) :
  nth_error container i = Some sy ->
  let y := crs_apply (calcMobMatrix cfg container) x in
  List.length y = (6 * List.length container)%nat /\
  vec3_at y (6 * i) =
    mvec (MobTrans (viscosity cfg) sy) (vec3_at x (6 * i)) /\
  vec3_at y (6 * i + 3) =
    sscale (1 / dragRot (viscosity cfg) sy) (vec3_at x (6 * i + 3)).
Proof.
  intros Hsy y. subst y. split; [| split].
  - apply mobility_apply_length.
  - apply mobility_apply_trans. exact Hsy.
  - apply mobility_apply_rot. exact Hsy.
Qed.

(** ** calcVelocityNonCon *)

Lemma vec_update_length (alpha beta : R) (A this : list R) :
  List.length A = List.length this ->
  List.length (vec_update alpha A beta this) = List.length this.
Proof.
  intros H. unfold vec_update. rewrite length_map, length_combine. lia.
Qed.

Lemma vec_update_nth (alpha beta : R) (A this : list R) (k : nat) :
  List.length A = List.length this -> (k < List.length this)%nat ->
  nth k (vec_update alpha A beta this) 0 =
  alpha * nth k A 0 + beta * nth k this 0.
Proof.
  intros H Hk. unfold vec_update.
  set (f := fun p : R * R => _).
  rewrite (nth_indep _ 0 (f (0, 0)))
    by (rewrite length_map, length_combine; lia).
  rewrite map_nth, combine_nth by exact H. reflexivity.
Qed.

Lemma opt_update_spec (o : option (list R)) (v1 : list R) (m : nat) :
  List.length v1 = m ->
  (forall v, o = Some v -> List.length v = m) ->
  let v2 := match o with
            | Some v => vec_update 1 v 1 v1
            | None => v1
            end in
  List.length v2 = m /\
  forall k, (k < m)%nat -> nth k v2 0 = nth k v1 0 + opt_at o k.
Proof.
  intros H1 Ho. destruct o as [v |]; cbv zeta.
  - specialize (Ho v eq_refl). split.
    + rewrite vec_update_length; congruence.
    + intros k Hk. rewrite vec_update_nth by congruence.
      cbn [opt_at]. ring.
  - split; [exact H1 |]. intros k Hk. cbn [opt_at]. ring.
Qed.

(** X10.  With a force vector set and the mobility matrix of
    calcMobMatrix as operator, calcVelocityNonCon gives, for every rod,
    velNonB = MobTrans F + V and omegaNonB = T / dragRot + W, where
    (F, T) is the force and torque on the rod and (V, W) its entries in
    velocityNonBrown (zero for a null pointer).  The velocityNonCon vector
    is the written-back velocity plus the Brownian velocity: the Brownian
    part reaches the vector, not the rod's velNonB. *)
Theorem calcVelocityNonCon_bodies (cfg : SylinderConfig)
    (container : list Sylinder) (vi : VelocityInputs) (force : list R)
    (i : nat) (sy : Sylinder) :
  let n := List.length container in
  let mu := viscosity cfg in
  mobilityOperator vi = Some (calcMobMatrix cfg container) ->
  forcePartNonBrown vi = Some force ->
  List.length force = (6 * n)%nat ->
  (forall v, velocityNonBrown vi = Some v -> List.length v = (6 * n)%nat) ->
  (forall v, velocityBrown vi = Some v -> List.length v = (6 * n)%nat) ->
  nth_error container i = Some sy ->
  exists velocityNonCon written,
    calcVelocityNonCon n vi = Some (velocityNonCon, written) /\
    List.length velocityNonCon = (6 * n)%nat /\
    List.length written = n /\
    let velNonB := fst (nth i written (vzero, vzero)) in
    let omegaNonB := snd (nth i written (vzero, vzero)) in
    velNonB = vadd (mvec (MobTrans mu sy) (vec3_at force (6 * i)))
                   (ovec3_at (velocityNonBrown vi) (6 * i)) /\
    omegaNonB = vadd (sscale (1 / dragRot mu sy) (vec3_at force (6 * i + 3)))
                     (ovec3_at (velocityNonBrown vi) (6 * i + 3)) /\
    vec3_at velocityNonCon (6 * i) =
      vadd velNonB (ovec3_at (velocityBrown vi) (6 * i)) /\
    vec3_at velocityNonCon (6 * i + 3) =
      vadd omegaNonB (ovec3_at (velocityBrown vi) (6 * i + 3)).
Proof.
  intros n mu Hmob Hforce Hlen Hnb Hbr Hsy.
  pose proof (nth_error_Some_lt _ _ _ Hsy) as Hi. fold n in Hi.
  pose proof (mobility_apply_length cfg container force) as L1.
  pose proof (mobility_apply_trans cfg container force i sy Hsy) as T1.
  pose proof (mobility_apply_rot cfg container force i sy Hsy) as R1.
  fold n in L1. fold mu in T1, R1.
  set (v1 := crs_apply (calcMobMatrix cfg container) force) in *.
  destruct (opt_update_spec (velocityNonBrown vi) v1 (6 * n) L1 Hnb)
    as [L2 N2].
  set (v2 := match velocityNonBrown vi with
             | Some v => vec_update 1 v 1 v1
             | None => v1
             end) in *.
  destruct (opt_update_spec (velocityBrown vi) v2 (6 * n) L2 Hbr)
    as [L3 N3].
  set (v3 := match velocityBrown vi with
             | Some v => vec_update 1 v 1 v2
             | None => v2
             end) in *.
  exists v3,
    (map (fun j => (vec3_at v2 (6 * j), vec3_at v2 (6 * j + 3))) (seq 0 n)).
  split.
  { unfold calcVelocityNonCon. rewrite Hforce, Hmob. reflexivity. }
  split; [exact L3 |]. split; [now rewrite length_map, length_seq |].
  cbv zeta.
  set (f := fun j : nat => _).
  rewrite (nth_indep _ (vzero, vzero) (f O))
    by (now rewrite length_map, length_seq).
  rewrite map_nth, seq_nth by exact Hi. subst f. cbn [fst snd Nat.add].
  assert (E2 : forall k, (k + 2 < 6 * n)%nat ->
            vec3_at v2 k = vadd (vec3_at v1 k)
                                (ovec3_at (velocityNonBrown vi) k)).
  { intros k Hk. unfold vec3_at, ovec3_at, vadd. cbn [vx vy vz].
    rewrite !N2 by lia. reflexivity. }
  assert (E3 : forall k, (k + 2 < 6 * n)%nat ->
            vec3_at v3 k = vadd (vec3_at v2 k)
                                (ovec3_at (velocityBrown vi) k)).
  { intros k Hk. unfold vec3_at, ovec3_at, vadd. cbn [vx vy vz].
    rewrite !N3 by lia. reflexivity. }
  rewrite !E3, !E2 by lia. rewrite T1, R1. repeat split; reflexivity.
Qed.

(** X11.  calcVelocityNonCon never reads the vector that
    setVelocityNonBrown stores: calling setVelocityNonBrown before it
    changes nothing in its result.  With a force vector but no mobility
    operator it stops on the failed assertion; with no vector set at all
    it gives the zero velocity to every rod. *)
Theorem calcVelocityNonCon_inputs (nLocal : nat) (vi : VelocityInputs) :
  (forall velNonBrown vi',
     setVelocityNonBrown nLocal vi velNonBrown = Some vi' ->
     calcVelocityNonCon nLocal vi' = calcVelocityNonCon nLocal vi) /\
  (forcePartNonBrown vi <> None -> mobilityOperator vi = None ->
   calcVelocityNonCon nLocal vi = None) /\
  (forcePartNonBrown vi = None -> velocityNonBrown vi = None ->
   velocityBrown vi = None ->
   calcVelocityNonCon nLocal vi =
   Some (repeat 0 (6 * nLocal), repeat (vzero, vzero) nLocal)).
Proof.
  split; [| split].
  - intros v vi' H. unfold setVelocityNonBrown in H.
    destruct (Nat.eqb _ _); [| discriminate]. injection H as <-.
    reflexivity.
  - intros Hf Hm. unfold calcVelocityNonCon. rewrite Hm.
    destruct (forcePartNonBrown vi); [reflexivity | contradiction].
  - intros Hf Hn Hb. unfold calcVelocityNonCon. rewrite Hf, Hn, Hb.
    f_equal. f_equal.
    apply nth_ext with (d := (vzero, vzero)) (d' := (vzero, vzero)).
    + now rewrite length_map, length_seq, repeat_length.
    + intros k Hk. rewrite length_map, length_seq in Hk.
      set (f := fun j : nat => _).
      rewrite (nth_indep _ (vzero, vzero) (f O))
        by (now rewrite length_map, length_seq).
      rewrite map_nth, seq_nth by exact Hk. subst f. cbn [Nat.add].
      rewrite nth_repeat. unfold vec3_at, vzero. now rewrite !nth_repeat.
Qed.

(** ** getMaxGid *)

Lemma maxGidLocal_attained (container : list Sylinder) (m : Z) :
  fold_left (fun m sy => Z.max m (gid sy)) container m = m \/
  exists sy, In sy container /\
    gid sy = fold_left (fun m sy => Z.max m (gid sy)) container m.
Proof.
  revert m. induction container as [| sy c IH]; intros m; cbn [fold_left].
  - now left.
  - destruct (IH (Z.max m (gid sy))) as [E | [sy' [Hin E]]].
    + rewrite E. destruct (Z.max_spec m (gid sy)) as [[_ Hm] | [_ Hm]].
      * right. exists sy. split; [now left | now rewrite Hm].
      * now left.
    + right. exists sy'. split; [now right | exact E].
Qed.

Lemma fold_max_attained (zs : list Z) (m : Z) :
  fold_left Z.max zs m = m \/ In (fold_left Z.max zs m) zs.
Proof.
  revert m. induction zs as [| z zs IH]; intros m; cbn [fold_left].
  - now left.
  - destruct (IH (Z.max m z)) as [E | Hin].
    + rewrite E. destruct (Z.max_spec m z) as [[_ Hm] | [_ Hm]].
      * right. left. now rewrite Hm.
      * now left.
    + right. now right.
Qed.

(** X12.  getMaxGid returns the largest gid of the rank and of all ranks,
    with 0 as floor: both values are non-negative, the local one is at
    most the global one, no rod has a larger gid, and each value is 0 or
    the gid of a rod.  So maxGidGlobal + 1 is a gid that no rod has. *)
Theorem getMaxGid_bounds (containers : list (list Sylinder)) (rank : nat) :
  let local := fst (getMaxGid containers rank) in
  let global := snd (getMaxGid containers rank) in
  (0 <= local <= global)%Z /\
  (forall sy, In sy (nth rank containers []) -> (gid sy <= local)%Z) /\
  (forall c sy, In c containers -> In sy c -> (gid sy < global + 1)%Z) /\
  (local = 0%Z \/
   exists sy, In sy (nth rank containers []) /\ gid sy = local) /\
  (global = 0%Z \/
   exists c sy, In c containers /\ In sy c /\ gid sy = global).
Proof.
  cbv zeta. unfold getMaxGid. cbn [fst snd].
  destruct (maxGidGlobal_bound containers) as [G0 Gle].
  destruct (maxGidLocal_from (nth rank containers []) 0) as [L0 Lle].
  fold (maxGidLocal (nth rank containers [])) in L0, Lle.
  split; [split; [exact L0 |] | split; [exact Lle | split; [| split]]].
  - destruct (Nat.lt_ge_cases rank (List.length containers)) as [Hr | Hr].
    + unfold maxGidGlobal.
      apply (proj2 (fold_max_from (map maxGidLocal containers) 0)).
      apply in_map. now apply nth_In.
    + rewrite nth_overflow by exact Hr. exact G0.
  - intros c sy Hc Hsy. specialize (Gle c sy Hc Hsy). lia.
  - pose proof (maxGidLocal_attained (nth rank containers []) 0) as H.
    fold (maxGidLocal (nth rank containers [])) in H. exact H.
  - destruct (fold_max_attained (map maxGidLocal containers) 0) as [E | Hin];
      fold (maxGidGlobal containers) in *.
    + now left.
    +      apply in_map_iff in Hin. destruct Hin as [c [Ec Hc]].
      destruct (maxGidLocal_attained c 0) as [E0 | [sy [Hsy E1]]].
      * left. fold (maxGidLocal c) in E0. congruence.
      * right. exists c, sy. fold (maxGidLocal c) in E1.
        split; [exact Hc |]. split; [exact Hsy | congruence].
Qed.

(** ** calcBoundingBox *)

Lemma pow2_ge_1 (n : nat) : 1 <= 2 ^ n.
Proof.
  induction n as [| n IH]; cbn [pow]; lra.
Qed.

Lemma DBL_MIN_pos : 0 < DBL_MIN.
Proof.
  unfold DBL_MIN. apply Rinv_0_lt_compat.
  pose proof (pow2_ge_1 1022) as H. lra.
Qed.

Lemma DBL_MIN_le_1 : DBL_MIN <= 1.
Proof.
  unfold DBL_MIN. pose proof (pow2_ge_1 1022) as H.
  generalize dependent (2 ^ 1022). intros x H.
  rewrite <- Rinv_1. apply Rinv_le_contravar; lra.
Qed.

Lemma pow2_S_ge_2 (n : nat) : 2 <= 2 ^ S n.
Proof.
  pose proof (pow2_ge_1 n) as H. cbn [pow]. lra.
Qed.

Lemma DBL_MAX_ge_2 : 2 <= DBL_MAX.
Proof.
  unfold DBL_MAX. pose proof (pow2_S_ge_2 1022) as H.
  pose proof (pow2_ge_1 52) as H52.
  change (2 ^ S 1022) with (2 ^ 1023) in H.
  generalize dependent (2 ^ 1023). intros x H.
  generalize dependent (2 ^ 52). intros y Hy.
  assert (Hi : / y <= 1) by (rewrite <- Rinv_1; apply Rinv_le_contravar; lra).
  assert (0 <= (1 - / y) * (x - 2)) by (apply Rmult_le_pos; lra).
  nra.
Qed.

Lemma fold_min_spec (f g : Sylinder -> R) (c : list Sylinder) (m : R) :
  let r := fold_left (fun m sy => Rmin (Rmin m (f sy)) (g sy)) c m in
  r <= m /\
  (forall sy, In sy c -> r <= f sy /\ r <= g sy) /\
  (r = m \/ exists sy, In sy c /\ (r = f sy \/ r = g sy)).
Proof.
  cbv zeta. revert m. induction c as [| sy c IH]; intros m; cbn [fold_left].
  - split; [lra |]. split; [intros sy [] | now left].
  - destruct (IH (Rmin (Rmin m (f sy)) (g sy))) as [H1 [H2 H3]].
    pose proof (Rmin_l (Rmin m (f sy)) (g sy)) as A1.
    pose proof (Rmin_r (Rmin m (f sy)) (g sy)) as A2.
    pose proof (Rmin_l m (f sy)) as A3.
    pose proof (Rmin_r m (f sy)) as A4.
    split; [lra |]. split.
    + intros sy' [<- | Hin]; [split; lra | exact (H2 sy' Hin)].
    + destruct H3 as [E | [sy' [Hin E]]].
      * rewrite E. unfold Rmin.
        destruct (Rle_dec m (f sy)); destruct (Rle_dec _ (g sy));
          first [ now left
                | right; exists sy; split; [now left | auto] ].
      * right. exists sy'. split; [now right | exact E].
Qed.

Lemma fold_max_spec (f g : Sylinder -> R) (c : list Sylinder) (m : R) :
  let r := fold_left (fun m sy => Rmax (Rmax m (f sy)) (g sy)) c m in
  m <= r /\
  (forall sy, In sy c -> f sy <= r /\ g sy <= r) /\
  (r = m \/ exists sy, In sy c /\ (r = f sy \/ r = g sy)).
Proof.
  cbv zeta. revert m. induction c as [| sy c IH]; intros m; cbn [fold_left].
  - split; [lra |]. split; [intros sy [] | now left].
  - destruct (IH (Rmax (Rmax m (f sy)) (g sy))) as [H1 [H2 H3]].
    pose proof (Rmax_l (Rmax m (f sy)) (g sy)) as A1.
    pose proof (Rmax_r (Rmax m (f sy)) (g sy)) as A2.
    pose proof (Rmax_l m (f sy)) as A3.
    pose proof (Rmax_r m (f sy)) as A4.
    split; [lra |]. split.
    + intros sy' [<- | Hin]; [split; lra | exact (H2 sy' Hin)].
    + destruct H3 as [E | [sy' [Hin E]]].
      * rewrite E. unfold Rmax.
        destruct (Rle_dec m (f sy)); destruct (Rle_dec _ (g sy));
          first [ now left
                | right; exists sy; split; [now left | auto] ].
      * right. exists sy'. split; [now right | exact E].
Qed.

Lemma boxFold_get (c : list Sylinder) (init : Evec3 * Evec3) (k : nat) :
  vget (fst (fold_left boxStep c init)) k =
    fold_left (fun m sy => Rmin (Rmin m (vget (boxPm sy) k))
                                (vget (boxPp sy) k))
              c (vget (fst init) k) /\
  vget (snd (fold_left boxStep c init)) k =
    fold_left (fun m sy => Rmax (Rmax m (vget (boxPm sy) k))
                                (vget (boxPp sy) k))
              c (vget (snd init) k).
Proof.
  revert init. induction c as [| sy c IH]; intros init; cbn [fold_left].
  - split; reflexivity.
  - destruct (IH (boxStep init sy)) as [E1 E2]. rewrite E1, E2.
    destruct k as [| [| k]]; split; reflexivity.
Qed.

Lemma boxLocal_get (c : list Sylinder) (k : nat) :
  vget (fst (boxLocal c)) k =
    fold_left (fun m sy => Rmin (Rmin m (vget (boxPm sy) k))
                                (vget (boxPp sy) k)) c DBL_MAX /\
  vget (snd (boxLocal c)) k =
    fold_left (fun m sy => Rmax (Rmax m (vget (boxPm sy) k))
                                (vget (boxPp sy) k)) c DBL_MIN.
Proof.
  unfold boxLocal.
  destruct (boxFold_get c (mkEvec3 DBL_MAX DBL_MAX DBL_MAX,
                           mkEvec3 DBL_MIN DBL_MIN DBL_MIN) k) as [E1 E2].
  rewrite E1, E2. destruct k as [| [| k]]; split; reflexivity.
Qed.

Lemma vmin_get (a b : Evec3) (k : nat) :
  vget (vmin a b) k = Rmin (vget a k) (vget b k).
Proof. destruct k as [| [| k]]; reflexivity. Qed.

Lemma vmax_get (a b : Evec3) (k : nat) :
  vget (vmax a b) k = Rmax (vget a k) (vget b k).
Proof. destruct k as [| [| k]]; reflexivity. Qed.

Lemma reduce_min_le (vs : list Evec3) (own : Evec3) (k : nat) :
  vget (fold_right vmin own vs) k <= vget own k /\
  forall v, In v vs -> vget (fold_right vmin own vs) k <= vget v k.
Proof.
  induction vs as [| v0 vs [IH1 IH2]]; cbn [fold_right].
  - split; [lra | intros v []].
  - rewrite vmin_get.
    pose proof (Rmin_l (vget v0 k) (vget (fold_right vmin own vs) k)).
    pose proof (Rmin_r (vget v0 k) (vget (fold_right vmin own vs) k)).
    split; [lra |]. intros v [<- | Hin]; [lra |].
    specialize (IH2 v Hin). lra.
Qed.

Lemma reduce_max_ge (vs : list Evec3) (own : Evec3) (k : nat) :
  vget own k <= vget (fold_right vmax own vs) k /\
  forall v, In v vs -> vget v k <= vget (fold_right vmax own vs) k.
Proof.
  induction vs as [| v0 vs [IH1 IH2]]; cbn [fold_right].
  - split; [lra | intros v []].
  - rewrite vmax_get.
    pose proof (Rmax_l (vget v0 k) (vget (fold_right vmax own vs) k)).
    pose proof (Rmax_r (vget v0 k) (vget (fold_right vmax own vs) k)).
    split; [lra |]. intros v [<- | Hin]; [lra |].
    specialize (IH2 v Hin). lra.
Qed.

(** X13.  The boxes of calcBoundingBox contain the rods: along every axis
    both ends of a rod lie between localLow and localHigh of its own rank,
    and between globalLow and globalHigh as computed on any rank; the
    global box contains every local box. *)
Theorem calcBoundingBox_contains (containers : list (list Sylinder))
    (rank rank' : nat) (c' : list Sylinder) (sy : Sylinder) (k : nat) :
  nth_error containers rank' = Some c' -> In sy c' ->
  let bb := calcBoundingBox containers rank in
  let bb' := calcBoundingBox containers rank' in
  vget (globalLow bb) k <= vget (localLow bb') k /\
  vget (localLow bb') k <= vget (boxPm sy) k /\
  vget (localLow bb') k <= vget (boxPp sy) k /\
  vget (boxPm sy) k <= vget (localHigh bb') k /\
  vget (boxPp sy) k <= vget (localHigh bb') k /\
  vget (localHigh bb') k <= vget (globalHigh bb) k /\
  vget (globalLow bb) k <= vget (localLow bb) k /\
  vget (localHigh bb) k <= vget (globalHigh bb) k.
Proof.
  intros Hc Hsy bb bb'. subst bb bb'. unfold calcBoundingBox.
  cbn [localLow localHigh globalLow globalHigh].
  rewrite (nth_error_nth _ _ [] Hc).
  destruct (boxLocal_get c' k) as [El Eh].
  destruct (fold_min_spec (fun sy => vget (boxPm sy) k)
              (fun sy => vget (boxPp sy) k) c' DBL_MAX) as [_ [Hl _]].
  destruct (fold_max_spec (fun sy => vget (boxPm sy) k)
              (fun sy => vget (boxPp sy) k) c' DBL_MIN) as [_ [Hh _]].
  cbv beta in Hl, Hh. rewrite <- El in Hl. rewrite <- Eh in Hh.
  destruct (Hl sy Hsy) as [L1 L2]. destruct (Hh sy Hsy) as [H1 H2].
  set (own := boxLocal (nth rank containers [])).
  destruct (reduce_min_le (map fst (map boxLocal containers)) (fst own) k)
    as [M0 M].
  destruct (reduce_max_ge (map snd (map boxLocal containers)) (snd own) k)
    as [N0 N].
  assert (Hin : In (boxLocal c') (map boxLocal containers)).
  { apply in_map. eapply nth_error_In. exact Hc. }
  split; [apply M; now apply in_map |].
  split; [exact L1 |]. split; [exact L2 |].
  split; [exact H1 |]. split; [exact H2 |].
  split; [apply N; now apply in_map |].
  split; [exact M0 | exact N0].
Qed.

(** X14.  The upper corner of the box starts from the smallest positive
    double, not from the most negative one: localHigh and globalHigh are
    never below DBL_MIN > 0 on any axis.  The upper face is at an end of a
    rod exactly when some end has a coordinate of at least DBL_MIN;
    when all ends of the local rods lie below DBL_MIN on an axis (for
    instance at negative coordinates) localHigh is DBL_MIN there, above
    every rod.  The lower face is at an end of a rod or at DBL_MAX, and
    for an empty rank the box is inverted: low = DBL_MAX > high =
    DBL_MIN. *)
Theorem calcBoundingBox_high_floor (containers : list (list Sylinder))
    (rank : nat) (k : nat) :
  let c := nth rank containers [] in
  let bb := calcBoundingBox containers rank in
  0 < DBL_MIN /\
  DBL_MIN <= vget (localHigh bb) k /\
  DBL_MIN <= vget (globalHigh bb) k /\
  vget (localLow bb) k <= DBL_MAX /\
  ((forall sy, In sy c ->
      vget (boxPm sy) k < DBL_MIN /\ vget (boxPp sy) k < DBL_MIN) ->
   vget (localHigh bb) k = DBL_MIN) /\
  ((exists sy, In sy c /\
      (DBL_MIN <= vget (boxPm sy) k \/ DBL_MIN <= vget (boxPp sy) k)) ->
   exists sy, In sy c /\
     (vget (localHigh bb) k = vget (boxPm sy) k \/
      vget (localHigh bb) k = vget (boxPp sy) k)) /\
  (vget (localLow bb) k = DBL_MAX \/
   exists sy, In sy c /\
     (vget (localLow bb) k = vget (boxPm sy) k \/
      vget (localLow bb) k = vget (boxPp sy) k)) /\
  (c = [] ->
   vget (localLow bb) k = DBL_MAX /\ vget (localHigh bb) k = DBL_MIN /\
   vget (localHigh bb) k < vget (localLow bb) k).
Proof.
  intros c bb. subst bb. unfold calcBoundingBox.
  cbn [localLow localHigh globalLow globalHigh]. fold c.
  destruct (boxLocal_get c k) as [El Eh].
  destruct (fold_min_spec (fun sy => vget (boxPm sy) k)
              (fun sy => vget (boxPp sy) k) c DBL_MAX) as [Hl0 [Hl Hla]].
  destruct (fold_max_spec (fun sy => vget (boxPm sy) k)
              (fun sy => vget (boxPp sy) k) c DBL_MIN) as [Hh0 [Hh Hha]].
  cbv beta in Hl0, Hl, Hla, Hh0, Hh, Hha.
  rewrite <- El in Hl0, Hl, Hla. rewrite <- Eh in Hh0, Hh, Hha.
  destruct (reduce_max_ge (map snd (map boxLocal containers))
              (snd (boxLocal c)) k) as [N0 _].
  pose proof DBL_MIN_pos as Hpos.
  split; [exact Hpos |]. split; [exact Hh0 |]. split; [lra |].
  split; [exact Hl0 |]. split; [| split; [| split]].
  - intros Hall. destruct Hha as [E | [sy [Hin E]]]; [exact E |].
    destruct (Hall sy Hin) as [B1 B2]. destruct E as [E | E]; lra.
  - intros [sy [Hin Hge]]. destruct Hha as [E | Hatt]; [| exact Hatt].
    exists sy. split; [exact Hin |]. destruct (Hh sy Hin) as [B1 B2].
    destruct Hge as [Hge | Hge]; [left | right]; lra.
  - exact Hla.
  - intros Hc. rewrite El, Eh, Hc. cbn [fold_left]. split; [reflexivity |]. split; [reflexivity |].
    pose proof DBL_MIN_le_1. pose proof DBL_MAX_ge_2. lra.
Qed.

(** ** calcOrderParameter *)

Lemma vdot_bound (a b : Evec3) (ma mb : R) :
  0 <= ma -> 0 <= mb ->
  squaredNorm a <= ma * ma -> squaredNorm b <= mb * mb ->
  vdot a b <= ma * mb.
Proof.
  intros Ha Hb Sa Sb. destruct a as [a1 a2 a3], b as [b1 b2 b3].
  unfold squaredNorm, vdot in *. cbn [vx vy vz] in *.
  set (d := a1 * b1 + a2 * b2 + a3 * b3).
  assert (L : d * d <=
              (a1 * a1 + a2 * a2 + a3 * a3) * (b1 * b1 + b2 * b2 + b3 * b3)).
  { pose proof (Rle_0_sqr (a1 * b2 - a2 * b1)) as P1.
    pose proof (Rle_0_sqr (a2 * b3 - a3 * b2)) as P2.
    pose proof (Rle_0_sqr (a3 * b1 - a1 * b3)) as P3.
    unfold Rsqr in P1, P2, P3. subst d. nra. }
  assert (U : (a1 * a1 + a2 * a2 + a3 * a3) * (b1 * b1 + b2 * b2 + b3 * b3)
              <= (ma * ma) * (mb * mb)).
  { apply Rmult_le_compat; try assumption; nra. }
  assert (P : 0 <= ma * mb) by (apply Rmult_le_pos; assumption).
  destruct (Rle_lt_dec d (ma * mb)) as [Hle | Hgt]; [exact Hle |].
  exfalso. assert (ma * mb * (ma * mb) < d * d) by nra. nra.
Qed.

Lemma order_inv_zero : order_inv 0 (vzero, mZero).
Proof.
  split; [| split].
  - intros [| [| i]] [| [| j]]; reflexivity.
  - cbn. lra.
  - unfold squaredNorm, vdot. cbn. lra.
Qed.

Lemma order_inv_add (m1 m2 : nat) (a b : Evec3 * Emat3) :
  order_inv m1 a -> order_inv m2 b -> order_inv (m1 + m2) (order_add a b).
Proof.
  intros [S1 [T1 N1]] [S2 [T2 N2]]. unfold order_add. cbn [fst snd].
  split; [| split].
  - intros i j. specialize (S1 i j). specialize (S2 i j).
    destruct a as [pa [[a00 a01 a02] [a10 a11 a12] [a20 a21 a22]]].
    destruct b as [pb [[b00 b01 b02] [b10 b11 b12] [b20 b21 b22]]].
    destruct i as [| [| i]]; destruct j as [| [| j]];
      cbn in S1, S2 |- *; lra.
  - destruct a as [pa [[a00 a01 a02] [a10 a11 a12] [a20 a21 a22]]].
    destruct b as [pb [[b00 b01 b02] [b10 b11 b12] [b20 b21 b22]]].
    cbn in T1, T2 |- *. lra.
  - rewrite plus_INR.
    pose proof (pos_INR m1) as P1. pose proof (pos_INR m2) as P2.
    pose proof (vdot_bound (fst a) (fst b) (INR m1) (INR m2) P1 P2 N1 N2)
      as D.
    destruct a as [[a1 a2 a3] qa], b as [[b1 b2 b3] qb].
    unfold squaredNorm, vdot, vadd in *. cbn [fst snd vx vy vz] in *.
    nra.
Qed.

Lemma order_inv_term (sy : Sylinder) :
  qx (orientation sy) * qx (orientation sy) +
  qy (orientation sy) * qy (orientation sy) +
  qz (orientation sy) * qz (orientation sy) +
  qw (orientation sy) * qw (orientation sy) = 1 ->
  order_inv 1 (order_term sy).
Proof.
  intros Hq. pose proof (axis_unit (orientation sy) Hq) as Hu.
  unfold order_term. cbv zeta. set (d := qrotate (orientation sy) ez) in *.
  destruct d as [d1 d2 d3]. unfold squaredNorm, vdot in Hu.
  cbn [vx vy vz] in Hu.
  split; [| split]; cbn [fst snd].
  - intros [| [| i]] [| [| j]]; cbn; lra.
  - cbn. lra.
  - unfold squaredNorm, vdot. cbn [vx vy vz INR]. lra.
Qed.

Lemma order_aligned_zero (d : Evec3) : order_aligned d 0 (vzero, mZero).
Proof.
  split; cbn [fst snd INR].
  - unfold sscale, vzero. f_equal; ring.
  - unfold mscale, sscale, mZero, vzero. f_equal; f_equal; ring.
Qed.

Lemma order_aligned_add (d : Evec3) (m1 m2 : nat) (a b : Evec3 * Emat3) :
  order_aligned d m1 a -> order_aligned d m2 b ->
  order_aligned d (m1 + m2) (order_add a b).
Proof.
  intros [P1 Q1] [P2 Q2]. unfold order_add.
  split; cbn [fst snd]; rewrite plus_INR.
  - rewrite P1, P2. unfold vadd, sscale. cbn [vx vy vz]. f_equal; ring.
  - rewrite Q1, Q2. unfold madd, mscale, vadd, sscale.
    cbn [row0 row1 row2 vx vy vz]. f_equal; f_equal; ring.
Qed.

Lemma order_aligned_term (d : Evec3) (sy : Sylinder) :
  qrotate (orientation sy) ez = d -> order_aligned d 1 (order_term sy).
Proof.
  intros <-. unfold order_term. cbv zeta.
  split; cbn [fst snd INR].
  - unfold sscale. destruct (qrotate (orientation sy) ez). cbn [vx vy vz].
    f_equal; ring.
  - unfold mscale, sscale. destruct (orderQ (qrotate (orientation sy) ez))
      as [[a b c] [d e f] [g h i]].
    cbn [row0 row1 row2 vx vy vz]. f_equal; f_equal; ring.
Qed.

(** Sums keep a property that is additive in the number of rods. *)
Lemma order_local_keeps (P : nat -> Evec3 * Emat3 -> Prop)
    (Padd : forall m1 m2 a b, P m1 a -> P m2 b -> P (m1 + m2)%nat
                                                    (order_add a b))
    (c : list Sylinder) (m : nat) (acc : Evec3 * Emat3) :
  (forall sy, In sy c -> P 1%nat (order_term sy)) ->
  P m acc ->
  P (m + List.length c)%nat
    (fold_left (fun acc sy => order_add acc (order_term sy)) c acc).
Proof.
  revert m acc. induction c as [| sy c IH]; intros m acc Hall Hacc;
    cbn [fold_left List.length].
  - now rewrite Nat.add_0_r.
  - replace (m + S (List.length c))%nat
      with ((m + 1) + List.length c)%nat by lia.
    apply IH.
    + intros sy' Hin. apply Hall. now right.
    + apply Padd; [exact Hacc | apply Hall; now left].
Qed.

Lemma order_global_keeps (P : nat -> Evec3 * Emat3 -> Prop)
    (Padd : forall m1 m2 a b, P m1 a -> P m2 b -> P (m1 + m2)%nat
                                                    (order_add a b))
    (containers : list (list Sylinder)) (m : nat) (acc : Evec3 * Emat3) :
  P 0%nat (vzero, mZero) ->
  (forall c sy, In c containers -> In sy c -> P 1%nat (order_term sy)) ->
  P m acc ->
  P (m + nGlobal containers)%nat
    (fold_left order_add (map order_local containers) acc).
Proof.
  intros P0. revert m acc.
  induction containers as [| c cs IH]; intros m acc Hall Hacc;
    unfold nGlobal; cbn [map fold_left list_sum fold_right].
  - now rewrite Nat.add_0_r.
  - fold (list_sum (map (@List.length Sylinder) cs)). fold (nGlobal cs).
    replace (m + (List.length c + nGlobal cs))%nat
      with ((m + (0 + List.length c)) + nGlobal cs)%nat by lia.
    apply IH.
    + intros c' sy Hc' Hsy. apply (Hall c' sy); [now right | exact Hsy].
    + apply Padd; [exact Hacc |]. unfold order_local.
      apply order_local_keeps; [exact Padd | | exact P0].
      intros sy Hsy. apply (Hall c sy); [now left | exact Hsy].
Qed.

(** X15.  For rods with unit orientation quaternions (at least one rod in
    all), the order parameters that calcOrderParameter prints are those of
    a nematic: the Q tensor is symmetric and traceless and the polar
    vector p has norm at most 1.  When every rod points along the same
    direction d, p = d and Q = d d^T - I/3. *)
Theorem calcOrderParameter_tensor (containers : list (list Sylinder)) :
  (0 < nGlobal containers)%nat ->
  (forall c sy, In c containers -> In sy c ->
     qx (orientation sy) * qx (orientation sy) +
     qy (orientation sy) * qy (orientation sy) +
     qz (orientation sy) * qz (orientation sy) +
     qw (orientation sy) * qw (orientation sy) = 1) ->
  let p := fst (calcOrderParameter containers) in
  let Q := snd (calcOrderParameter containers) in
  (forall i j, mget Q i j = mget Q j i) /\
  mget Q 0 0 + mget Q 1 1 + mget Q 2 2 = 0 /\
  squaredNorm p <= 1 /\
  (forall d,
     (forall c sy, In c containers -> In sy c ->
        qrotate (orientation sy) ez = d) ->
     p = d /\ Q = orderQ d).
Proof.
  intros Hn Hq p Q. subst p Q. unfold calcOrderParameter. cbv zeta.
  cbn [fst snd].
  set (n := nGlobal containers) in *.
  set (sums := fold_left order_add (map order_local containers)
                         (vzero, mZero)).
  assert (HN : 0 < INR n) by (apply lt_0_INR; exact Hn).
  assert (Hinv : order_inv n sums).
  { change n with (0 + n)%nat. apply order_global_keeps.
    - exact order_inv_add.
    - exact order_inv_zero.
    - intros c sy Hc Hsy. apply order_inv_term. exact (Hq c sy Hc Hsy).
    - exact order_inv_zero. }
  destruct Hinv as [Hs [Ht Hp]].
  assert (Hal : forall d,
            (forall c sy, In c containers -> In sy c ->
               qrotate (orientation sy) ez = d) ->
            order_aligned d n sums).
  { intros d Hd. change n with (0 + n)%nat. apply order_global_keeps.
    - exact (order_aligned_add d).
    - exact (order_aligned_zero d).
    - intros c sy Hc Hsy. apply order_aligned_term. exact (Hd c sy Hc Hsy).
    - exact (order_aligned_zero d). }
  set (s := 1 / INR n).
  assert (Es : s * INR n = 1) by (unfold s; field; lra).
  assert (Hs0 : 0 < s) by (unfold s; apply Rdiv_lt_0_compat; lra).
  destruct sums as [[p1 p2 p3] [[a00 a01 a02] [a10 a11 a12] [a20 a21 a22]]].
  cbn [fst snd] in *.
  split; [| split; [| split]].
  - intros i j. specialize (Hs i j).
    destruct i as [| [| i]]; destruct j as [| [| j]];
      cbn in Hs |- *; try reflexivity; rewrite Hs; reflexivity.
  - cbn in Ht |- *. nra.
  - unfold squaredNorm, vdot, sscale in *. cbn [vx vy vz] in *.
    assert (E : s * p1 * (s * p1) + s * p2 * (s * p2) + s * p3 * (s * p3) =
                s * s * (p1 * p1 + p2 * p2 + p3 * p3)) by ring.
    rewrite E.
    assert (s * s * (p1 * p1 + p2 * p2 + p3 * p3) <=
            s * s * (INR n * INR n)).
    { apply Rmult_le_compat_l; [nra | exact Hp]. }
    replace (s * s * (INR n * INR n)) with ((s * INR n) * (s * INR n)) in H
      by ring.
    rewrite Es in H. lra.
  - intros d Hd.
    destruct (Hal d Hd) as [Ep Eq]. cbn [fst snd] in Ep, Eq.
    split.
    + rewrite Ep. unfold sscale. destruct d as [d1 d2 d3].
      cbn [vx vy vz]. f_equal; rewrite <- Rmult_assoc, Es; ring.
    + rewrite Eq. destruct (orderQ d) as [[b00 b01 b02] [b10 b11 b12]
                                           [b20 b21 b22]].
      unfold mscale, sscale. cbn [row0 row1 row2 vx vy vz].
      f_equal; f_equal; rewrite <- Rmult_assoc, Es; ring.
Qed.

(** ** collectLinkBilateral: failure, shape and success *)

Lemma linkStep2_que_length (kappa_ : R) (container : list Sylinder)
    (index : list (Z * nat)) (data : list SylinderNearEP)
    (cQue cQue' : ConstraintBlockQue) (f f' : nat) :
  linkStep2_que kappa_ container index data cQue f = Some (cQue', f') ->
  List.length cQue' = List.length cQue /\
  forall b, In b cQue -> globalIndexJ b = GEO_INVALID_INDEX ->
            gid_find index (gidI b) <> None.
Proof.
  revert cQue' f f'. induction cQue as [| block cQue IH];
    intros cQue' f f' H; cbn in H.
  - injection H as <- _. split; [reflexivity | intros b []].
  - destruct (linkStep2_block _ _ _ _ block f) as [[block1 f1] |] eqn:E1;
      [| discriminate].
    destruct (linkStep2_que _ _ _ _ cQue f1) as [[rest f2] |] eqn:E2;
      [| discriminate].
    injection H as <- _. destruct (IH _ _ _ E2) as [IHl IHi].
    split; [cbn [List.length]; now rewrite IHl |].
    intros b [<- | Hin] Hg; [| now apply IHi].
    unfold linkStep2_block in E1. rewrite Hg, Z.eqb_refl in E1.
    destruct (gid_find index (gidI block)); [discriminate | discriminate E1].
Qed.

Lemma linkStep2_pool_length (kappa_ : R) (container : list Sylinder)
    (index : list (Z * nat)) (data : list SylinderNearEP)
    (cPool cPool' : ConstraintBlockPool) (f f' : nat) :
  linkStep2_pool kappa_ container index data cPool f = Some (cPool', f') ->
  map (@List.length ConstraintBlock) cPool' =
    map (@List.length ConstraintBlock) cPool /\
  forall que b, In que cPool -> In b que ->
                globalIndexJ b = GEO_INVALID_INDEX ->
                gid_find index (gidI b) <> None.
Proof.
  revert cPool' f f'. induction cPool as [| que cPool IH];
    intros cPool' f f' H; cbn in H.
  - injection H as <- _. split; [reflexivity | intros que b []].
  - destruct (linkStep2_que _ _ _ _ que f) as [[que1 f1] |] eqn:E1;
      [| discriminate].
    destruct (linkStep2_pool _ _ _ _ cPool f1) as [[rest f2] |] eqn:E2;
      [| discriminate].
    injection H as <- _. destruct (IH _ _ _ E2) as [IHl IHi].
    destruct (linkStep2_que_length _ _ _ _ _ _ _ _ E1) as [Hl Hi].
    split; [cbn [map]; now rewrite IHl, Hl |].
    intros que' b [<- | Hin] Hb Hg; [now apply (Hi b) | now apply (IHi que' b)].
Qed.

Lemma thread_iters_In (nThreads nLocal t i : nat) :
  In i (thread_iters omp_sched nThreads nLocal t) <->
  (i < nLocal)%nat /\ omp_sched nThreads nLocal i = t.
Proof.
  unfold thread_iters. rewrite filter_In, in_seq, Nat.eqb_eq. lia.
Qed.

Lemma linkStep1_remote (kappa_ : R) (container : list Sylinder)
    (index : list (Z * nat)) (syI : Sylinder) :
  next (link syI) <> GEO_INVALID_INDEX ->
  gid_find index (next (link syI)) = None ->
  exists b, linkStep1 kappa_ container index syI = [b] /\
            globalIndexJ b = GEO_INVALID_INDEX /\ gidI b = gid syI /\
            gidJ b = next (link syI).
Proof.
  intros Hn Hf. unfold linkStep1.
  destruct (Z.eqb_spec (next (link syI)) GEO_INVALID_INDEX) as [E | _];
    [contradiction |].
  rewrite Hf. eexists. split; [reflexivity |]. repeat split.
Qed.

(** C5 (amended).  For a body I with a next link, step 1 of
    collectLinkBilateral emits exactly one block.  When the next gid is
    found in sylinderGidIndex, at the local body J, the block has
    delta0 = |P - Q| - (rI + rJ)(1 + 0.05) with P the head of I and Q the
    tail of J, gamma = -kappa delta0, kappa = linkKappa,
    normI = (P - Q) / |P - Q| (a unit vector when P and Q differ),
    normJ = -normI and oneSide = false; it is in the queue of the thread
    that runs I, after step 1 and when the function returns, and no block
    of the returned pool is oneSide.  That I and J are on the same rank
    is not enough: when the next gid is not in sylinderGidIndex the block
    is a placeholder with delta0 = 0 and gamma = 0 that names no global
    index for J, and if the gid of I is not in the index either the
    function does not return. *)
Theorem collectLinkBilateral_local_link (cfg : SylinderConfig)
    (container : list Sylinder) (index : list (Z * nat))
    (cPool : ConstraintBlockPool) (i : nat) (syI : Sylinder) :
  nth_error container i = Some syI ->
  next (link syI) <> GEO_INVALID_INDEX ->
  let kappa_ := linkKappa cfg in
  let t := omp_sched (List.length cPool) (List.length container) i in
  (forall j syJ,
     gid_find index (next (link syI)) = Some j ->
     nth_error container j = Some syJ ->
     let P := linkHead syI in
     let Q := linkTail syJ in
     exists b,
       at_body container (linkStep1 kappa_ container index) i = [b] /\
       delta0 b = norm (vsub P Q) - (radius syI + radius syJ) * (1 + 0.05) /\
       gamma b = - (kappa_ * delta0 b) /\
       kappa b = kappa_ /\
       normI b = vdivs (vsub P Q) (norm (vsub P Q)) /\
       (P <> Q -> norm (normI b) = 1) /\
       normJ b = vneg (normI b) /\
       oneSide b = false /\
       gidI b = gid syI /\ gidJ b = gid syJ /\
       ((t < List.length cPool)%nat ->
        In b (nth t (collectLinkBilateral_step1 cfg container index cPool)
                  [])) /\
       (forall cPool',
          collectLinkBilateral cfg container index cPool = Some cPool' ->
          ((t < List.length cPool)%nat ->
           globalIndex syJ <> GEO_INVALID_INDEX -> In b (nth t cPool' [])) /\
          (forall que b', In que cPool' -> In b' que -> oneSide b' = false))) /\
  (gid_find index (next (link syI)) = None ->
   exists p,
     at_body container (linkStep1 kappa_ container index) i = [p] /\
     delta0 p = 0 /\ gamma p = 0 /\ kappa p = ctor_kappa /\
     oneSide p = false /\
     gidI p = gid syI /\ gidJ p = next (link syI) /\
     globalIndexJ p = GEO_INVALID_INDEX /\
     (gid_find index (gid syI) = None -> (t < List.length cPool)%nat ->
      collectLinkBilateral cfg container index cPool = None)).
Proof.
  intros HI Hnext kappa_ t. split.
  - intros j syJ Hfind HJ P Q.
    pose proof (linkBlock_fields kappa_ (gid syI) (gid syJ) (globalIndex syI)
                  (globalIndex syJ) (pos syI) (qrotate (orientation syI) ez)
                  (length syI) (radius syI) (pos syJ)
                  (qrotate (orientation syJ) ez) (length syJ) (radius syJ))
      as F. cbv zeta in F.
    set (b := linkBlock _ _ _ _ _ _ _ _ _ _ _ _ _) in F.
    destruct F as [F1 [F2 [F3 [F4 [F5 [F6 [F7 [F8 [F9 [F10 _]]]]]]]]]].
    assert (Hemit : at_body container (linkStep1 kappa_ container index) i
                    = [b]).
    { unfold at_body. rewrite HI. unfold linkStep1.
      destruct (Z.eqb_spec (next (link syI)) GEO_INVALID_INDEX) as [E | _];
        [contradiction |].
      rewrite Hfind, HJ. reflexivity. }
    assert (Hstep1 : (t < List.length cPool)%nat ->
              In b (nth t (collectLinkBilateral_step1 cfg container index
                                                      cPool) [])).
    { intros Ht. rewrite collectLinkBilateral_step1_nth by exact Ht.
      apply in_flat_map. exists i. split.
      - apply thread_iters_In. split; [| reflexivity].
        eapply nth_error_Some_lt; eauto.
      - fold kappa_. rewrite Hemit. now left. }
    exists b.
    split; [exact Hemit |]. split; [exact F1 |]. split; [exact F2 |].
    split; [exact F3 |]. split; [exact F4 |].
    split.
    { intros Hne. rewrite F4. apply norm_normalized.
      now apply squaredNorm_pos. }
    split; [exact F5 |]. split; [exact F6 |]. split; [exact F7 |].
    split; [exact F8 |]. split; [exact Hstep1 |].
    intros cPool' H. split.
    + intros Ht Hgi. unfold collectLinkBilateral in H.
      destruct (linkStep2_pool _ _ _ _ _ 0) as [[cPool2 f2] |] eqn:E;
        [| discriminate].
      injection H as <-.
      apply (proj1 (linkStep2_pool_spec _ _ _ _ _ _ _ _ E)).
      * now apply Hstep1.
      * now rewrite F10.
    + intros que b' Hq Hb'. unfold collectLinkBilateral in H.
      destruct (linkStep2_pool _ _ _ _ _ 0) as [[cPool2 f2] |] eqn:E;
        [| discriminate].
      injection H as <-.
      apply (proj2 (linkStep2_pool_spec _ _ _ _ _ _ _ _ E)) with (que := que);
        try assumption.
      intros que0 b0. apply collectLinkBilateral_step1_oneSide.
  - intros Hfind.
    assert (Hemit : exists p,
              linkStep1 kappa_ container index syI = [p] /\
              delta0 p = 0 /\ gamma p = 0 /\ kappa p = ctor_kappa /\
              oneSide p = false /\ gidI p = gid syI /\
              gidJ p = next (link syI) /\
              globalIndexJ p = GEO_INVALID_INDEX).
    { unfold linkStep1.
      destruct (Z.eqb_spec (next (link syI)) GEO_INVALID_INDEX) as [E | _];
        [contradiction |].
      rewrite Hfind. eexists. split; [reflexivity |].
      repeat split. }
    destruct Hemit as [p [Ep [D [G [K [O [GI [GJ GG]]]]]]]].
    assert (Hbody : at_body container (linkStep1 kappa_ container index) i
                    = [p])
      by (unfold at_body; now rewrite HI).
    exists p.
    split; [exact Hbody |]. split; [exact D |]. split; [exact G |].
    split; [exact K |]. split; [exact O |]. split; [exact GI |].
    split; [exact GJ |]. split; [exact GG |].
    intros Hown Ht.
    destruct (collectLinkBilateral cfg container index cPool) as [cPool' |]
      eqn:E; [exfalso | reflexivity].
    unfold collectLinkBilateral in E. cbv zeta in E.
    destruct (linkStep2_pool _ _ _ _ _ _) as [[cPool2 f2] |] eqn:E2;
      [| discriminate].
    destruct (linkStep2_pool_length _ _ _ _ _ _ _ _ E2) as [_ Hidx].
    apply (Hidx (nth t (collectLinkBilateral_step1 cfg container index cPool)
                     []) p).
    + apply nth_In. unfold collectLinkBilateral_step1.
      now rewrite omp_for_emit_length, length_map.
    + rewrite collectLinkBilateral_step1_nth by exact Ht.
      apply in_flat_map. exists i. split.
      * apply thread_iters_In. split; [| reflexivity].
        eapply nth_error_Some_lt; eauto.
      * fold kappa_. rewrite Hbody. now left.
    + exact GG.
    + now rewrite GI.
Qed.

(** X16.  collectLinkBilateral needs sylinderGidIndex: for a rod with a
    next link, if neither the gid of the next rod nor the rod's own gid is
    in sylinderGidIndex (as for an index that was never filled), the call
    ends in std::exit on "sylinderGidIndex Error 1" and returns no
    constraints. *)
Theorem collectLinkBilateral_no_index (cfg : SylinderConfig)
    (container : list Sylinder) (index : list (Z * nat))
    (cPool : ConstraintBlockPool) (i : nat) (syI : Sylinder) :
  nth_error container i = Some syI ->
  next (link syI) <> GEO_INVALID_INDEX ->
  gid_find index (next (link syI)) = None ->
  gid_find index (gid syI) = None ->
  (omp_sched (List.length cPool) (List.length container) i
   < List.length cPool)%nat ->
  collectLinkBilateral cfg container index cPool = None.
Proof.
  intros Hi Hn Hnext Hown Ht.
  destruct (collectLinkBilateral cfg container index cPool) as [cPool' |]
    eqn:E; [exfalso | reflexivity].
  unfold collectLinkBilateral in E. cbv zeta in E.
  destruct (linkStep2_pool _ _ _ _ _ _) as [[cPool2 f2] |] eqn:E2;
    [| discriminate].
  destruct (linkStep2_pool_length _ _ _ _ _ _ _ _ E2) as [_ Hidx].
  destruct (linkStep1_remote (linkKappa cfg) container index syI Hn Hnext)
    as [b [Eb [Hg [HgI _]]]].
  set (t := omp_sched (List.length cPool) (List.length container) i) in *.
  apply (Hidx (nth t (collectLinkBilateral_step1 cfg container index cPool)
                   []) b).
  - apply nth_In. unfold collectLinkBilateral_step1.
    now rewrite omp_for_emit_length, length_map.
  - rewrite collectLinkBilateral_step1_nth by exact Ht.
    apply in_flat_map. exists i. split.
    + apply thread_iters_In. split; [| reflexivity].
      eapply nth_error_Some_lt; eauto.
    + unfold at_body. rewrite Hi, Eb. now left.
  - exact Hg.
  - now rewrite HgI.
Qed.

Lemma list_sum_map_add {A : Type} (f g : A -> nat) (l : list A) :
  list_sum (map (fun x => f x + g x)%nat l) =
  (list_sum (map f l) + list_sum (map g l))%nat.
Proof.
  unfold list_sum. induction l as [| x l IH]; cbn [map fold_right];
    [reflexivity | rewrite IH; lia].
Qed.

Lemma list_sum_indicator (s v a n : nat) :
  list_sum (map (fun t => if Nat.eqb s t then v else 0%nat) (seq a n)) =
  if Nat.leb a s && Nat.ltb s (a + n) then v else 0%nat.
Proof.
  unfold list_sum. revert a. induction n as [| n IH]; intros a;
    cbn [seq map fold_right].
  - destruct (Nat.leb_spec a s); destruct (Nat.ltb_spec s (a + 0));
      cbn [andb]; try reflexivity; lia.
  - rewrite IH.
    destruct (Nat.eqb_spec s a); destruct (Nat.leb_spec (S a) s);
      destruct (Nat.ltb_spec s (S a + n)); destruct (Nat.leb_spec a s);
      destruct (Nat.ltb_spec s (a + S n)); cbn [andb]; lia.
Qed.

(** What the threads of a team emit together is what the iterations
    emit, when every iteration goes to a thread of the team. *)
Lemma thread_partition_length (nThreads nLocal : nat)
    (body : nat -> list ConstraintBlock) (l : list nat) :
  (forall i, In i l ->
     (omp_sched nThreads nLocal i < nThreads)%nat) ->
  list_sum
    (map (fun t =>
            List.length
              (flat_map body
                 (filter (fun i => Nat.eqb (omp_sched nThreads nLocal i) t)
                         l)))
         (seq 0 nThreads)) =
  List.length (flat_map body l).
Proof.
  induction l as [| i l IH]; intros Hs.
  - cbn [filter flat_map List.length].
    unfold list_sum. induction (seq 0 nThreads) as [| t ts IHt];
      cbn [map fold_right]; [reflexivity | exact IHt].
  - cbn [flat_map]. rewrite length_app.
    rewrite (map_ext _
      (fun t =>
         ((if Nat.eqb (omp_sched nThreads nLocal i) t
           then List.length (body i) else 0) +
          List.length
            (flat_map body
               (filter (fun i0 => Nat.eqb (omp_sched nThreads nLocal i0) t)
                       l)))%nat)).
    + rewrite list_sum_map_add, list_sum_indicator.
      rewrite IH by (intros i' Hin; apply Hs; now right).
      specialize (Hs i (or_introl eq_refl)).
      destruct (Nat.leb_spec 0 (omp_sched nThreads nLocal i));
        destruct (Nat.ltb_spec (omp_sched nThreads nLocal i) (0 + nThreads));
        cbn [andb]; lia.
    + intros t. cbn [filter]. destruct (Nat.eqb _ t); cbn [flat_map];
        [now rewrite length_app | reflexivity].
Qed.

Lemma concat_length_sum {A : Type} (l : list (list A)) :
  List.length (concat l) = list_sum (map (@List.length A) l).
Proof.
  unfold list_sum. induction l as [| x l IH]; cbn [concat map fold_right];
    [reflexivity | now rewrite length_app, IH].
Qed.

Lemma flat_map_at_body_from (f : Sylinder -> list ConstraintBlock)
    (c pre : list Sylinder) :
  flat_map (at_body (pre ++ c) f) (seq (List.length pre) (List.length c)) =
  flat_map f c.
Proof.
  revert pre. induction c as [| x c IH]; intros pre;
    cbn [List.length seq flat_map]; [reflexivity |].
  f_equal.
  - unfold at_body. rewrite nth_error_app2 by lia.
    now rewrite Nat.sub_diag.
  - specialize (IH (pre ++ [x])).
    rewrite <- app_assoc, length_app in IH. cbn [app List.length] in IH.
    rewrite Nat.add_1_r in IH. exact IH.
Qed.

Lemma flat_map_at_body (f : Sylinder -> list ConstraintBlock)
    (container : list Sylinder) :
  flat_map (at_body container f) (seq 0 (List.length container)) =
  flat_map f container.
Proof. exact (flat_map_at_body_from f container []). Qed.

Lemma flat_map_length_filter {A B : Type} (f : A -> list B) (p : A -> bool)
    (l : list A) :
  (forall x, In x l -> List.length (f x) = if p x then 1%nat else 0%nat) ->
  List.length (flat_map f l) = List.length (filter p l).
Proof.
  induction l as [| x l IH]; intros H; cbn [flat_map filter];
    [reflexivity |].
  rewrite length_app, IH by (intros y Hy; apply H; now right).
  rewrite (H x (or_introl eq_refl)).
  destruct (p x); reflexivity.
Qed.

Lemma linkStep1_length (kappa_ : R) (container : list Sylinder)
    (index : list (Z * nat)) (syI : Sylinder) :
  (forall g j, gid_find index g = Some j ->
               (j < List.length container)%nat) ->
  List.length (linkStep1 kappa_ container index syI) =
  if negb (Z.eqb (next (link syI)) GEO_INVALID_INDEX) then 1%nat else 0%nat.
Proof.
  intros Hidx. unfold linkStep1.
  destruct (Z.eqb (next (link syI)) GEO_INVALID_INDEX); [reflexivity |].
  destruct (gid_find index (next (link syI))) as [j |] eqn:Ej;
    [| reflexivity].
  destruct (nth_error container j) eqn:En; [reflexivity |].
  apply nth_error_None in En. specialize (Hidx _ _ Ej). lia.
Qed.

Lemma collectLinkBilateral_step1_eq (cfg : SylinderConfig)
    (container : list Sylinder) (index : list (Z * nat))
    (cPool : ConstraintBlockPool) :
  collectLinkBilateral_step1 cfg container index cPool =
  map (fun t =>
         flat_map (at_body container
                     (linkStep1 (linkKappa cfg) container index))
                  (thread_iters omp_sched (List.length cPool)
                                (List.length container) t))
      (seq 0 (List.length cPool)).
Proof.
  apply nth_ext with (d := []) (d' := []).
  - unfold collectLinkBilateral_step1.
    now rewrite omp_for_emit_length, !length_map, length_seq.
  - intros t Ht. unfold collectLinkBilateral_step1 in Ht.
    rewrite omp_for_emit_length, length_map in Ht.
    rewrite collectLinkBilateral_step1_nth by exact Ht.
    set (g := fun t0 : nat => _).
    rewrite (nth_indep _ [] (g O))
      by (now rewrite length_map, length_seq).
    rewrite map_nth, seq_nth by exact Ht. reflexivity.
Qed.

(** X17.  collectLinkBilateral starts from empty queues: its result
    depends on the number of queues of the bilateral collector only, not
    on the blocks these held, which are lost.  When it returns (every
    iteration run by a thread of the team, every position of
    sylinderGidIndex inside the container), the collector has as many
    queues as before and holds exactly one block for each local rod that
    has a next link. *)
Theorem collectLinkBilateral_shape (cfg : SylinderConfig)
    (container : list Sylinder) (index : list (Z * nat))
    (cPool cPool' : ConstraintBlockPool) :
  (forall i, (i < List.length container)%nat ->
     (omp_sched (List.length cPool) (List.length container) i
      < List.length cPool)%nat) ->
  (forall g j, gid_find index g = Some j ->
               (j < List.length container)%nat) ->
  collectLinkBilateral cfg container index cPool = Some cPool' ->
  List.length cPool' = List.length cPool /\
  List.length (concat cPool') = List.length (linkedRods container) /\
  forall cPool0, List.length cPool0 = List.length cPool ->
    collectLinkBilateral cfg container index cPool0 = Some cPool'.
Proof.
  intros Hs Hidx H.
  assert (Hdrop : forall cPool0, List.length cPool0 = List.length cPool ->
            collectLinkBilateral cfg container index cPool0 = Some cPool').
  { intros cPool0 Hl. rewrite <- H. unfold collectLinkBilateral.
    rewrite !collectLinkBilateral_step1_eq, Hl. reflexivity. }
  unfold collectLinkBilateral in H. cbv zeta in H.
  destruct (linkStep2_pool _ _ _ _ _ _) as [[cPool2 f2] |] eqn:E2;
    [| discriminate].
  injection H as <-.
  destruct (linkStep2_pool_length _ _ _ _ _ _ _ _ E2) as [Hlen _].
  split; [| split; [| exact Hdrop]].
  - apply (f_equal (@List.length nat)) in Hlen.
    rewrite !length_map in Hlen.
    transitivity (List.length
                    (collectLinkBilateral_step1 cfg container index cPool));
      [exact Hlen |].
    unfold collectLinkBilateral_step1.
    now rewrite omp_for_emit_length, length_map.
  - rewrite !concat_length_sum, Hlen, collectLinkBilateral_step1_eq.
    rewrite map_map. unfold thread_iters.
    rewrite thread_partition_length
      by (intros i Hi; apply Hs; apply in_seq in Hi; lia).
    rewrite flat_map_at_body. unfold linkedRods.
    apply flat_map_length_filter. intros sy _.
    now apply linkStep1_length.
Qed.

Lemma skipn_cons_nth {A : Type} (l : list A) (f : nat) (d : A)
    (tl : list A) :
  skipn f l = d :: tl -> nth_error l f = Some d /\ skipn (S f) l = tl.
Proof.
  revert l. induction f as [| f IH]; intros l H.
  - cbn in H. subst l. split; reflexivity.
  - destruct l as [| x l]; [discriminate |]. cbn [skipn] in H.
    destruct (IH l H) as [H1 H2]. split; [exact H1 | exact H2].
Qed.

Lemma linkStep1_blocks (kappa_ : R) (container : list Sylinder)
    (index : list (Z * nat)) (syI : Sylinder) (b : ConstraintBlock) :
  In b (linkStep1 kappa_ container index syI) ->
  gidI b = gid syI /\
  (globalIndexJ b <> GEO_INVALID_INDEX -> link_fields kappa_ b).
Proof.
  unfold linkStep1. intros H.
  destruct (Z.eqb _ _); [contradiction |].
  destruct (gid_find _ _) as [j |].
  - destruct (nth_error container j) as [syJ |]; [| contradiction].
    destruct H as [<- | []].
    pose proof (linkBlock_fields kappa_ (gid syI) (gid syJ)
                  (globalIndex syI) (globalIndex syJ) (pos syI)
                  (qrotate (orientation syI) ez) (length syI) (radius syI)
                  (pos syJ) (qrotate (orientation syJ) ez) (length syJ)
                  (radius syJ)) as F.
    cbv zeta in F.
    destruct F as [_ [F2 [F3 [_ [F5 [F6 [F7 _]]]]]]].
    split; [exact F7 |]. intros _. unfold link_fields. auto.
  - destruct H as [<- | []]. split; [reflexivity |].
    intros Hne. exfalso. apply Hne. reflexivity.
Qed.

Lemma linkStep2_que_ok (kappa_ : R) (container : list Sylinder)
    (index : list (Z * nat)) (data : list SylinderNearEP)
    (cQue : ConstraintBlockQue) (f : nat) (rest : list Z) :
  (forall b, In b cQue ->
     (exists iI syI, gid_find index (gidI b) = Some iI /\
                     nth_error container iI = Some syI) /\
     (globalIndexJ b <> GEO_INVALID_INDEX -> link_fields kappa_ b)) ->
  map ep_gid (skipn f data) = queToFind cQue ++ rest ->
  exists cQue' f',
    linkStep2_que kappa_ container index data cQue f = Some (cQue', f') /\
    map ep_gid (skipn f' data) = rest /\
    forall b', In b' cQue' -> link_fields kappa_ b'.
Proof.
  revert f. induction cQue as [| block cQue IH]; intros f Hall Hmap.
  - exists [], f. split; [reflexivity |]. split; [exact Hmap | intros b' []].
  - destruct (Hall block (or_introl eq_refl)) as [[iI [syI [Hf Hn]]] Hlink].
    assert (Hall' : forall b, In b cQue ->
       (exists iI syI, gid_find index (gidI b) = Some iI /\
                       nth_error container iI = Some syI) /\
       (globalIndexJ b <> GEO_INVALID_INDEX -> link_fields kappa_ b))
      by (intros b Hb; apply Hall; now right).
    unfold queToFind in Hmap. cbn [flat_map] in Hmap.
    fold (queToFind cQue) in Hmap.
    cbn [linkStep2_que]. unfold linkStep2_block.
    destruct (Z.eqb_spec (globalIndexJ block) GEO_INVALID_INDEX) as [Eg | Eg].
    + cbn [app] in Hmap.
      destruct (skipn f data) as [| d tl] eqn:Es; [discriminate |].
      cbn [map] in Hmap. injection Hmap as Hd Htl.
      destruct (skipn_cons_nth data f d tl Es) as [Hnth Hsk].
      rewrite Hf, Hn, Hnth, Hd, Z.eqb_refl. cbn [negb].
      destruct (IH (S f) Hall') as [cQue' [f' [E [Hm Hq]]]].
      { rewrite Hsk. exact Htl. }
      rewrite E. eexists. exists f'. split; [reflexivity |].
      split; [exact Hm |].
      intros b' [<- | Hin]; [| now apply Hq].
      pose proof (linkBlock_fields kappa_ (gid syI) (gidJ block)
                    (globalIndex syI) (ep_globalIndex d) (pos syI)
                    (qrotate (orientation syI) ez) (length syI) (radius syI)
                    (ep_pos d) (ep_direction d) (ep_length d)
                    (ep_radius d)) as F.
      cbv zeta in F.
      destruct F as [_ [F2 [F3 [_ [F5 [F6 _]]]]]].
      unfold link_fields. auto.
    + destruct (IH f Hall' Hmap) as [cQue' [f' [E [Hm Hq]]]].
      rewrite E. eexists. exists f'. split; [reflexivity |].
      split; [exact Hm |].
      intros b' [<- | Hin]; [now apply Hlink | now apply Hq].
Qed.

Lemma linkStep2_pool_ok (kappa_ : R) (container : list Sylinder)
    (index : list (Z * nat)) (data : list SylinderNearEP)
    (cPool : ConstraintBlockPool) (f : nat) (rest : list Z) :
  (forall que b, In que cPool -> In b que ->
     (exists iI syI, gid_find index (gidI b) = Some iI /\
                     nth_error container iI = Some syI) /\
     (globalIndexJ b <> GEO_INVALID_INDEX -> link_fields kappa_ b)) ->
  map ep_gid (skipn f data) = gidToFind cPool ++ rest ->
  exists cPool' f',
    linkStep2_pool kappa_ container index data cPool f = Some (cPool', f') /\
    map ep_gid (skipn f' data) = rest /\
    forall que' b', In que' cPool' -> In b' que' -> link_fields kappa_ b'.
Proof.
  revert f. induction cPool as [| que cPool IH]; intros f Hall Hmap.
  - exists [], f. split; [reflexivity |].
    split; [exact Hmap | intros que' b' []].
  - unfold gidToFind in Hmap. cbn [flat_map] in Hmap.
    fold (queToFind que) in Hmap. fold (gidToFind cPool) in Hmap.
    rewrite <- app_assoc in Hmap.
    destruct (linkStep2_que_ok kappa_ container index data que f
                (gidToFind cPool ++ rest)) as [que' [f1 [E1 [Hm1 Hq1]]]].
    { intros b Hb. apply (Hall que b); [now left | exact Hb]. }
    { exact Hmap. }
    destruct (IH f1) as [cPool' [f2 [E2 [Hm2 Hq2]]]].
    { intros q b Hq Hb. apply (Hall q b); [now right | exact Hb]. }
    { exact Hm1. }
    cbn [linkStep2_pool]. rewrite E1, E2.
    eexists. exists f2. split; [reflexivity |]. split; [exact Hm2 |].
    intros q' b' [<- | Hin] Hb'; [now apply Hq1 | now apply (Hq2 q' b')].
Qed.

(** X18.  When sylinderGidIndex holds every local rod at a position
    inside the container and the directory answers the requested gids in
    the order of the request, collectLinkBilateral returns without exit,
    and every block it leaves in the collector is a complete link block:
    kappa = linkKappa, gamma = -kappa * delta0, normJ = -normI and
    oneSide = false.  No placeholder of step 1 survives. *)
Theorem collectLinkBilateral_complete (cfg : SylinderConfig)
    (container : list Sylinder) (index : list (Z * nat))
    (cPool : ConstraintBlockPool) :
  (forall sy, In sy container ->
     exists j syj, gid_find index (gid sy) = Some j /\
                   nth_error container j = Some syj) ->
  (let gids := gidToFind (collectLinkBilateral_step1 cfg container index
                                                      cPool) in
   map ep_gid (zdd_find gids) = gids) ->
  exists cPool',
    collectLinkBilateral cfg container index cPool = Some cPool' /\
    forall que b, In que cPool' -> In b que ->
                  link_fields (linkKappa cfg) b.
Proof.
  intros Hidx Hdir. cbv zeta in Hdir.
  unfold collectLinkBilateral. cbv zeta.
  set (pool1 := collectLinkBilateral_step1 cfg container index cPool) in *.
  destruct (linkStep2_pool_ok (linkKappa cfg) container index
              (zdd_find (gidToFind pool1)) pool1 0 [])
    as [cPool' [f' [E [_ Hq]]]].
  - intros que b Hque Hb. subst pool1.
    apply In_nth with (d := []) in Hque. destruct Hque as [t [Ht <-]].
    unfold collectLinkBilateral_step1 in Ht.
    rewrite omp_for_emit_length, length_map in Ht.
    rewrite collectLinkBilateral_step1_nth in Hb by exact Ht.
    apply in_flat_map in Hb. destruct Hb as [i [_ Hb]].
    unfold at_body in Hb.
    destruct (nth_error container i) as [syI |] eqn:Ei; [| contradiction].
    destruct (linkStep1_blocks _ _ _ _ _ Hb) as [Hg Hl].
    split; [| exact Hl]. rewrite Hg. apply Hidx.
    eapply nth_error_In. exact Ei.
  - cbn [skipn]. rewrite app_nil_r. exact Hdir.
  - rewrite E. exists cPool'. split; [reflexivity | exact Hq].
Qed.

(** ** addNewSylinder: the links of the new sylinders *)

Lemma assign_gid_nth (maxG : Z) (ids : list Z) (newSylinder : list Sylinder)
    (i : nat) (id : Z) (sy : Sylinder) :
  nth_error ids i = Some id -> nth_error newSylinder i = Some sy ->
  nth_error (assign_gid maxG ids newSylinder) i =
  Some (set_gid sy (int_add (int_add id 1) maxG)).
Proof.
  unfold assign_gid. revert newSylinder i.
  induction ids as [| id0 ids IH]; intros news i Hid Hsy.
  - destruct i; discriminate.
  - destruct news as [| sy0 news]; [destruct i; discriminate |].
    destruct i as [| i]; cbn in Hid, Hsy |- *.
    + injection Hid as <-. injection Hsy as <-. reflexivity.
    + now apply IH.
Qed.

Lemma assign_gid_length (maxG : Z) (ids : list Z)
    (newSylinder : list Sylinder) :
  List.length ids = List.length newSylinder ->
  List.length (assign_gid maxG ids newSylinder) = List.length newSylinder.
Proof.
  intros H. unfold assign_gid. rewrite length_map, length_combine. lia.
Qed.

Lemma assign_gid_link (maxG : Z) (ids : list Z) (newSylinder : list Sylinder)
    (i : nat) (s' : Sylinder) :
  nth_error (assign_gid maxG ids newSylinder) i = Some s' ->
  exists id sy, nth_error ids i = Some id /\
                nth_error newSylinder i = Some sy /\
                s' = set_gid sy (int_add (int_add id 1) maxG).
Proof.
  unfold assign_gid. revert newSylinder i.
  induction ids as [| id0 ids IH]; intros news i H.
  - destruct i; discriminate.
  - destruct news as [| sy0 news]; [destruct i; discriminate |].
    destruct i as [| i]; cbn in H |- *.
    + injection H as <-. exists id0, sy0. auto.
    + now apply IH.
Qed.

Lemma link_gid_spec (lookup : list Sylinder) (k g : Z) :
  link_gid lookup k = Some g -> link_resolved lookup k g.
Proof.
  unfold link_gid, link_resolved. intros H.
  destruct (Z.eqb_spec k GEO_INVALID_INDEX) as [E | E].
  - injection H as <-. left. auto.
  - destruct (Z.ltb_spec k 0) as [Hlt | Hge]; [discriminate |].
    destruct (nth_error lookup (Z.to_nat k)) as [sj |] eqn:En;
      [| discriminate].
    injection H as <-. right. split; [exact E |]. split; [exact Hge |].
    exists sj. auto.
Qed.

Lemma set_links_nth (lookup todo : list Sylinder) (linkage : list Link)
    (res : list Sylinder) (i : nat) (sy : Sylinder) (l : Link) :
  set_links lookup todo linkage = Some res ->
  nth_error todo i = Some sy -> nth_error linkage i = Some l ->
  exists p n,
    link_gid lookup (prev l) = Some p /\ link_gid lookup (next l) = Some n /\
    nth_error res i = Some (set_link sy (mkLink (group l) p n)).
Proof.
  revert linkage res i. induction todo as [| sy0 todo IH];
    intros linkage res i H Hsy Hl.
  - destruct i; discriminate.
  - destruct linkage as [| l0 linkage]; [destruct i; discriminate |].
    cbn [set_links] in H.
    destruct (link_gid lookup (prev l0)) as [p0 |] eqn:Ep; [| discriminate].
    destruct (link_gid lookup (next l0)) as [n0 |] eqn:En; [| discriminate].
    destruct (set_links lookup todo linkage) as [rest |] eqn:Er;
      [| discriminate].
    injection H as <-.
    destruct i as [| i]; cbn in Hsy, Hl |- *.
    + injection Hsy as <-. injection Hl as <-. exists p0, n0. auto.
    + exact (IH linkage rest i Er Hsy Hl).
Qed.

Lemma link_resolved_gids (lookup new : list Sylinder) (k g : Z) :
  map gid new = map gid lookup ->
  link_resolved lookup k g -> link_resolved new k g.
Proof.
  intros Hg [[E1 E2] | [E1 [E2 [sj [Hn Eg]]]]]; [left; auto | right].
  split; [exact E1 |]. split; [exact E2 |].
  assert (Hm : nth_error (map gid new) (Z.to_nat k) = Some (gid sj)).
  { rewrite Hg. now apply map_nth_error. }
  rewrite nth_error_map in Hm.
  destruct (nth_error new (Z.to_nat k)) as [sj' |]; [| discriminate].
  injection Hm as Hm. exists sj'. split; [reflexivity | congruence].
Qed.

(** X19.  addNewSylinder turns the linkage given by positions in
    newSylinder into links by gid: with one Link per new sylinder, the
    sylinder appended for position i has the group of linkage[i], and its
    prev and next are GEO_INVALID_INDEX where linkage[i] has it and
    otherwise the new gid of the sylinder at the named position; nothing
    else of the sylinder changes besides its gid.  With an empty linkage
    the links are kept as given.  A linkage of any other size stops the
    program, and the old sylinders stay in front, untouched. *)
Theorem addNewSylinder_links (maxG : Z) (ids : list Z)
    (container newSylinder : list Sylinder) (linkage : list Link) :
  List.length ids = List.length newSylinder ->
  (linkage <> [] -> List.length linkage <> List.length newSylinder ->
   addNewSylinder_rank maxG ids container newSylinder linkage = None) /\
  forall c',
    addNewSylinder_rank maxG ids container newSylinder linkage = Some c' ->
    exists new,
      c' = container ++ new /\
      List.length new = List.length newSylinder /\
      (List.length linkage <> List.length newSylinder ->
       new = assign_gid maxG ids newSylinder /\
       forall i s', nth_error new i = Some s' ->
         exists sy, nth_error newSylinder i = Some sy /\ link s' = link sy) /\
      (List.length linkage = List.length newSylinder ->
       forall i l id sy,
         nth_error linkage i = Some l -> nth_error ids i = Some id ->
         nth_error newSylinder i = Some sy ->
         exists p n,
           nth_error new i =
             Some (set_link (set_gid sy (int_add (int_add id 1) maxG))
                            (mkLink (group l) p n)) /\
           link_resolved new (prev l) p /\ link_resolved new (next l) n).
Proof.
  intros Hids. unfold addNewSylinder_rank. cbv zeta.
  destruct (Nat.eqb_spec (List.length linkage) (List.length newSylinder))
    as [El | El].
  - split; [intros _ Hne; contradiction |].
    intros c' H.
    destruct (set_links _ _ linkage) as [new |] eqn:Es; [| discriminate].
    injection H as <-. exists new.
    destruct (set_links_gids _ _ _ _ Es) as [Hg Hl].
    split; [reflexivity |].
    split; [now rewrite Hl, assign_gid_length |].
    split; [intros Hne; contradiction |].
    intros _ i l id sy Hlk Hid Hsy.
    pose proof (assign_gid_nth maxG ids newSylinder i id sy Hid Hsy) as Hw.
    destruct (set_links_nth _ _ _ _ i _ l Es Hw Hlk) as [p [n [Hp [Hn Hr]]]].
    exists p, n. split; [exact Hr |].
    split; eapply link_resolved_gids; try exact Hg;
      apply link_gid_spec; assumption.
  - split.
    + intros Hne _. destruct linkage as [| l linkage]; [contradiction |].
      reflexivity.
    + intros c' H.
      destruct (Nat.eqb_spec (List.length linkage) 0) as [E0 | E0];
        [| discriminate].
      injection H as <-. exists (assign_gid maxG ids newSylinder).
      split; [reflexivity |].
      split; [now apply assign_gid_length |].
      split; [| intros Heq; contradiction].
      intros _. split; [reflexivity |].
      intros i s' Hs'.
      destruct (assign_gid_link _ _ _ _ _ Hs') as [id [sy [_ [Hsy ->]]]].
      exists sy. split; [exact Hsy | reflexivity].
Qed.

(** ** updateSylinderMap: the global indices of all ranks *)

Lemma updateSylinderMap_globalIndex (base : Z) (container : list Sylinder) :
  map globalIndex (updateSylinderMap base container) =
  map (fun i => int_add (Z.of_nat i) base) (seq 0 (List.length container)).
Proof.
  unfold updateSylinderMap. rewrite map_map. cbn [globalIndex set_globalIndex].
  generalize 0%nat as a.
  induction container as [| sy c IH]; intros a; cbn [List.length seq combine map];
    [reflexivity |].
  f_equal. apply IH.
Qed.

Lemma updateSylinderMap_gid (base : Z) (container : list Sylinder) :
  map gid (updateSylinderMap base container) = map gid container.
Proof.
  unfold updateSylinderMap. rewrite map_map. cbn [gid set_globalIndex].
  generalize 0%nat as a.
  induction container as [| sy c IH]; intros a; cbn [List.length seq combine map];
    [reflexivity |].
  f_equal. apply IH.
Qed.

Lemma chunk_ranges (ns : list nat) :
  concat (map (fun r => seq (list_sum (firstn r ns)) (nth r ns 0%nat))
              (seq 0 (List.length ns))) =
  seq 0 (list_sum ns).
Proof.
  induction ns as [| n ns IH] using rev_ind; [reflexivity |].
  rewrite length_app. cbn [List.length]. rewrite seq_app, map_app, concat_app.
  cbn [Nat.add seq map concat]. rewrite app_nil_r.
  rewrite firstn_app, Nat.sub_diag, firstn_all. cbn [firstn].
  rewrite app_nil_r, app_nth2, Nat.sub_diag by lia. cbn [nth].
  assert (Es : list_sum (ns ++ [n]) = (list_sum ns + n)%nat).
  { rewrite list_sum_app. cbn [list_sum fold_right]. lia. }
  rewrite Es, seq_app. cbn [Nat.add]. f_equal.
  rewrite <- IH. f_equal. apply map_ext_in. intros r Hr.
  apply in_seq in Hr.
  rewrite firstn_app, app_nth1 by lia.
  replace (r - List.length ns)%nat with 0%nat by lia.
  cbn [firstn]. now rewrite app_nil_r.
Qed.

Lemma seq_from (p m : nat) : seq p m = map (fun i => (p + i)%nat) (seq 0 m).
Proof.
  revert p. induction m as [| m IH]; intros p; [reflexivity |].
  cbn [seq map]. rewrite Nat.add_0_r. f_equal.
  rewrite (IH (S p)), <- seq_shift, map_map.
  apply map_ext. intros i. lia.
Qed.

Lemma map_seq_nth {A : Type} (g : nat -> A) (d : A) (n r : nat) :
  (r < n)%nat -> nth r (map g (seq 0 n)) d = g r.
Proof.
  intros Hr. rewrite (nth_indep _ d (g O))
    by (now rewrite length_map, length_seq).
  now rewrite map_nth, seq_nth.
Qed.

Lemma updateSylinderMap_all_eq (containers : list (list Sylinder)) :
  updateSylinderMap_all containers =
  map (fun r => updateSylinderMap (getMinGlobalIndex containers r)
                                  (nth r containers []))
      (seq 0 (List.length containers)).
Proof.
  apply nth_ext with (d := []) (d' := []).
  - unfold updateSylinderMap_all.
    now rewrite !length_map, length_combine, !length_seq, Nat.min_id.
  - intros r Hr. unfold updateSylinderMap_all in Hr.
    rewrite length_map, length_combine, length_seq, Nat.min_id in Hr.
    rewrite updateSylinderMap_all_nth.
    now rewrite (map_seq_nth
                   (fun r0 => updateSylinderMap
                                (getMinGlobalIndex containers r0)
                                (nth r0 containers [])) [] _ r Hr).
Qed.

(** X20.  After updateSylinderMap on every rank, the global indices of
    all rods, read rank by rank in container order, are 0, 1, ..., N-1 for
    N rods in all (N within int): every index once.  The rods keep their
    places and their gids. *)
Theorem updateSylinderMap_contiguous (containers : list (list Sylinder)) :
  (Z.of_nat (nGlobal containers) <= INT_MAX)%Z ->
  map globalIndex (concat (updateSylinderMap_all containers)) =
    iota (nGlobal containers) /\
  NoDup (map globalIndex (concat (updateSylinderMap_all containers))) /\
  map (map gid) (updateSylinderMap_all containers) =
    map (map gid) containers.
Proof.
  intros HN.
  assert (Hidx : map globalIndex (concat (updateSylinderMap_all containers)) =
                 iota (nGlobal containers)).
  { rewrite concat_map, updateSylinderMap_all_eq, map_map.
    unfold iota, nGlobal.
    rewrite <- (chunk_ranges (map (@List.length Sylinder) containers)).
    rewrite concat_map, map_map, length_map. f_equal.
    apply map_ext_in. intros r Hr. apply in_seq in Hr.
    rewrite updateSylinderMap_globalIndex. unfold getMinGlobalIndex.
    rewrite firstn_map.
    rewrite (nth_indep _ 0%nat (List.length (@nil Sylinder)))
      by (rewrite length_map; lia).
    rewrite map_nth.
    set (p := list_sum (map (@List.length Sylinder) (firstn r containers))).
    set (c := nth r containers []).
    assert (Hc : nth_error containers r = Some c)
      by (apply nth_error_nth'; lia).
    pose proof (rank_range_le containers r c Hc) as Hle. fold p in Hle.
    rewrite (seq_from p), map_map.
    apply map_ext_in. intros i Hi. apply in_seq in Hi.
    rewrite int_add_exact; unfold in_int, INT_MIN, INT_MAX in *; lia. }
  split; [exact Hidx |]. split.
  - rewrite Hidx. unfold iota.
    apply Finite.Injective_map_NoDup; [| apply seq_NoDup].
    intros a b Hab. lia.
  - rewrite updateSylinderMap_all_eq, map_map.
    apply nth_ext with (d := []) (d' := []).
    + now rewrite !length_map, length_seq.
    + intros r Hr. rewrite length_map, length_seq in Hr.
      rewrite (map_seq_nth
                 (fun r0 => map gid (updateSylinderMap
                                       (getMinGlobalIndex containers r0)
                                       (nth r0 containers []))) [] _ r Hr).
      rewrite updateSylinderMap_gid.
      change (@nil Z) with (map gid []). now rewrite map_nth.
Qed.

(** ** ParticleSystem::calcVelTotalNonCon *)

Lemma monolayer_step_length (v : list R) (i : nat) :
  List.length (monolayer_step v i) = List.length v.
Proof. unfold monolayer_step. now rewrite !write_length. Qed.

Lemma monolayer_fold_length (n : nat) (v : list R) :
  List.length (fold_left monolayer_step (seq 0 n) v) = List.length v.
Proof.
  induction n as [| n IH]; [reflexivity |].
  rewrite seq_S, fold_left_app. cbn [fold_left Nat.add].
  now rewrite monolayer_step_length.
Qed.

Lemma monolayer_fold_above (n : nat) (v : list R) (k : nat) :
  (6 * n <= k)%nat ->
  nth k (fold_left monolayer_step (seq 0 n) v) 0 = nth k v 0.
Proof.
  induction n as [| n IH]; intros Hk; [reflexivity |].
  rewrite seq_S, fold_left_app. cbn [fold_left Nat.add].
  unfold monolayer_step. rewrite !write_nth_other by lia.
  apply IH. lia.
Qed.

Lemma monolayer_fold_nth (n : nat) (v : list R) (i a : nat) :
  (6 * n <= List.length v)%nat -> (i < n)%nat -> (a < 6)%nat ->
  nth (6 * i + a) (fold_left monolayer_step (seq 0 n) v) 0 =
  if out_of_plane a then 0 else nth (6 * i + a) v 0.
Proof.
  induction n as [| n IH]; intros Hlen Hi Ha; [lia |].
  rewrite seq_S, fold_left_app. cbn [fold_left Nat.add].
  set (w := fold_left monolayer_step (seq 0 n) v).
  assert (Hw : List.length w = List.length v)
    by apply monolayer_fold_length.
  unfold monolayer_step.
  destruct (Nat.eq_dec i n) as [-> | Hne].
  - unfold out_of_plane.
    destruct (Nat.eq_dec a 4) as [-> | H4].
    + cbn [Nat.eqb orb]. apply write_nth_same. rewrite !write_length. lia.
    + rewrite write_nth_other by lia.
      destruct (Nat.eq_dec a 3) as [-> | H3].
      * cbn [Nat.eqb orb]. apply write_nth_same. rewrite !write_length. lia.
      * rewrite write_nth_other by lia.
        destruct (Nat.eq_dec a 2) as [-> | H2].
        -- cbn [Nat.eqb orb]. apply write_nth_same. lia.
        -- rewrite write_nth_other by lia.
           assert (Ef : Nat.eqb a 2 || Nat.eqb a 3 || Nat.eqb a 4 = false).
           { destruct (Nat.eqb_spec a 2); destruct (Nat.eqb_spec a 3);
               destruct (Nat.eqb_spec a 4); cbn [orb]; try lia; reflexivity. }
           rewrite Ef. subst w. apply monolayer_fold_above. lia.
  - rewrite !write_nth_other by lia. apply IH; lia.
Qed.

Lemma add_part_spec (nLocal : nat) (A : option (list R)) (this : list R) :
  List.length this = (6 * nLocal)%nat ->
  (forall a, A = Some a -> List.length a = (6 * nLocal)%nat) ->
  exists v, add_part nLocal A this = Some v /\
            List.length v = (6 * nLocal)%nat /\
            forall k, (k < 6 * nLocal)%nat ->
                      nth k v 0 = nth k this 0 + opt_at A k.
Proof.
  intros Hthis HA. destruct A as [a |]; cbn [add_part opt_at].
  - specialize (HA a eq_refl). rewrite HA, Nat.eqb_refl.
    eexists. split; [reflexivity |]. split.
    + rewrite vec_update_length; congruence.
    + intros k Hk. rewrite vec_update_nth by congruence. ring.
  - exists this. split; [reflexivity |]. split; [exact Hthis |].
    intros k Hk. ring.
Qed.

Lemma six_at_nth (v : list R) (i a : nat) :
  (a < 6)%nat -> nth a (six_at v i) 0 = nth (6 * i + a) v 0.
Proof.
  intros Ha. unfold six_at.
  do 6 (destruct a as [| a]; [reflexivity |]). lia.
Qed.

(** X21.  calcVelTotalNonCon of ParticleSystem, when its assertions hold
    (the vector is allocated with 6 entries per particle, every vector
    given has that size, a force comes with an operator): entry 6i+a of
    the vector is (M F) + U_part + U_Brown; in a monolayer the entries of
    vz, wx and wy are set to zero for every particle and the three others
    are kept.  The velNonCon copied to the particle is (M F) + U_part in
    all six components: it has no Brownian part and is not zeroed by the
    monolayer step. *)
Theorem calcVelTotalNonCon_monolayer (nLocal : nat) (inp : NonConInputs) :
  ptclMobMapSize inp = (6 * nLocal)%nat ->
  (exists vt, velTotalNonCon inp = Some vt /\
              List.length vt = (6 * nLocal)%nat) ->
  (forall force, forcePartNonCon inp = Some force ->
     List.length force = (6 * nLocal)%nat /\
     exists op, ptclMobOp inp = Some op /\
                List.length (op force) = (6 * nLocal)%nat) ->
  (forall v, velPartNonCon inp = Some v ->
             List.length v = (6 * nLocal)%nat) ->
  (forall v, velBrown inp = Some v -> List.length v = (6 * nLocal)%nat) ->
  exists r,
    calcVelTotalNonCon nLocal inp = Some r /\
    List.length (res_velTotalNonCon r) = (6 * nLocal)%nat /\
    List.length (res_velNonCon r) = nLocal /\
    forall i a, (i < nLocal)%nat -> (a < 6)%nat ->
      let k := (6 * i + a)%nat in
      nth a (nth i (res_velNonCon r) []) 0 =
        nonConDrive inp k + opt_at (velPartNonCon inp) k /\
      nth k (res_velTotalNonCon r) 0 =
        if monolayer inp && out_of_plane a then 0
        else nonConDrive inp k + opt_at (velPartNonCon inp) k +
             opt_at (velBrown inp) k.
Proof.
  intros Hmap [vt [Hvt Hlt]] Hforce Hpart Hbrown.
  unfold calcVelTotalNonCon. rewrite Hmap, Nat.eqb_refl. cbn [negb].
  rewrite Hvt, Hlt, Nat.eqb_refl. cbn [negb]. cbv zeta.
  assert (H1 : exists v1 forces,
            match forcePartNonCon inp with
            | Some force =>
                match ptclMobOp inp with
                | Some op =>
                    if Nat.eqb (List.length force) (6 * nLocal)
                    then Some (op force,
                               Some (map (six_at force) (seq 0 nLocal)))
                    else None
                | None => None
                end
            | None => Some (map (fun _ => 0) vt, None)
            end = Some (v1, forces) /\
            List.length v1 = (6 * nLocal)%nat /\
            forall k, (k < 6 * nLocal)%nat ->
                      nth k v1 0 = nonConDrive inp k).
  { unfold nonConDrive.
    destruct (forcePartNonCon inp) as [force |].
    - destruct (Hforce force eq_refl) as [Hlf [op [Hop Hlo]]].
      rewrite Hop, Hlf, Nat.eqb_refl.
      eexists. eexists. split; [reflexivity |]. split; [exact Hlo |].
      intros k _. reflexivity.
    - eexists. eexists. split; [reflexivity |].
      split; [now rewrite length_map |].
      intros k Hk. exact (map_nth (fun _ : R => 0) vt 0 k). }
  destruct H1 as [v1 [forces [E1 [L1 N1]]]]. rewrite E1.
  destruct (add_part_spec nLocal (velPartNonCon inp) v1 L1 Hpart)
    as [v2 [E2 [L2 N2]]]. rewrite E2.
  destruct (add_part_spec nLocal (velBrown inp) v2 L2 Hbrown)
    as [v4 [E4 [L4 N4]]]. rewrite E4.
  eexists. split; [reflexivity |].
  cbn [res_velTotalNonCon res_velNonCon].
  split; [| split].
  - destruct (monolayer inp); [| exact L4].
    now rewrite monolayer_fold_length.
  - now rewrite length_map, length_seq.
  - intros i a Hi Ha. cbv zeta.
    assert (Hk : (6 * i + a < 6 * nLocal)%nat) by lia.
    split.
    + rewrite (map_seq_nth (six_at v2) [] nLocal i Hi).
      rewrite six_at_nth by exact Ha. rewrite N2, N1 by exact Hk.
      reflexivity.
    + destruct (monolayer inp); cbn [andb].
      * rewrite monolayer_fold_nth by (try rewrite L4; lia).
        destruct (out_of_plane a); [reflexivity |].
        rewrite N4, N2, N1 by exact Hk. reflexivity.
      * rewrite N4, N2, N1 by exact Hk. reflexivity.
Qed.

(** X22.  calcVelTotalNonCon does not allocate its result: with a null
    velTotalNonCon vector, or one of another size than 6 per particle, it
    stops on the assertion, whatever else is set; so it does with a force
    vector and no mobility operator. *)
Theorem calcVelTotalNonCon_asserts (nLocal : nat) (inp : NonConInputs) :
  (velTotalNonCon inp = None -> calcVelTotalNonCon nLocal inp = None) /\
  (forall vt, velTotalNonCon inp = Some vt ->
     List.length vt <> (6 * nLocal)%nat ->
     calcVelTotalNonCon nLocal inp = None) /\
  (forcePartNonCon inp <> None -> ptclMobOp inp = None ->
   calcVelTotalNonCon nLocal inp = None).
Proof.
  unfold calcVelTotalNonCon.
  split; [| split].
  - intros ->. destruct (negb _); reflexivity.
  - intros vt -> Hne. destruct (negb (Nat.eqb (ptclMobMapSize inp) _));
      [reflexivity |].
    destruct (Nat.eqb_spec (List.length vt) (6 * nLocal)); [contradiction |].
    reflexivity.
  - intros Hf Hop. destruct (negb (Nat.eqb (ptclMobMapSize inp) _));
      [reflexivity |].
    destruct (velTotalNonCon inp) as [vt |]; [| reflexivity].
    destruct (negb (Nat.eqb (List.length vt) _)); [reflexivity |].
    cbv zeta. rewrite Hop.
    destruct (forcePartNonCon inp); [reflexivity | contradiction].
Qed.

(** ** getCurrentResultFolder *)

(** X23.  getCurrentResultFolder names the folder by a range [low, high]
    of snapshot ids that contains snapID: for 0 <= snapID <= INT_MAX - 400
    the range starts at a multiple of num = max(400 / size, 1), holds num
    ids, and every snapshot of the range gets the same folder.  With at
    most 400 ranks num * size <= 400 < (num + 1) * size; with more ranks
    every snapshot has a folder of its own. *)
Theorem getCurrentResultFolder_range (size snapID : Z) :
  (0 < size)%Z -> (0 <= snapID <= INT_MAX - 400)%Z ->
  exists num low high,
    getCurrentResultFolder size snapID = ResultFolder.baseFolder low high /\
    (1 <= num <= 400)%Z /\
    (size <= 400 -> num * size <= 400 < (num + 1) * size)%Z /\
    (400 < size -> num = 1)%Z /\
    (low <= snapID <= high)%Z /\ high = (low + num - 1)%Z /\
    (low mod num = 0)%Z /\
    forall snapID', (low <= snapID' <= high)%Z ->
      getCurrentResultFolder size snapID' =
      getCurrentResultFolder size snapID.
Proof.
  intros Hsize [Hs0 Hs1]. unfold INT_MAX in Hs1.
  set (num := Z.max (Z.quot 400 size) 1).
  assert (Hq : Z.quot 400 size = (400 / size)%Z)
    by (apply Z.quot_div_nonneg; lia).
  assert (Hn1 : (1 <= num)%Z) by (unfold num; lia).
  assert (Hd : (0 <= 400 / size <= 400)%Z).
  { split; [apply Z.div_pos; lia |].
    apply Z.div_le_upper_bound; [lia | nia]. }
  assert (Hn400 : (num <= 400)%Z) by (unfold num; rewrite Hq; lia).
  set (k := Z.quot snapID num).
  assert (Hk : k = (snapID / num)%Z)
    by (apply Z.quot_div_nonneg; lia).
  pose proof (Z.div_mod snapID num ltac:(lia)) as Hdm.
  pose proof (Z.mod_pos_bound snapID num ltac:(lia)) as Hmb.
  rewrite <- Hk in Hdm.
  assert (Hk0 : (0 <= k)%Z) by (rewrite Hk; apply Z.div_pos; lia).
  assert (Hlow : int_mul k num = (k * num)%Z).
  { unfold int_mul. apply int_wrap_id. unfold in_int, INT_MIN, INT_MAX. nia. }
  assert (Hsum : int_add (k * num) num = (k * num + num)%Z).
  { apply int_add_exact. unfold in_int, INT_MIN, INT_MAX. nia. }
  assert (Hhigh : int_sub (int_add (int_mul k num) num) 1 =
                  (k * num + num - 1)%Z).
  { rewrite Hlow, Hsum. unfold int_sub. apply int_wrap_id.
    unfold in_int, INT_MIN, INT_MAX. nia. }
  exists num, (k * num)%Z, (k * num + num - 1)%Z.
  split.
  { unfold getCurrentResultFolder. cbv zeta. fold num. fold k.
    now rewrite Hhigh, Hlow. }
  split; [lia |]. split.
  { intros Hle. unfold num. rewrite Hq.
    assert (1 <= 400 / size)%Z by (apply Z.div_le_lower_bound; lia).
    rewrite Z.max_l by lia.
    pose proof (Z.div_mod 400 size ltac:(lia)).
    pose proof (Z.mod_pos_bound 400 size ltac:(lia)). nia. }
  split.
  { intros Hgt. unfold num. rewrite Hq, Z.div_small by lia. reflexivity. }
  split; [nia |]. split; [reflexivity |]. split.
  { apply Z.mod_mul. lia. }
  intros s' [Hl Hh].
  assert (Hk' : Z.quot s' num = k).
  { rewrite Z.quot_div_nonneg by nia.
    symmetry. apply (Z.div_unique s' num k (s' - k * num)); nia. }
  unfold getCurrentResultFolder. cbv zeta. fold num. rewrite Hk'.
  reflexivity.
Qed.

(** ** Work sharing loses and duplicates nothing *)

Lemma concat_map_app {A B : Type} (f g : A -> list B) (l : list A) :
  Permutation (concat (map (fun t => f t ++ g t) l))
              (concat (map f l) ++ concat (map g l)).
Proof.
  induction l as [| t l IH]; cbn [map concat]; [constructor |].
  rewrite IH, <- !app_assoc. apply Permutation_app_head.
  rewrite !app_assoc. apply Permutation_app_tail.
  apply Permutation_app_comm.
Qed.

Lemma concat_indicator {B : Type} (s : nat) (x : list B) (a n : nat) :
  concat (map (fun t => if Nat.eqb s t then x else []) (seq a n)) =
  if Nat.leb a s && Nat.ltb s (a + n) then x else [].
Proof.
  revert a. induction n as [| n IH]; intros a; cbn [seq map concat].
  - destruct (Nat.leb_spec a s); destruct (Nat.ltb_spec s (a + 0));
      cbn [andb]; try reflexivity; lia.
  - rewrite IH.
    destruct (Nat.eqb_spec s a); destruct (Nat.leb_spec (S a) s);
      destruct (Nat.ltb_spec s (S a + n)); destruct (Nat.leb_spec a s);
      destruct (Nat.ltb_spec s (a + S n)); cbn [andb app];
      try rewrite app_nil_r; try reflexivity; lia.
Qed.

Lemma thread_partition_perm (nThreads nLocal : nat)
    (body : nat -> list ConstraintBlock) (l : list nat) :
  (forall i, In i l -> (omp_sched nThreads nLocal i < nThreads)%nat) ->
  Permutation
    (concat
       (map (fun t =>
               flat_map body
                 (filter (fun i => Nat.eqb (omp_sched nThreads nLocal i) t)
                         l))
            (seq 0 nThreads)))
    (flat_map body l).
Proof.
  induction l as [| i l IH]; intros Hs.
  - cbn [filter flat_map].
    induction (seq 0 nThreads) as [| t ts IHt]; cbn [map concat];
      [constructor | exact IHt].
  - cbn [flat_map].
    rewrite (map_ext _
      (fun t =>
         (if Nat.eqb (omp_sched nThreads nLocal i) t then body i else []) ++
         flat_map body
           (filter (fun i0 => Nat.eqb (omp_sched nThreads nLocal i0) t) l))).
    + rewrite concat_map_app, concat_indicator.
      rewrite IH by (intros i' Hin; apply Hs; now right).
      specialize (Hs i (or_introl eq_refl)).
      destruct (Nat.leb_spec 0 (omp_sched nThreads nLocal i));
        destruct (Nat.ltb_spec (omp_sched nThreads nLocal i) (0 + nThreads));
        cbn [andb]; try lia. reflexivity.
    + intros t. cbn [filter]. destruct (Nat.eqb _ t); reflexivity.
Qed.

Lemma concat_pool_app {B : Type} (e : nat -> list B) (pool : list (list B))
    (a : nat) :
  Permutation
    (concat (map (fun tq : nat * list B => snd tq ++ e (fst tq))
                 (combine (seq a (List.length pool)) pool)))
    (concat pool ++ concat (map e (seq a (List.length pool)))).
Proof.
  revert a. induction pool as [| q pool IH]; intros a;
    cbn [List.length seq combine map concat fst snd]; [constructor |].
  rewrite IH, <- !app_assoc. apply Permutation_app_head.
  rewrite !app_assoc. apply Permutation_app_tail.
  apply Permutation_app_comm.
Qed.

Lemma omp_for_emit_perm (container : list Sylinder)
    (f : Sylinder -> list ConstraintBlock) (pool : ConstraintBlockPool) :
  (forall i, (i < List.length container)%nat ->
     (omp_sched (List.length pool) (List.length container) i
      < List.length pool)%nat) ->
  Permutation
    (concat (omp_for_emit omp_sched (List.length container)
                          (at_body container f) pool))
    (concat pool ++ flat_map f container).
Proof.
  intros Hs. unfold omp_for_emit.
  rewrite (concat_pool_app
             (fun t => flat_map (at_body container f)
                         (thread_iters omp_sched (List.length pool)
                                       (List.length container) t))
             pool 0).
  apply Permutation_app_head. unfold thread_iters.
  rewrite thread_partition_perm
    by (intros i Hi; apply Hs; apply in_seq in Hi; lia).
  now rewrite flat_map_at_body.
Qed.

Lemma wallLowBlock_length (wallBot : R) (sy : Sylinder) :
  List.length (wallLowBlock wallBot sy) =
  if Rltb (lowGap wallBot sy) 0 then 1%nat else 0%nat.
Proof.
  unfold lowGap, Rltb. destruct (Rlt_dec _ 0) as [H | H].
  - destruct (wallLowBlock_hit wallBot sy H) as [b [E _]]. now rewrite E.
  - rewrite wallLowBlock_miss by lra. reflexivity.
Qed.

Lemma wallHighBlock_length (wallTop : R) (sy : Sylinder) :
  List.length (wallHighBlock wallTop sy) =
  if Rltb (highGap wallTop sy) 0 then 1%nat else 0%nat.
Proof.
  unfold highGap, Rltb. destruct (Rlt_dec _ 0) as [H | H].
  - destruct (wallHighBlock_hit wallTop sy H) as [b [E _]]. now rewrite E.
  - rewrite wallHighBlock_miss by lra. reflexivity.
Qed.

(** X24.  The work sharing of collectWallCollision loses and duplicates
    nothing: whatever the schedule (every iteration run by a thread of
    the team), the collector holds afterwards, up to the order of the
    blocks, what it held before and the wall blocks of the rods in
    container order; these are one block for every rod that penetrates
    the bottom wall and one for every rod that penetrates the top
    wall. *)
Theorem collectWallCollision_all_rods (cfg : SylinderConfig)
    (container : list Sylinder) (pool : ConstraintBlockPool) :
  (forall i, (i < List.length container)%nat ->
     (omp_sched (List.length pool) (List.length container) i
      < List.length pool)%nat) ->
  let wallBot := vget (simBoxLow cfg) 2 in
  let wallTop := vget (simBoxHigh cfg) 2 in
  let low :=
    if wallLowZ cfg then flat_map (wallLowBlock wallBot) container else [] in
  let high :=
    if wallHighZ cfg then flat_map (wallHighBlock wallTop) container
    else [] in
  Permutation (concat (collectWallCollision cfg container pool))
              (concat pool ++ low ++ high) /\
  List.length low =
    (if wallLowZ cfg
     then List.length (filter (fun sy => Rltb (lowGap wallBot sy) 0)
                              container)
     else 0%nat) /\
  List.length high =
    (if wallHighZ cfg
     then List.length (filter (fun sy => Rltb (highGap wallTop sy) 0)
                              container)
     else 0%nat).
Proof.
  intros Hs wallBot wallTop low high. split; [| split].
  - unfold collectWallCollision. cbv zeta. fold wallBot. fold wallTop.
    subst low high.
    destruct (wallLowZ cfg); destruct (wallHighZ cfg).
    + rewrite omp_for_emit_perm
        by (rewrite omp_for_emit_length; exact Hs).
      rewrite omp_for_emit_perm by exact Hs.
      now rewrite <- app_assoc.
    + rewrite omp_for_emit_perm by exact Hs. now rewrite app_nil_r.
    + rewrite omp_for_emit_perm by exact Hs. reflexivity.
    + now rewrite !app_nil_r.
  - subst low. destruct (wallLowZ cfg); [| reflexivity].
    apply flat_map_length_filter. intros sy _. apply wallLowBlock_length.
  - subst high. destruct (wallHighZ cfg); [| reflexivity].
    apply flat_map_length_filter. intros sy _. apply wallHighBlock_length.
Qed.

(** X25.  With both Z walls, a rod that does not fit between them (the
    sum of its gaps to the two walls is negative) is not cleared by
    setPosWithWall: the loop of the top wall runs last and pushes the rod
    down to the buffer below the top wall, so the rod then penetrates
    the bottom wall by the missing room plus the buffer, and
    collectWallCollision emits a bottom-wall block for it. *)
Theorem setPosWithWall_too_long (cfg : SylinderConfig)
    (container : list Sylinder) (sy : Sylinder) :
  wallLowZ cfg = true -> wallHighZ cfg = true ->
  In sy container ->
  let wallBot := vget (simBoxLow cfg) 2 in
  let wallTop := vget (simBoxHigh cfg) 2 in
  lowGap wallBot sy + highGap wallTop sy < 0 ->
  let sy' := setPosBody cfg sy in
  In sy' (setPosWithWall cfg container) /\
  highGap wallTop sy' = wall_buffer /\
  lowGap wallBot sy' =
    lowGap wallBot sy + highGap wallTop sy - wall_buffer /\
  exists b, wallLowBlock wallBot sy' = [b] /\
            delta0 b =
              lowGap wallBot sy + highGap wallTop sy - wall_buffer /\
            delta0 b < 0.
Proof.
  intros El Eh Hin wb wt Hs sy'.
  assert (Hin' : In sy' (setPosWithWall cfg container)).
  { rewrite setPosWithWall_map. now apply in_map. }
  subst sy'. unfold setPosBody in *. rewrite El, Eh. rewrite El, Eh in Hin'.
  fold wb wt. fold wb wt in Hin'.
  destruct (setPosLow_gaps wb wt sy) as [_ [L1 [S1 _]]].
  destruct (setPosHigh_gaps wb wt (setPosLow wb sy)) as [_ [L2 [S2 [M2 _]]]].
  pose proof wall_buffer_pos as Hb.
  assert (Hh : highGap wt (setPosLow wb sy) < 0) by lra.
  specialize (M2 Hh).
  assert (Hl : lowGap wb (setPosHigh wt (setPosLow wb sy)) =
               lowGap wb sy + highGap wt sy - wall_buffer) by lra.
  split; [exact Hin' |]. split; [exact M2 |]. split; [exact Hl |].
  destruct (wallLowBlock_hit wb (setPosHigh wt (setPosLow wb sy)))
    as [b [E [_ [D _]]]].
  { fold (lowGap wb (setPosHigh wt (setPosLow wb sy))). lra. }
  fold (lowGap wb (setPosHigh wt (setPosLow wb sy))) in D.
  exists b. split; [exact E |]. split; [lra | lra].
Qed.

(** ** A step on rods that are clear of the walls *)

Lemma collectPairCollision_container (sys : SylinderSystem)
    (sy : Sylinder) :
  In sy (sylinderContainer (collectPairCollision sys)) ->
  exists sy0 s, In sy0 (sylinderContainer sys) /\ sy = set_sepmin sy0 s.
Proof.
  unfold collectPairCollision. cbn.
  destruct (calcForceAll _ _ _) as [[uni bi] sepmins]. cbn.
  intros H. apply in_map_iff in H. destruct H as [[i sy0] [E Hin]].
  apply in_combine_r in Hin. cbn [fst snd] in E.
  exists sy0, (nth i sepmins 0). auto.
Qed.

(** X26.  resolveConstraints on rods that are clear of every enabled wall
    (as setPosWithWall leaves them): the wall pass adds nothing, so
    ConstraintSolver::setup is called with exactly the unilateral pool
    that the pair pass left, and with the bilateral pool of the pair pass
    in which every unset kappa is filled in. *)
Theorem resolveConstraints_clear_rods (sys : SylinderSystem) :
  (forall sy, In sy (sylinderContainer sys) ->
     (wallLowZ (runConfig sys) = true ->
      0 <= lowGap (vget (simBoxLow (runConfig sys)) 2) sy) /\
     (wallHighZ (runConfig sys) = true ->
      0 <= highGap (vget (simBoxHigh (runConfig sys)) 2) sy)) ->
  let r := calcForceAll (sylinderContainer sys) (uniConstraint sys)
                        (biConstraint sys) in
  exists rest,
    step_calls sys =
      call_collectPairCollision :: call_collectWallCollision ::
      call_setup (fst (fst r))
                 (map (map (fill_kappa (linkKappa (runConfig sys))))
                      (snd (fst r)))
                 (dt (runConfig sys)) :: rest /\
    Forall (fun c => call_kind c <> K_setup) rest.
Proof.
  intros Hclear r. subst r.
  destruct (collectPairCollision_fields sys) as [_ [Hr [_ [Hu Hb]]]].
  cbv zeta in Hr, Hu, Hb.
  rewrite step_calls_eq. cbv zeta.
  assert (Hwall : uniConstraint
                    (collectWallCollision_member (collectPairCollision sys)) =
                  fst (fst (calcForceAll (sylinderContainer sys)
                                         (uniConstraint sys)
                                         (biConstraint sys)))).
  { unfold collectWallCollision_member.
    cbn [uniConstraint sylinderContainer runConfig with_uni log_call].
    rewrite Hr, no_penetration_unchanged; [exact Hu |].
    intros sy Hin.
    destruct (collectPairCollision_container sys sy Hin)
      as [sy0 [s [Hin0 ->]]].
    exact (Hclear sy0 Hin0). }
  rewrite Hwall, Hb. eexists. split; [reflexivity |].
  repeat constructor; discriminate.
Qed.

End Model.

(** ** Evaluation on concrete bodies *)

Lemma upright_direction : qrotate q_identity ez = ez.
Proof.
  unfold qrotate, q_identity, qvec, ez, vcross, vadd, sscale. cbn.
  f_equal; lra.
Qed.

Lemma sy_touch_dist :
  wallLow_distm 0 sy_touch = 0 /\ wallLow_distp 0 sy_touch = 2.
Proof.
  unfold wallLow_distm, wallLow_distp, endPm, endPp, sy_touch.
  cbn [orientation pos lengthCollision radius].
  rewrite upright_direction. cbn. split; lra.
Qed.

Lemma sy_sunk_dist :
  wallLow_distm 0 sy_sunk = -0.5 /\ wallLow_distp 0 sy_sunk = 1.5.
Proof.
  unfold wallLow_distm, wallLow_distp, endPm, endPp, sy_sunk.
  cbn [orientation pos lengthCollision radius].
  rewrite upright_direction. cbn. split; lra.
Qed.

(** C4, as stated, fails: the lower end of [sy_touch] is at signed
    distance 0 from the bottom wall, so not both distances are positive,
    and the wall loop emits no block for it. *)
Lemma wall_touching_no_block :
  ~ (0 < wallLow_distm 0 sy_touch /\ 0 < wallLow_distp 0 sy_touch) /\
  wallLowBlock 0 mZero 0 sy_touch = [] /\
  collectWallCollision 0 mZero sched_single cfg_example [sy_touch] [[]] = [[]].
Proof.
  destruct sy_touch_dist as [Hm Hp].
  assert (Hmiss : wallLowBlock 0 mZero 0 sy_touch = []).
  { apply wallLowBlock_miss. rewrite Hm, Hp.
    unfold Rmin. destruct (Rle_dec 0 2); lra. }
  split; [| split].
  - rewrite Hm. lra.
  - exact Hmiss.
  - unfold collectWallCollision, omp_for_emit, at_body, thread_iters,
      sched_single. cbn. rewrite Hmiss. reflexivity.
Qed.

Lemma Rmin_sunk : Rmin (-0.5) 1.5 = -0.5.
Proof. unfold Rmin. destruct (Rle_dec (-0.5) 1.5); lra. Qed.

(** The C4 theorem at a rod whose lower end is 0.5 below the bottom wall:
    one oneSide block with delta0 = -0.5 and normI = +z is emitted. *)
Lemma collectWallCollision_blocks_witness :
  (0 < List.length [@nil ConstraintBlock])%nat /\
  exists b,
    wallLowBlock 0 mZero 0 sy_sunk = [b] /\
    oneSide b = true /\ delta0 b = -0.5 /\
    labI b = endPm sy_sunk /\ normI b = mkEvec3 0 0 1 /\
    nth 0 (collectWallCollision 0 mZero sched_single cfg_example [sy_sunk]
                                [[]]) [] = [b].
Proof.
  assert (Ht : (0 < List.length [@nil ConstraintBlock])%nat) by (cbn; lia).
  split; [exact Ht |].
  destruct (collectWallCollision_blocks 0 mZero sched_single cfg_example
              [sy_sunk] [[]] 0%nat Ht) as [Hnth Hrod].
  destruct (Hrod 0 sy_sunk) as [[Hhit _] _].
  destruct sy_sunk_dist as [Hm Hp].
  unfold wallLow_distm in Hm. unfold wallLow_distp in Hp.
  rewrite Hm, Hp, Rmin_sunk in Hhit.
  destruct Hhit as [b [E [H1 [H2 [H3 [H4 H5]]]]]]; [lra |].
  exists b. repeat split; try assumption.
  - rewrite H3. unfold spec_contactPoint.
    destruct (Rlt_dec (-0.5) 1.5); [reflexivity | lra].
  - rewrite Hnth. cbn [nth wallLowZ wallHighZ cfg_example app].
    unfold thread_iters, sched_single, at_body. cbn.
    rewrite E. reflexivity.
Defined.

(** The C8 theorem on one queue and one sunk rod. *)
Lemma collectWallCollision_repeatable_witness :
  (0 < List.length [@nil ConstraintBlock])%nat /\
  let pool1 :=
    collectWallCollision 0 mZero sched_single cfg_example [sy_sunk] [[]] in
  let pool2 :=
    collectWallCollision 0 mZero sched_single cfg_example [sy_sunk] pool1 in
  nth 0 pool2 [] =
  wallAppended 0 mZero sched_single cfg_example [sy_sunk] 1 0 ++
  wallAppended 0 mZero sched_single cfg_example [sy_sunk] 1 0.
Proof.
  assert (Ht : (0 < List.length [@nil ConstraintBlock])%nat) by (cbn; lia).
  split; [exact Ht |].
  destruct (collectWallCollision_repeatable 0 mZero sched_single cfg_example
              [sy_sunk] [[]] 0%nat Ht) as [H1 [H2 _]].
  cbv zeta. rewrite H2, H1. reflexivity.
Defined.

Lemma containers_two_updated :
  updateSylinderMap_all containers_two =
  [[sy_sunk]; [set_globalIndex sy_touch 1]].
Proof. reflexivity. Qed.

(** The C9 theorem on two ranks with one rod each: the wall block of the
    sunk rod (gid 7, global index 0) names gid 8 and global index 1, which
    is the global index of the rod of the other rank. *)
Lemma wall_block_fake_body_witness :
  exists b,
    In b (wallAppended 0 mZero sched_single cfg_example
            (nth 0 (updateSylinderMap_all containers_two) []) 1 0) /\
    gidI b = 7%Z /\ gidJ b = 8%Z /\
    globalIndexI b = 0%Z /\ globalIndexJ b = 1%Z /\ oneSide b = true /\
    exists c sy',
      In c (updateSylinderMap_all containers_two) /\ In sy' c /\
      globalIndex sy' = globalIndexJ b.
Proof.
  destruct sy_sunk_dist as [Hm Hp].
  destruct (wallLowBlock_hit 0 mZero 0 sy_sunk) as [b [E _]].
  { rewrite Hm, Hp, Rmin_sunk. lra. }
  assert (Hin : In b (wallAppended 0 mZero sched_single cfg_example
                        (nth 0 (updateSylinderMap_all containers_two) [])
                        1 0)).
  { rewrite containers_two_updated. unfold wallAppended, thread_iters,
      sched_single, at_body. cbn. rewrite E. now left. }
  assert (HN : (Z.of_nat (nGlobal containers_two) <= INT_MAX)%Z)
    by (unfold INT_MAX; cbn; lia).
  assert (Hgid : forall c sy,
            In c (updateSylinderMap_all containers_two) -> In sy c ->
            (INT_MIN <= gid sy < INT_MAX)%Z).
  { rewrite containers_two_updated. unfold INT_MIN, INT_MAX.
    intros c sy [<- | [<- | []]] [<- | []]; cbn; lia. }
  destruct (wall_block_fake_body 0 mZero sched_single cfg_example
              containers_two 0 1 0 b HN Hgid Hin)
    as [sy [Hsy [G1 [G2 [G3 [G4 [G5 [_ [_ Hother]]]]]]]]].
  rewrite containers_two_updated in Hsy. cbn in Hsy.
  destruct Hsy as [<- | []]. cbn in G1, G2.
  destruct Hother as [c [sy' [Hc [Hsy' [Eq _]]]]].
  { rewrite G2. cbn. lia. }
  exists b. split; [exact Hin |].
  rewrite G3, G4, G1, G2. repeat split; try reflexivity; try exact G5.
  exists c, sy'. rewrite Eq, G4, G2. auto.
Defined.

(** The C6 theorem on one upright rod: along the axis the translational
    entry is 1/dragPara, across it 1/dragPerp, the rotational diagonal is
    1/dragRot, and the translation-rotation entries are zero. *)
Lemma calcMobMatrix_block_witness :
  nth_error [sy_slender] 0 = Some sy_slender /\
  let M := calcMobMatrix cfg_example [sy_slender] in
  crs_entry M 2 2 = 1 / dragPara 1 sy_slender /\
  crs_entry M 0 0 = 1 / dragPerp 1 sy_slender /\
  crs_entry M 0 2 = 0 /\
  crs_entry M 3 3 = 1 / dragRot 1 sy_slender /\
  crs_entry M 0 3 = 0 /\
  List.length (crs_row_entries M 4) = 3%nat.
Proof.
  assert (H0 : nth_error [sy_slender] 0 = Some sy_slender) by reflexivity.
  split; [exact H0 |].
  destruct (calcMobMatrix_block cfg_example [sy_slender] 0 sy_slender H0)
    as [Hblock [Hrow _]].
  cbv zeta in Hblock.
  change (orientation sy_slender) with q_identity in Hblock.
  rewrite upright_direction in Hblock.
  change (viscosity cfg_example) with 1 in Hblock.
  cbv zeta.
  destruct (Hblock 2%nat 2%nat) as [T22 _]; [lia | lia |].
  destruct (Hblock 0%nat 0%nat) as [T00 [R00 [TR00 _]]]; [lia | lia |].
  destruct (Hblock 0%nat 2%nat) as [T02 _]; [lia | lia |].
  cbn [Nat.mul Nat.add] in T22, T00, R00, TR00, T02.
  rewrite T22, T00, R00, TR00, T02.
  unfold kron, ez. cbn [vget vx vy vz Nat.eqb].
  split; [ring |]. split; [ring |]. split; [ring |]. split; [ring |].
  split; [reflexivity |]. apply (Hrow 4%nat). lia.
Defined.

Lemma slender_ratio : radius sy_slender / length sy_slender < exp (- (1 / 2)).
Proof.
  pose proof (exp_ineq1_le (- (1 / 2))) as H.
  unfold sy_slender. cbn [radius length]. lra.
Qed.

(** The C7 theorem on a rod of length 10 and radius 1 in a fluid of
    viscosity 1: the three drag coefficients are positive. *)
Lemma drag_coefficients_positive_witness :
  (0 < length sy_slender /\ 0 < radius sy_slender /\ 0 < 1) /\
  0 < dragPara 1 sy_slender /\ 0 < dragPerp 1 sy_slender /\
  0 < dragRot 1 sy_slender.
Proof.
  assert (Hl : 0 < length sy_slender) by (cbn; lra).
  assert (Hr : 0 < radius sy_slender) by (cbn; lra).
  split; [repeat split; try assumption; lra |].
  destruct (drag_coefficients_positive 1 sy_slender Hl Hr Rlt_0_1)
    as [Hpos _].
  exact (proj1 (Hpos slender_ratio)).
Defined.

(** C7, as stated, fails: a rod of length 1 and radius 1 in a fluid of
    viscosity 1 has b = -1 and a negative parallel drag coefficient. *)
Lemma fat_rod_negative_drag :
  0 < length sy_fat /\ 0 < radius sy_fat /\ 0 < 1 /\
  drag_b sy_fat = -1 /\ dragPara 1 sy_fat < 0 /\
  ~ (0 < dragPara 1 sy_fat /\ 0 < dragPerp 1 sy_fat /\ 0 < dragRot 1 sy_fat).
Proof.
  assert (Hb : drag_b sy_fat = -1).
  { unfold drag_b, sy_fat. cbn [radius length].
    replace (1 * 2 * 0.5 / 1) with 1 by lra. rewrite ln_1. lra. }
  assert (Hd : dragPara 1 sy_fat < 0).
  { unfold dragPara. rewrite Hb. cbn [length sy_fat].
    pose proof Pi_pos. lra. }
  split; [cbn; lra |]. split; [cbn; lra |]. split; [lra |].
  split; [exact Hb |]. split; [exact Hd |].
  intros [H _]. lra.
Qed.

(** ** The calls of one step on a concrete system *)

Lemma step_calls_linked_kinds :
  map call_kind
      (step_calls 0 mZero sched_single calcForceAll_none writebackGamma_kept
         sys_linked) =
  [ K_collectPairCollision; K_collectWallCollision; K_setup;
    K_setControlParams; K_solveConstraints; K_writebackGamma;
    K_saveVelocityConstraints ].
Proof. rewrite step_calls_eq. reflexivity. Qed.

(** C2, as stated, fails: in a system whose first rod is linked to its
    second, with a near-neighbour pass that finds no pair, no call of
    collectLinkBilateral is made before setup (nor after it), and the
    bilateral collector that setup receives holds no block. *)
Lemma resolveConstraints_no_link_pass :
  (exists syI syJ,
     In syI (sylinderContainer sys_linked) /\
     In syJ (sylinderContainer sys_linked) /\
     next (link syI) = gid syJ) /\
  ~ (exists c,
       In c (step_calls 0 mZero sched_single calcForceAll_none
                        writebackGamma_kept sys_linked) /\
       call_kind c = K_collectLinkBilateral) /\
  (forall uni_ bi_ dt_,
     In (call_setup uni_ bi_ dt_)
        (step_calls 0 mZero sched_single calcForceAll_none writebackGamma_kept
         sys_linked) ->
     concat bi_ = []).
Proof.
  split; [| split].
  - exists sy_linkI, sy_linkJ. cbn. auto.
  - intros [c [Hin Hk]]. apply (in_map call_kind) in Hin.
    rewrite step_calls_linked_kinds, Hk in Hin. cbn in Hin.
    repeat (destruct Hin as [Hin | Hin]; [discriminate Hin |]).
    contradiction.
  - intros uni_ bi_ dt_ Hin. rewrite step_calls_eq in Hin. cbv zeta in Hin.
    cbn [In] in Hin.
    repeat (destruct Hin as [Hin | Hin]; [try discriminate Hin |]);
      [| contradiction].
    injection Hin as _ <- _. reflexivity.
Qed.

(** C3, as stated, fails: setControlParams is not called before setup,
    and the call sequence of a step is not a run of the state machine of
    the specification from [fresh]. *)
Lemma resolveConstraints_setup_first :
  ~ called_before K_setControlParams K_setup
      (step_calls 0 mZero sched_single calcForceAll_none writebackGamma_kept
         sys_linked) /\
  phase_run fresh
      (step_calls 0 mZero sched_single calcForceAll_none writebackGamma_kept
         sys_linked) = None.
Proof.
  split.
  - intros H. apply called_before_iff in H.
    rewrite step_calls_linked_kinds in H. discriminate H.
  - rewrite step_calls_eq. reflexivity.
Qed.

(** C1 on the failing input: collectPairCollision fills the unset kappa
    of a bilateral block with gap 1 by linkKappa = 100 and sets its gamma
    to +100, not to -kappa delta0 = -100. *)
Lemma collectPairCollision_fill_gamma :
  kappa block_unset < 0 /\
  exists b,
    biConstraint (collectPairCollision calcForceAll_link sys_linked) = [[b]] /\
    kappa b = 100 /\ delta0 b = 1 /\ gamma b = 100 /\
    gamma b <> - (kappa b * delta0 b).
Proof.
  assert (Hk : kappa block_unset < 0) by (cbn; lra).
  split; [exact Hk |].
  destruct (fill_kappa_unset 100 block_unset Hk) as [F1 [F2 F3]].
  exists (fill_kappa 100 block_unset).
  split; [reflexivity |].
  rewrite F1, F2, F3. cbn [delta0 block_unset].
  repeat split; lra.
Qed.

(** ** A local link *)

Lemma link_example_ends :
  linkHead sy_linkI = mkEvec3 0 0 5.5 /\ linkTail sy_linkJ = mkEvec3 0 0 6.5.
Proof.
  unfold linkHead, linkTail, sy_linkI, sy_linkJ.
  cbn [orientation pos length]. rewrite upright_direction.
  unfold vadd, vsub, vscale, ez. cbn [vx vy vz].
  split; f_equal; lra.
Qed.

Lemma link_example_vec :
  vsub (linkHead sy_linkI) (linkTail sy_linkJ) = mkEvec3 0 0 (-1).
Proof.
  destruct link_example_ends as [-> ->].
  unfold vsub. cbn [vx vy vz]. f_equal; lra.
Qed.

Lemma link_example_norm : norm (mkEvec3 0 0 (-1)) = 1.
Proof.
  unfold norm, squaredNorm, vdot. cbn [vx vy vz].
  replace (0 * 0 + 0 * 0 + -1 * -1) with 1 by lra.
  apply sqrt_1.
Qed.

(** The C5 theorem on two rods of one rank, the head of the first one
    length unit below the tail of the second: one block with
    delta0 = 1 - 0.5 * 1.05, gamma = -100 delta0 and a unit normI. *)
Lemma collectLinkBilateral_local_link_witness :
  exists b,
    at_body [sy_linkI; sy_linkJ]
      (linkStep1 (-1) 0 mZero collideStress_zero 100 [sy_linkI; sy_linkJ]
                 [(0%Z, 0%nat); (1%Z, 1%nat)]) 0 = [b] /\
    delta0 b = 0.475 /\ gamma b = -47.5 /\ kappa b = 100 /\
    normI b = mkEvec3 0 0 (-1) /\ norm (normI b) = 1 /\
    normJ b = mkEvec3 0 0 1 /\ oneSide b = false /\
    In b (nth 0 (collectLinkBilateral_step1 (-1) 0 mZero collideStress_zero
                   sched_single cfg_example [sy_linkI; sy_linkJ]
                   [(0%Z, 0%nat); (1%Z, 1%nat)] [[]]) []).
Proof.
  assert (H1 : nth_error [sy_linkI; sy_linkJ] 0 = Some sy_linkI)
    by reflexivity.
  assert (H2 : next (link sy_linkI) <> (-1)%Z) by (cbn; lia).
  assert (H3 : gid_find [(0%Z, 0%nat); (1%Z, 1%nat)] (next (link sy_linkI)) =
               Some 1%nat) by reflexivity.
  assert (H4 : nth_error [sy_linkI; sy_linkJ] 1 = Some sy_linkJ)
    by reflexivity.
  destruct (collectLinkBilateral_local_link (-1) 0 mZero collideStress_zero
              sched_single zdd_find_none cfg_example [sy_linkI; sy_linkJ]
              [(0%Z, 0%nat); (1%Z, 1%nat)] [[]] 0 sy_linkI H1 H2)
    as [Hlocal _].
  destruct (Hlocal 1%nat sy_linkJ H3 H4)
    as [b [E [D [G [K [N [U [NJ [O [_ [_ [S _]]]]]]]]]]]].
  rewrite link_example_vec, link_example_norm in D, N.
  change (linkKappa cfg_example) with 100 in *.
  change (radius sy_linkI) with 0.25 in D.
  change (radius sy_linkJ) with 0.25 in D.
  assert (ND : normI b = mkEvec3 0 0 (-1)).
  { rewrite N. unfold vdivs. cbn [vx vy vz]. f_equal; lra. }
  exists b. split; [exact E |].
  split; [rewrite D; lra |].
  split; [rewrite G, D; lra |].
  split; [exact K |].
  split; [exact ND |].
  split.
  { apply U. destruct link_example_ends as [-> ->].
    intros Heq. apply (f_equal vz) in Heq. cbn in Heq. lra. }
  split.
  { rewrite NJ, ND. unfold vneg. cbn [vx vy vz]. f_equal; lra. }
  split; [exact O |].
  apply S. unfold sched_single. cbn. lia.
Defined.

(** C5, as stated, fails: [sy_linkI] and [sy_linkJ] are on one rank and
    the first is linked to the second, but with sylinderGidIndex as the
    program leaves it the block that step 1 emits for the link is a
    placeholder with delta0 = 0 and gamma = 0, not the block of the claim
    (delta0 = 0.475, gamma = -47.5), and the function exits, also with a
    directory that knows every gid. *)
Lemma collectLinkBilateral_same_rank_exit :
  nth_error [sy_linkI; sy_linkJ] 0 = Some sy_linkI /\
  nth_error [sy_linkI; sy_linkJ] 1 = Some sy_linkJ /\
  next (link sy_linkI) = gid sy_linkJ /\
  (exists p,
     at_body [sy_linkI; sy_linkJ]
       (linkStep1 (-1) 0 mZero collideStress_zero 100 [sy_linkI; sy_linkJ]
                  sylinderGidIndex_unfilled) 0 = [p] /\
     delta0 p = 0 /\ gamma p = 0 /\ delta0 p <> 0.475 /\
     globalIndexJ p = (-1)%Z) /\
  collectLinkBilateral (-1) 0 mZero collideStress_zero sched_single
    zdd_find_echo cfg_example [sy_linkI; sy_linkJ]
    sylinderGidIndex_unfilled [[]] = None.
Proof.
  split; [reflexivity |]. split; [reflexivity |]. split; [reflexivity |].
  split.
  - eexists. split; [reflexivity |]. cbn [delta0 gamma globalIndexJ
      ConstraintBlock_ctor].
    split; [reflexivity |]. split; [reflexivity |].
    split; [lra | reflexivity].
  - reflexivity.
Qed.

(** ** New gids on two ranks *)

Lemma newID_example_shuffle : Permutation (iota 3) newID_example.
Proof.
  change (Permutation [0; 1; 2]%Z [2; 0; 1]%Z).
  apply (perm_trans (l' := [0; 2; 1]%Z)).
  - apply perm_skip. apply perm_swap.
  - apply perm_swap.
Qed.

(** The C10 theorem on two ranks that add two and one sylinders to
    containers with largest gid 7, with the shuffle [2; 0; 1]: the first
    rank gives the gids 10 and 8, the second the gid 9. *)
Lemma addNewSylinder_gids_witness :
  Permutation (iota 3) newID_example /\
  (maxGidGlobal (map add_container ranks_example) + 3 <= INT_MAX)%Z /\
  new_gids newID_example ranks_example 0 = [10; 8]%Z /\
  new_gids newID_example ranks_example 1 = [9]%Z /\
  NoDup (concat (map (new_gids newID_example ranks_example) (seq 0 2))) /\
  (forall g, In g (new_gids newID_example ranks_example 0) -> (7 < g)%Z) /\
  exists c0 c1,
    addNewSylinder (-1) newID_example ranks_example = [Some c0; Some c1] /\
    map gid c0 = [7; 10; 8]%Z /\ map gid c1 = [0; 9]%Z.
Proof.
  assert (Hmax : (maxGidGlobal (map add_container ranks_example) + 3
                  <= INT_MAX)%Z) by (unfold INT_MAX; cbn; lia).
  split; [exact newID_example_shuffle |]. split; [exact Hmax |].
  destruct (addNewSylinder_gids (-1) newID_example ranks_example
              newID_example_shuffle Hmax)
    as [Habove [Hnodup [_ [_ [_ Hrank]]]]].
  destruct (Hrank 0%nat (mkAddInput [sy_sunk] [sy_fat; sy_slender] [])
              eq_refl) as [G0 R0].
  destruct (Hrank 1%nat (mkAddInput [sy_touch] [sy_linkI] []) eq_refl)
    as [G1 R1].
  split; [rewrite G0; reflexivity |].
  split; [rewrite G1; reflexivity |].
  split; [exact Hnodup |].
  split; [intros g Hg; apply (Habove 0%nat g Hg) |].
  do 2 eexists. split; [reflexivity |].
  split; reflexivity.
Defined.

(** ** The further properties on concrete bodies *)


Lemma sy_touch_gaps :
  lowGap 0 sy_touch = 0 /\ highGap 10 sy_touch = 6.
Proof.
  unfold lowGap, highGap, wallLow_distm, wallLow_distp, wallHigh_distm,
    wallHigh_distp, endPm, endPp, sy_touch.
  cbn [orientation pos lengthCollision radius].
  rewrite upright_direction. cbn. unfold Rmin.
  split; match goal with |- context [Rle_dec ?a ?b] =>
                  destruct (Rle_dec a b) end; lra.
Qed.

(** X1 on the rod whose lower end is 0.5 below the bottom wall. *)
Lemma wall_block_penetrating_witness :
  exists b,
    In b (wallAppended 0 mZero sched_single cfg_example [sy_sunk] 1 0) /\
    delta0 b < 0 /\ 0 < gamma b /\ gidI b = 7%Z.
Proof.
  destruct sy_sunk_dist as [Hm Hp].
  destruct (wallLowBlock_hit 0 mZero 0 sy_sunk) as [b [E _]].
  { rewrite Hm, Hp, Rmin_sunk. lra. }
  assert (Hin : In b (wallAppended 0 mZero sched_single cfg_example
                        [sy_sunk] 1 0)).
  { unfold wallAppended, thread_iters, sched_single, at_body. cbn.
    rewrite E. now left. }
  destruct (wall_block_penetrating 0 mZero sched_single cfg_example
              [sy_sunk] 1 0 b Hin)
    as [D [_ [G [_ [_ [_ [sy [Hsy [Hg _]]]]]]]]].
  exists b. split; [exact Hin |]. split; [exact D |]. split; [exact G |].
  destruct Hsy as [<- | []]. exact Hg.
Defined.

(** X2 on the sunk rod: the arm of its wall contact points to the lower
    end. *)
Lemma wall_contact_arm_witness :
  exists b,
    In b (wallLowBlock 0 mZero 0 sy_sunk) /\
    posI b = wallArm (wallLow_distm 0 sy_sunk) (wallLow_distp 0 sy_sunk)
                     sy_sunk.
Proof.
  destruct sy_sunk_dist as [Hm Hp].
  destruct (wallLowBlock_hit 0 mZero 0 sy_sunk) as [b [E _]].
  { rewrite Hm, Hp, Rmin_sunk. lra. }
  assert (Hin : In b (wallLowBlock 0 mZero 0 sy_sunk))
    by (rewrite E; now left).
  exists b. split; [exact Hin |].
  exact (proj1 (proj1 (wall_contact_arm 0 mZero 0 sy_sunk b) Hin)).
Defined.

(** X3 on the rod that exactly touches the bottom wall. *)
Lemma collectWallCollision_clear_rods_witness :
  collectWallCollision 0 mZero sched_single cfg_walls [sy_touch] [[]] = [[]].
Proof.
  apply (proj1 (collectWallCollision_clear_rods 0 mZero sched_single
                  cfg_walls [sy_touch] [[]])).
  intros sy [<- | []]. destruct sy_touch_gaps as [Hl Hh].
  cbn [cfg_walls simBoxLow simBoxHigh vget vz].
  rewrite Hl, Hh. split; intros _; lra.
Defined.



(** X6 on the linked pair whose block is emitted with kappa unset. *)
Lemma collectPairCollision_kappa_set_witness :
  0 <= linkKappa (runConfig sys_linked) /\
  Forall2
    (Forall2 (fun b b' =>
                0 <= kappa b' /\ delta0 b' = delta0 b /\
                gidI b' = gidI b /\ gidJ b' = gidJ b /\
                (0 <= kappa b -> b' = b)))
    [[block_unset]]
    (biConstraint (collectPairCollision calcForceAll_link sys_linked)).
Proof.
  assert (H : 0 <= linkKappa (runConfig sys_linked)) by (cbn; lra).
  split; [exact H |].
  exact (collectPairCollision_kappa_set calcForceAll_link sys_linked H).
Defined.

(** X7 on the first two degrees of freedom of one slender rod. *)
Lemma calcMobMatrix_symmetric_witness :
  (0 < 6 * List.length [sy_slender])%nat /\
  (1 < 6 * List.length [sy_slender])%nat /\
  crs_entry (calcMobMatrix cfg_example [sy_slender]) 0 1 =
  crs_entry (calcMobMatrix cfg_example [sy_slender]) 1 0.
Proof.
  assert (H0 : (0 < 6 * List.length [sy_slender])%nat) by (cbn; lia).
  assert (H1 : (1 < 6 * List.length [sy_slender])%nat) by (cbn; lia).
  split; [exact H0 |]. split; [exact H1 |].
  exact (calcMobMatrix_symmetric cfg_example [sy_slender] 0 1 H0 H1).
Defined.

(** X9 on one slender rod. *)
Lemma mobility_apply_block_witness :
  nth_error [sy_slender] 0 = Some sy_slender /\
  vec3_at (crs_apply (calcMobMatrix cfg_example [sy_slender])
                     [1; 0; 0; 0; 0; 1]) (6 * 0) =
  mvec (MobTrans 1 sy_slender) (mkEvec3 1 0 0).
Proof.
  assert (H : nth_error [sy_slender] 0 = Some sy_slender) by reflexivity.
  split; [exact H |].
  exact (proj1 (proj2 (mobility_apply_block cfg_example [sy_slender]
                         [1; 0; 0; 0; 0; 1] 0 sy_slender H))).
Defined.

(** X10 on one slender rod under a force along x and a torque about z. *)
Lemma calcVelocityNonCon_bodies_witness :
  exists velocityNonCon written,
    calcVelocityNonCon 1 vi_example = Some (velocityNonCon, written) /\
    List.length velocityNonCon = 6%nat /\ List.length written = 1%nat.
Proof.
  destruct (calcVelocityNonCon_bodies cfg_example [sy_slender] vi_example
              [1; 0; 0; 0; 0; 1] 0 sy_slender)
    as [v [w [H1 [H2 [H3 _]]]]];
    try reflexivity; try (intros v0 Hv; discriminate Hv).
  exists v, w. split; [exact H1 |]. split; [exact H2 | exact H3].
Defined.

(** X11: a call of setVelocityNonBrown on the example changes nothing in
    the result of calcVelocityNonCon. *)
Lemma calcVelocityNonCon_inputs_witness :
  exists vi',
    setVelocityNonBrown 1 vi_example [0; 0; 9; 0; 0; 0] = Some vi' /\
    calcVelocityNonCon 1 vi' = calcVelocityNonCon 1 vi_example.
Proof.
  eexists. split; [reflexivity |].
  apply (proj1 (calcVelocityNonCon_inputs 1 vi_example)
               [0; 0; 9; 0; 0; 0]).
  reflexivity.
Defined.

(** X13 on two ranks with one rod each: the global box computed on rank 0
    contains the rod of rank 1. *)
Lemma calcBoundingBox_contains_witness :
  nth_error containers_two 1 = Some [sy_touch] /\
  In sy_touch [sy_touch] /\
  vget (globalLow (calcBoundingBox containers_two 0)) 2 <=
    vget (boxPm sy_touch) 2 /\
  vget (boxPp sy_touch) 2 <=
    vget (globalHigh (calcBoundingBox containers_two 0)) 2.
Proof.
  assert (Hc : nth_error containers_two 1 = Some [sy_touch]) by reflexivity.
  assert (Hsy : In sy_touch [sy_touch]) by (now left).
  split; [exact Hc |]. split; [exact Hsy |].
  destruct (calcBoundingBox_contains containers_two 0 1 [sy_touch] sy_touch 2
              Hc Hsy) as [A1 [A2 [A3 [A4 [A5 [A6 _]]]]]].
  split; [exact (Rle_trans _ _ _ A1 A2) | exact (Rle_trans _ _ _ A5 A6)].
Defined.

Lemma containers_two_upright (c : list Sylinder) (sy : Sylinder) :
  In c containers_two -> In sy c -> orientation sy = q_identity.
Proof.
  intros [<- | [<- | []]] [<- | []]; reflexivity.
Qed.

(** X15 on two upright rods: the polar vector is the z axis and the
    tensor is that of perfect order along z. *)
Lemma calcOrderParameter_tensor_witness :
  (0 < nGlobal containers_two)%nat /\
  fst (calcOrderParameter containers_two) = ez /\
  snd (calcOrderParameter containers_two) = orderQ ez.
Proof.
  assert (Hn : (0 < nGlobal containers_two)%nat) by (cbn; lia).
  assert (Hq : forall c sy, In c containers_two -> In sy c ->
     qx (orientation sy) * qx (orientation sy) +
     qy (orientation sy) * qy (orientation sy) +
     qz (orientation sy) * qz (orientation sy) +
     qw (orientation sy) * qw (orientation sy) = 1).
  { intros c sy Hc Hsy. rewrite (containers_two_upright c sy Hc Hsy).
    cbn. lra. }
  split; [exact Hn |].
  apply (proj2 (proj2 (proj2 (calcOrderParameter_tensor containers_two
                                Hn Hq)))).
  intros c sy Hc Hsy. rewrite (containers_two_upright c sy Hc Hsy).
  exact upright_direction.
Defined.

(** X16 on a rod linked to gid 1 with an empty sylinderGidIndex. *)
Lemma collectLinkBilateral_no_index_witness :
  collectLinkBilateral (-1) 0 mZero collideStress_zero sched_single
    zdd_find_none cfg_example [sy_linkI] [] [[]] = None.
Proof.
  apply (collectLinkBilateral_no_index (-1) 0 mZero collideStress_zero
           sched_single zdd_find_none cfg_example [sy_linkI] [] [[]]
           0 sy_linkI).
  - reflexivity.
  - cbn. lia.
  - reflexivity.
  - reflexivity.
  - unfold sched_single. cbn. lia.
Defined.

Lemma link_remote_returns :
  exists cPool',
    collectLinkBilateral (-1) 0 mZero collideStress_zero sched_single
      zdd_find_echo cfg_example [sy_linkI] [(0%Z, 0%nat)] [[block_unset]]
    = Some cPool'.
Proof. eexists. reflexivity. Qed.

(** X17 on a rod whose next rod is on another rank: the one block left
    is that of the link, and the block the collector held is gone. *)
Lemma collectLinkBilateral_shape_witness :
  exists cPool',
    collectLinkBilateral (-1) 0 mZero collideStress_zero sched_single
      zdd_find_echo cfg_example [sy_linkI] [(0%Z, 0%nat)] [[block_unset]]
    = Some cPool' /\
    List.length cPool' = 1%nat /\ List.length (concat cPool') = 1%nat /\
    collectLinkBilateral (-1) 0 mZero collideStress_zero sched_single
      zdd_find_echo cfg_example [sy_linkI] [(0%Z, 0%nat)] [[]]
    = Some cPool'.
Proof.
  destruct link_remote_returns as [cPool' E].
  exists cPool'. split; [exact E |].
  destruct (collectLinkBilateral_shape (-1) 0 mZero collideStress_zero
              sched_single zdd_find_echo cfg_example [sy_linkI]
              [(0%Z, 0%nat)] [[block_unset]] cPool') as [H1 [H2 H3]].
  - intros i Hi. unfold sched_single. cbn. lia.
  - intros g j Hj. destruct g; cbn in Hj; [| discriminate | discriminate].
    injection Hj as <-. cbn. lia.
  - exact E.
  - split; [exact H1 |]. split; [exact H2 |]. apply H3. reflexivity.
Defined.

(** X18 on the same rod: the directory knows gid 1, and the block that
    is left is a complete link block with kappa = 100. *)
Lemma collectLinkBilateral_complete_witness :
  exists cPool',
    collectLinkBilateral (-1) 0 mZero collideStress_zero sched_single
      zdd_find_echo cfg_example [sy_linkI] [(0%Z, 0%nat)] [[]]
    = Some cPool' /\
    forall que b, In que cPool' -> In b que -> link_fields 100 b.
Proof.
  apply (collectLinkBilateral_complete (-1) 0 mZero collideStress_zero
           sched_single zdd_find_echo cfg_example [sy_linkI]
           [(0%Z, 0%nat)] [[]]).
  - intros sy [<- | []]. exists 0%nat, sy_linkI. split; reflexivity.
  - cbv zeta. unfold zdd_find_echo. rewrite map_map. cbn [ep_gid].
    apply map_id.
Defined.

Lemma chain_added :
  exists c',
    addNewSylinder_rank (-1) 7 [2; 0; 1]%Z [sy_sunk] chain_new chain_linkage
    = Some c'.
Proof. eexists. reflexivity. Qed.

(** X19 on a chain of three new rods: the first rod has no previous rod
    and its next is the gid given to the second. *)
Lemma addNewSylinder_links_witness :
  List.length [2; 0; 1]%Z = List.length chain_new /\
  exists c' new p n,
    addNewSylinder_rank (-1) 7 [2; 0; 1]%Z [sy_sunk] chain_new chain_linkage
    = Some c' /\
    c' = [sy_sunk] ++ new /\
    nth_error new 0 =
      Some (set_link (set_gid sy_fat (int_add (int_add 2 1) 7))
                     (mkLink 4 p n)) /\
    link_resolved (-1) new (-1) p /\ link_resolved (-1) new 1 n.
Proof.
  assert (Hl : List.length [2; 0; 1]%Z = List.length chain_new)
    by reflexivity.
  split; [exact Hl |].
  destruct chain_added as [c' E].
  destruct (proj2 (addNewSylinder_links (-1) 7 [2; 0; 1]%Z [sy_sunk]
                     chain_new chain_linkage Hl) c' E)
    as [new [Ec [_ [_ Hlinks]]]].
  destruct (Hlinks eq_refl 0%nat (mkLink 4 (-1) 1) 2%Z sy_fat
              eq_refl eq_refl eq_refl) as [p [n [Hn [Hp Hnx]]]].
  exists c', new, p, n. auto.
Defined.

(** X20 on two ranks with one rod each. *)
Lemma updateSylinderMap_contiguous_witness :
  (Z.of_nat (nGlobal containers_two) <= INT_MAX)%Z /\
  map globalIndex (concat (updateSylinderMap_all containers_two)) =
    [0; 1]%Z.
Proof.
  assert (HN : (Z.of_nat (nGlobal containers_two) <= INT_MAX)%Z)
    by (unfold INT_MAX; cbn; lia).
  split; [exact HN |].
  exact (proj1 (updateSylinderMap_contiguous containers_two HN)).
Defined.

(** X21 on one particle in a monolayer: the z entry of the vector is
    zero, while the z velocity copied to the particle is that of the
    force, 2 * 3. *)
Lemma calcVelTotalNonCon_monolayer_witness :
  exists r,
    calcVelTotalNonCon 1 nonCon_example = Some r /\
    nth 2 (res_velTotalNonCon r) 0 = 0 /\
    nth 2 (nth 0 (res_velNonCon r) []) 0 = 2 * 3 + 0.
Proof.
  destruct (calcVelTotalNonCon_monolayer 1 nonCon_example)
    as [r [E [_ [_ H]]]].
  - reflexivity.
  - eexists. split; reflexivity.
  - intros force Hf. injection Hf as <-. split; [reflexivity |].
    eexists. split; reflexivity.
  - intros v Hv. discriminate Hv.
  - intros v Hv. injection Hv as <-. reflexivity.
  - exists r. split; [exact E |].
    destruct (H 0%nat 2%nat) as [H1 H2]; [lia | lia |].
    split; [exact H2 | exact H1].
Defined.

(** X22 on the same particle without an allocated vector. *)
Lemma calcVelTotalNonCon_asserts_witness :
  calcVelTotalNonCon 1
    (mkNonConInputs true 6 (Some (map (fun x => 2 * x)))
                    (Some [1; 0; 3; 0; 0; 0]) None None None) = None.
Proof.
  apply (proj1 (calcVelTotalNonCon_asserts 1 _)). reflexivity.
Defined.

(** With 8 ranks the folders hold 50 snapshots each; snapshot 123 goes to
    the folder of 100 to 149. *)
Lemma result_folder_example :
  getCurrentResultFolder 8 123 = ResultFolder.baseFolder 100 149.
Proof. reflexivity. Qed.

(** X23 at snapshot 123 on 8 ranks. *)
Lemma getCurrentResultFolder_range_witness :
  (0 < 8)%Z /\ (0 <= 123 <= INT_MAX - 400)%Z /\
  exists num low high,
    getCurrentResultFolder 8 123 = ResultFolder.baseFolder low high /\
    (num * 8 <= 400)%Z /\ (low <= 123 <= high)%Z /\
    high = (low + num - 1)%Z.
Proof.
  assert (H1 : (0 < 8)%Z) by lia.
  assert (H2 : (0 <= 123 <= INT_MAX - 400)%Z) by (unfold INT_MAX; lia).
  split; [exact H1 |]. split; [exact H2 |].
  destruct (getCurrentResultFolder_range 8 123 H1 H2)
    as [num [low [high [E [_ [Hn [_ [Hr [Hh _]]]]]]]]].
  exists num, low, high.
  split; [exact E |]. split; [apply Hn; lia |].
  split; [exact Hr | exact Hh].
Defined.

(** X24 on the sunk and the touching rod with the bottom wall. *)
Lemma collectWallCollision_all_rods_witness :
  (forall i, (i < List.length [sy_sunk; sy_touch])%nat ->
     (sched_single (List.length [@nil ConstraintBlock])
                   (List.length [sy_sunk; sy_touch]) i
      < List.length [@nil ConstraintBlock])%nat) /\
  Permutation
    (concat (collectWallCollision 0 mZero sched_single cfg_example
               [sy_sunk; sy_touch] [[]]))
    (flat_map (wallLowBlock 0 mZero 0) [sy_sunk; sy_touch]).
Proof.
  assert (Hs : forall i, (i < List.length [sy_sunk; sy_touch])%nat ->
     (sched_single (List.length [@nil ConstraintBlock])
                   (List.length [sy_sunk; sy_touch]) i
      < List.length [@nil ConstraintBlock])%nat)
    by (intros i _; unfold sched_single; cbn; lia).
  split; [exact Hs |].
  pose proof (proj1 (collectWallCollision_all_rods 0 mZero sched_single
                       cfg_example [sy_sunk; sy_touch] [[]] Hs)) as H.
  cbn [cfg_example wallLowZ wallHighZ simBoxLow vget vz concat app] in H.
  rewrite app_nil_r in H. exact H.
Defined.

Lemma sy_slender_gaps :
  lowGap 0 sy_slender = -1 /\ highGap 10 sy_slender = -1.
Proof.
  unfold lowGap, highGap, wallLow_distm, wallLow_distp, wallHigh_distm,
    wallHigh_distp, endPm, endPp, sy_slender.
  cbn [orientation pos lengthCollision radius].
  rewrite upright_direction. cbn. unfold Rmin.
  split; match goal with |- context [Rle_dec ?a ?b] =>
                  destruct (Rle_dec a b) end; lra.
Qed.

(** X25 on a rod of length 10 and radius 1 between walls at heights 0
    and 10: it is left 2.0001 inside the bottom wall. *)
Lemma setPosWithWall_too_long_witness :
  lowGap (vget (simBoxLow cfg_walls) 2) sy_slender +
  highGap (vget (simBoxHigh cfg_walls) 2) sy_slender < 0 /\
  exists b,
    wallLowBlock 0 mZero (vget (simBoxLow cfg_walls) 2)
                 (setPosBody cfg_walls sy_slender) = [b] /\
    delta0 b = -2.0001.
Proof.
  destruct sy_slender_gaps as [Hl Hh].
  assert (Hs : lowGap (vget (simBoxLow cfg_walls) 2) sy_slender +
               highGap (vget (simBoxHigh cfg_walls) 2) sy_slender < 0).
  { cbn [cfg_walls simBoxLow simBoxHigh vget vz]. rewrite Hl, Hh. lra. }
  split; [exact Hs |].
  destruct (setPosWithWall_too_long 0 mZero cfg_walls [sy_slender]
              sy_slender eq_refl eq_refl (or_introl eq_refl) Hs)
    as [_ [_ [_ [b [E [D _]]]]]].
  exists b. split; [exact E |]. rewrite D.
  cbn [cfg_walls simBoxLow simBoxHigh vget vz]. rewrite Hl, Hh.
  unfold wall_buffer. lra.
Defined.

Lemma linked_rods_clear (sy : Sylinder) :
  In sy (sylinderContainer sys_linked) -> 0 <= lowGap 0 sy.
Proof.
  intros [<- | [<- | []]];
    unfold lowGap, wallLow_distm, wallLow_distp, endPm, endPp,
      sy_linkI, sy_linkJ;
    cbn [orientation pos lengthCollision radius];
    rewrite upright_direction; cbn; unfold Rmin;
    match goal with |- context [Rle_dec ?a ?b] =>
      destruct (Rle_dec a b) end; lra.
Qed.

(** X26 on the linked pair, which is clear of the bottom wall: setup
    receives the empty unilateral pool of the pair pass. *)
Lemma resolveConstraints_clear_rods_witness :
  (forall sy, In sy (sylinderContainer sys_linked) ->
     (wallLowZ (runConfig sys_linked) = true ->
      0 <= lowGap (vget (simBoxLow (runConfig sys_linked)) 2) sy) /\
     (wallHighZ (runConfig sys_linked) = true ->
      0 <= highGap (vget (simBoxHigh (runConfig sys_linked)) 2) sy)) /\
  exists rest,
    step_calls 0 mZero sched_single calcForceAll_link writebackGamma_kept
               sys_linked =
    call_collectPairCollision :: call_collectWallCollision ::
    call_setup [[]] [[fill_kappa 100 block_unset]] 0.01 :: rest.
Proof.
  assert (H : forall sy, In sy (sylinderContainer sys_linked) ->
     (wallLowZ (runConfig sys_linked) = true ->
      0 <= lowGap (vget (simBoxLow (runConfig sys_linked)) 2) sy) /\
     (wallHighZ (runConfig sys_linked) = true ->
      0 <= highGap (vget (simBoxHigh (runConfig sys_linked)) 2) sy)).
  { intros sy Hin. split.
    - intros _. exact (linked_rods_clear sy Hin).
    - intros Hw. discriminate Hw. }
  split; [exact H |].
  destruct (resolveConstraints_clear_rods 0 mZero sched_single
              calcForceAll_link writebackGamma_kept sys_linked H)
    as [rest [E _]].
  exists rest. exact E.
Defined.
